(** * Transaction canonical encoding and signer indexing (flow-go-sdk)

    A shallow embedding of [transaction.go]: the signer list and signer map,
    the two signature sequences and their re-indexing, the three canonical
    forms, their RLP serialization and [DecodeTransaction]; with them
    [Transaction.Argument] and [TransactionStatus.String], the two encodings
    of an event ([event.go]) and the identifier generator of the test
    entities ([test/entities.go]).

    Conventions.
    - Go's [int], [uint] and [uint64] are 64-bit; they are modelled as [Z]
      with the conversions between them written out ([to_uint], [to_int]).
    - [[]byte] is [list byte]; a nil slice and an empty slice are both [[]].
    - A method with a pointer receiver that mutates the transaction returns
      the updated transaction.
    - A Go run-time panic is the [Panic] outcome, distinct from a returned
      [error]. *)

From Stdlib Require Import ZArith Lia List Bool.
From Stdlib Require Strings.Byte.
From Stdlib Require Strings.String.
From stdpp Require Import base tactics option list countable gmap sets.

Import ListNotations.
Import String.StringSyntax.
Local Open Scope Z_scope.
Delimit Scope string_scope with string.

(** ** Bytes and machine integers *)

Abbreviation byte := Init.Byte.byte.

Definition b2z (b : byte) : Z := Z.of_N (Byte.to_N b).

Definition z2b (z : Z) : byte :=
  match Byte.of_N (Z.to_N (z mod 256)) with
  | Some b => b
  | None => Byte.x00
  end.

Definition len {A} (l : list A) : Z := Z.of_nat (length l).

Definition two64 : Z := 2 ^ 64.
Definition two63 : Z := 2 ^ 63.

(** [uint(x)] / [uint64(x)] applied to an [int]. *)
Definition to_uint (x : Z) : Z := x mod two64.

(** [int(x)] applied to a [uint] / [uint64]. *)
Definition to_int (x : Z) : Z := if x <? two63 then x else x - two64.

Definition is_uint64 (x : Z) : bool := (0 <=? x) && (x <? two64).
Definition is_int (x : Z) : bool := (- two63 <=? x) && (x <? two63).

#[global] Instance byte_eq_dec : EqDecision byte := Byte.byte_eq_dec.

#[global] Program Instance byte_countable : Countable byte :=
  inj_countable Byte.to_N Byte.of_N _.
Next Obligation. intros b. apply Byte.of_to_N. Qed.

(** ** Outcomes of a Go call *)

Inductive panic : Type :=
  | IndexOutOfRange (index length : Z).

Inductive error : Type :=
  | EOL
  | EOF
  | ErrUnexpectedEOF
  | ErrExpectedString
  | ErrExpectedList
  | ErrCanonInt
  | ErrCanonSize
  | ErrElemTooLarge
  | errUintOverflow
  | errNotAtEOL
  | errNotInList
  | errTooFewElements
  | errUnexpectedType
  | errBound.

Inductive outcome (A : Type) : Type :=
  | Ok (a : A)
  | Error (e : error)
  | Panic (p : panic).
Arguments Ok {A} a.
Arguments Error {A} e.
Arguments Panic {A} p.

Definition bind {A B} (m : outcome A) (k : A -> outcome B) : outcome B :=
  match m with
  | Ok a => k a
  | Error e => Error e
  | Panic p => Panic p
  end.

Notation "'let*' x ':=' m 'in' k" := (bind m (fun x => k))
  (at level 10, x pattern, m at level 100, k at level 200).

(** Go's [s[i]] for an [int] index: a panic outside [0 <= i < len(s)]. *)
Definition index {A} (s : list A) (i : Z) : outcome A :=
  if (i <? 0) || (len s <=? i) then Panic (IndexOutOfRange i (len s))
  else match s !! Z.to_nat i with
       | Some x => Ok x
       | None => Panic (IndexOutOfRange i (len s))
       end.

(** ** Addresses and identifiers *)

(** Modelled from the spec: the [Address] type, [EmptyAddress],
    [Address.Bytes] and [BytesToAddress] are declared in [address.go], which
    is not among the files at hand.  An address is a fixed-width byte array
    (8 bytes in the SDK) and the sentinel is the all-zero address;
    [BytesToAddress] keeps the last [AddressLength] bytes and pads on the
    left with zeros. *)
Abbreviation Address := (list byte) (only parsing).

Definition AddressLength : nat := 8.

Definition EmptyAddress : Address := repeat Byte.x00 AddressLength.

Definition Address_Bytes (a : Address) : list byte := a.

Definition BytesToAddress (b : list byte) : Address :=
  let b' := drop (length b - AddressLength) b in
  repeat Byte.x00 (AddressLength - length b') ++ b'.

(** Modelled from the spec: [Identifier] and [BytesToID] are declared in
    [identifier.go], which is not among the files at hand.  An identifier is
    a 32-byte array; [BytesToID] copies the first bytes of its argument over
    a zeroed identifier. *)
Abbreviation Identifier := (list byte) (only parsing).

Definition IdentifierLength : nat := 32.

Definition BytesToID (b : list byte) : Identifier :=
  take IdentifierLength b ++ repeat Byte.x00 (IdentifierLength - length b).

(** ** The data model *)

Record ProposalKey : Type := mkProposalKey {
  pk_Address : Address;
  pk_KeyIndex : Z;
  pk_SequenceNumber : Z
}.

Record TransactionSignature : Type := mkTransactionSignature {
  sig_Address : Address;
  sig_SignerIndex : Z;
  sig_KeyIndex : Z;
  sig_Signature : list byte
}.

Record Transaction : Type := mkTransaction {
  tx_Script : list byte;
  tx_Arguments : list (list byte);
  tx_ReferenceBlockID : Identifier;
  tx_GasLimit : Z;
  tx_ProposalKey : ProposalKey;
  tx_Payer : Address;
  tx_Authorizers : list Address;
  tx_PayloadSignatures : list TransactionSignature;
  tx_EnvelopeSignatures : list TransactionSignature
}.

Record payloadCanonicalForm : Type := mkPayloadCanonicalForm {
  pcf_Script : list byte;
  pcf_Arguments : list (list byte);
  pcf_ReferenceBlockID : list byte;
  pcf_GasLimit : Z;
  pcf_ProposalKeyAddress : list byte;
  pcf_ProposalKeyIndex : Z;
  pcf_ProposalKeySequenceNumber : Z;
  pcf_Payer : list byte;
  pcf_Authorizers : list (list byte)
}.

Record transactionSignatureCanonicalForm : Type := mkSigCanonicalForm {
  scf_SignerIndex : Z;
  scf_KeyIndex : Z;
  scf_Signature : list byte
}.

Record envelopeCanonicalForm : Type := mkEnvelopeCanonicalForm {
  ecf_Payload : payloadCanonicalForm;
  ecf_PayloadSignatures : list transactionSignatureCanonicalForm
}.

Record transactionCanonicalForm : Type := mkTransactionCanonicalForm {
  tcf_Payload : payloadCanonicalForm;
  tcf_PayloadSignatures : list transactionSignatureCanonicalForm;
  tcf_EnvelopeSignatures : list transactionSignatureCanonicalForm
}.

Definition DefaultTransactionGasLimit : Z := 9999.

Definition zeroIdentifier : Identifier := repeat Byte.x00 IdentifierLength.

Definition NewTransaction : Transaction :=
  {| tx_Script := [];
     tx_Arguments := [];
     tx_ReferenceBlockID := zeroIdentifier;
     tx_GasLimit := DefaultTransactionGasLimit;
     tx_ProposalKey := mkProposalKey EmptyAddress 0 0;
     tx_Payer := EmptyAddress;
     tx_Authorizers := [];
     tx_PayloadSignatures := [];
     tx_EnvelopeSignatures := [] |}.

(** Field updates. *)
Definition set_Arguments (t : Transaction) (args : list (list byte)) : Transaction :=
  mkTransaction (tx_Script t) args (tx_ReferenceBlockID t) (tx_GasLimit t)
    (tx_ProposalKey t) (tx_Payer t) (tx_Authorizers t)
    (tx_PayloadSignatures t) (tx_EnvelopeSignatures t).

Definition set_ProposalKey (t : Transaction) (pk : ProposalKey) : Transaction :=
  mkTransaction (tx_Script t) (tx_Arguments t) (tx_ReferenceBlockID t) (tx_GasLimit t)
    pk (tx_Payer t) (tx_Authorizers t)
    (tx_PayloadSignatures t) (tx_EnvelopeSignatures t).

Definition set_Payer (t : Transaction) (a : Address) : Transaction :=
  mkTransaction (tx_Script t) (tx_Arguments t) (tx_ReferenceBlockID t) (tx_GasLimit t)
    (tx_ProposalKey t) a (tx_Authorizers t)
    (tx_PayloadSignatures t) (tx_EnvelopeSignatures t).

Definition set_Authorizers (t : Transaction) (l : list Address) : Transaction :=
  mkTransaction (tx_Script t) (tx_Arguments t) (tx_ReferenceBlockID t) (tx_GasLimit t)
    (tx_ProposalKey t) (tx_Payer t) l
    (tx_PayloadSignatures t) (tx_EnvelopeSignatures t).

Definition set_PayloadSignatures (t : Transaction) (l : list TransactionSignature) : Transaction :=
  mkTransaction (tx_Script t) (tx_Arguments t) (tx_ReferenceBlockID t) (tx_GasLimit t)
    (tx_ProposalKey t) (tx_Payer t) (tx_Authorizers t)
    l (tx_EnvelopeSignatures t).

Definition set_EnvelopeSignatures (t : Transaction) (l : list TransactionSignature) : Transaction :=
  mkTransaction (tx_Script t) (tx_Arguments t) (tx_ReferenceBlockID t) (tx_GasLimit t)
    (tx_ProposalKey t) (tx_Payer t) (tx_Authorizers t)
    (tx_PayloadSignatures t) l.

Definition SetScript (t : Transaction) (script : list byte) : Transaction :=
  mkTransaction script (tx_Arguments t) (tx_ReferenceBlockID t) (tx_GasLimit t)
    (tx_ProposalKey t) (tx_Payer t) (tx_Authorizers t)
    (tx_PayloadSignatures t) (tx_EnvelopeSignatures t).

Definition AddRawArgument (t : Transaction) (arg : list byte) : Transaction :=
  set_Arguments t (tx_Arguments t ++ [arg]).

Definition SetReferenceBlockID (t : Transaction) (blockID : Identifier) : Transaction :=
  mkTransaction (tx_Script t) (tx_Arguments t) blockID (tx_GasLimit t)
    (tx_ProposalKey t) (tx_Payer t) (tx_Authorizers t)
    (tx_PayloadSignatures t) (tx_EnvelopeSignatures t).

Definition SetGasLimit (t : Transaction) (limit : Z) : Transaction :=
  mkTransaction (tx_Script t) (tx_Arguments t) (tx_ReferenceBlockID t) limit
    (tx_ProposalKey t) (tx_Payer t) (tx_Authorizers t)
    (tx_PayloadSignatures t) (tx_EnvelopeSignatures t).

(** ** Signer list and signer map *)

(** The closure [addSigner] of [signerList], with the two variables it
    captures ([signers], [seen]) passed explicitly. *)
Definition addSigner (st : list Address * gset (list byte)) (address : Address)
  : list Address * gset (list byte) :=
  let (signers, seen) := st in
  if decide (address ∈ seen) then st
  else (signers ++ [address], {[address]} ∪ seen).

Definition signerList (t : Transaction) : list Address :=
  let st0 : list Address * gset (list byte) := ([], ∅) in
  let st1 :=
    if decide (pk_Address (tx_ProposalKey t) = EmptyAddress) then st0
    else addSigner st0 (pk_Address (tx_ProposalKey t)) in
  let st2 :=
    if decide (tx_Payer t = EmptyAddress) then st1
    else addSigner st1 (tx_Payer t) in
  fst (foldl addSigner st2 (tx_Authorizers t)).

(** [for i, signer := range t.signerList() { signers[signer] = i }] *)
Definition signerMap (t : Transaction) : gmap (list byte) Z :=
  foldl (fun m p => <[p.2 := Z.of_nat p.1]> m) ∅ (imap pair (signerList t)).

Definition lookupSignerIndex (m : gmap (list byte) Z) (a : Address) : Z :=
  match m !! a with
  | Some i => i
  | None => -1
  end.

Definition reindex (m : gmap (list byte) Z) (sig : TransactionSignature)
  : TransactionSignature :=
  mkTransactionSignature (sig_Address sig) (lookupSignerIndex m (sig_Address sig))
    (sig_KeyIndex sig) (sig_Signature sig).

Definition refreshSignerIndex (t : Transaction) : Transaction :=
  let m := signerMap t in
  let t1 := set_PayloadSignatures t (map (reindex m) (tx_PayloadSignatures t)) in
  set_EnvelopeSignatures t1 (map (reindex m) (tx_EnvelopeSignatures t1)).

Definition SetProposalKey (t : Transaction) (address : Address) (keyIndex sequenceNum : Z)
  : Transaction :=
  refreshSignerIndex (set_ProposalKey t (mkProposalKey address keyIndex sequenceNum)).

Definition SetPayer (t : Transaction) (address : Address) : Transaction :=
  refreshSignerIndex (set_Payer t address).

Definition AddAuthorizer (t : Transaction) (address : Address) : Transaction :=
  refreshSignerIndex (set_Authorizers t (tx_Authorizers t ++ [address])).

Definition createSignature (t : Transaction) (address : Address) (keyIndex : Z)
  (sig : list byte) : TransactionSignature :=
  mkTransactionSignature address (lookupSignerIndex (signerMap t) address) keyIndex sig.

(** The [less] function returned by [compareSignatures], on the two elements
    it reads. *)
Definition compareSignatures (sigA sigB : TransactionSignature) : bool :=
  if sig_SignerIndex sigA =? sig_SignerIndex sigB
  then sig_KeyIndex sigA <? sig_KeyIndex sigB
  else sig_SignerIndex sigA <? sig_SignerIndex sigB.

(** [sort.Slice] is Go's standard library: it leaves a permutation of the
    slice that is ordered by [less], with no promise on the order of elements
    that compare equal.  It is modelled by a stable insertion sort; every
    correct sort returns the same slice when no two elements compare equal. *)
Fixpoint insertSorted {A} (less : A -> A -> bool) (x : A) (l : list A) : list A :=
  match l with
  | [] => [x]
  | y :: l' => if less x y then x :: y :: l' else y :: insertSorted less x l'
  end.

Definition sort_Slice {A} (less : A -> A -> bool) (l : list A) : list A :=
  foldl (fun acc x => insertSorted less x acc) [] l.

Definition AddPayloadSignature (t : Transaction) (address : Address) (keyIndex : Z)
  (sig : list byte) : Transaction :=
  let s := createSignature t address keyIndex sig in
  let t1 := set_PayloadSignatures t (tx_PayloadSignatures t ++ [s]) in
  let t2 := set_PayloadSignatures t1 (sort_Slice compareSignatures (tx_PayloadSignatures t1)) in
  refreshSignerIndex t2.

Definition AddEnvelopeSignature (t : Transaction) (address : Address) (keyIndex : Z)
  (sig : list byte) : Transaction :=
  let s := createSignature t address keyIndex sig in
  let t1 := set_EnvelopeSignatures t (tx_EnvelopeSignatures t ++ [s]) in
  let t2 := set_EnvelopeSignatures t1 (sort_Slice compareSignatures (tx_EnvelopeSignatures t1)) in
  refreshSignerIndex t2.

(** ** RLP serialization

    The encoder and the decoding stream of the [rlp] package of go-ethereum,
    an external dependency, restricted to the types that [transaction.go]
    serializes: byte strings, unsigned integers, slices and structs. *)

Module rlp.

(** *** Encoding *)

(** [putint] writes [i] in big-endian order with as few bytes as possible. *)
Definition putint (i : Z) : list byte :=
  if i <? 2 ^ 8 then [z2b i]
  else if i <? 2 ^ 16 then [z2b (Z.shiftr i 8); z2b i]
  else if i <? 2 ^ 24 then [z2b (Z.shiftr i 16); z2b (Z.shiftr i 8); z2b i]
  else if i <? 2 ^ 32 then
    [z2b (Z.shiftr i 24); z2b (Z.shiftr i 16); z2b (Z.shiftr i 8); z2b i]
  else if i <? 2 ^ 40 then
    [z2b (Z.shiftr i 32); z2b (Z.shiftr i 24); z2b (Z.shiftr i 16);
     z2b (Z.shiftr i 8); z2b i]
  else if i <? 2 ^ 48 then
    [z2b (Z.shiftr i 40); z2b (Z.shiftr i 32); z2b (Z.shiftr i 24);
     z2b (Z.shiftr i 16); z2b (Z.shiftr i 8); z2b i]
  else if i <? 2 ^ 56 then
    [z2b (Z.shiftr i 48); z2b (Z.shiftr i 40); z2b (Z.shiftr i 32);
     z2b (Z.shiftr i 24); z2b (Z.shiftr i 16); z2b (Z.shiftr i 8); z2b i]
  else
    [z2b (Z.shiftr i 56); z2b (Z.shiftr i 48); z2b (Z.shiftr i 40);
     z2b (Z.shiftr i 32); z2b (Z.shiftr i 24); z2b (Z.shiftr i 16);
     z2b (Z.shiftr i 8); z2b i].

(** [puthead]: the type tag and size of a string or list of [size] bytes. *)
Definition puthead (smalltag largetag : Z) (size : Z) : list byte :=
  if size <? 56 then [z2b (smalltag + size)]
  else let sizesize := putint size in z2b (largetag + len sizesize) :: sizesize.

Definition encodeStringHeader (size : Z) : list byte := puthead 128 183 size.

Definition writeBytes (b : list byte) : list byte :=
  match b with
  | [x] => if b2z x <=? 127 then [x] else encodeStringHeader (len b) ++ b
  | _ => encodeStringHeader (len b) ++ b
  end.

Definition writeUint64 (i : Z) : list byte :=
  if i =? 0 then [z2b 128]
  else if i <? 128 then [z2b i]
  else let s := putint i in z2b (128 + len s) :: s.

(** A list: the header for the total size of the encoded elements, then the
    elements. *)
Definition writeList (content : list byte) : list byte :=
  puthead 192 247 (len content) ++ content.

Definition encodeByteSlices (l : list (list byte)) : list byte :=
  writeList (concat (map writeBytes l)).

(** *** The decoding stream *)

Inductive Kind : Type := Byte | String | List.

Record listpos : Type := mkListpos { pos : Z; size : Z }.

(** [r] is what is left of the input; [stack] holds the enclosing lists,
    innermost first.  The stream is created with input limit 0, so no limit
    applies at top level. *)
Record Stream : Type := mkStream { r : list byte; stack : list listpos }.

Definition NewStream (input : list byte) : Stream := mkStream input [].

Definition willRead (n : Z) (s : Stream) : outcome Stream :=
  match stack s with
  | [] => Ok s
  | tos :: tl =>
      if size tos - pos tos <? n then Error ErrElemTooLarge
      else Ok (mkStream (r s) (mkListpos (pos tos + n) (size tos) :: tl))
  end.

Definition readByte (s : Stream) : outcome (byte * Stream) :=
  let* s1 := willRead 1 s in
  match r s1 with
  | [] => Error ErrUnexpectedEOF
  | b :: rest => Ok (b, mkStream rest (stack s1))
  end.

Definition readFull (n : Z) (s : Stream) : outcome (list byte * Stream) :=
  let* s1 := willRead n s in
  if len (r s1) <? n then Error ErrUnexpectedEOF
  else Ok (take (Z.to_nat n) (r s1), mkStream (drop (Z.to_nat n) (r s1)) (stack s1)).

Definition BigEndian_Uint64 (buf : list byte) : Z :=
  fold_left (fun acc b => acc * 256 + b2z b) buf 0.

Definition readUint (size : Z) (s : Stream) : outcome (Z * Stream) :=
  if size =? 0 then Ok (0, s)
  else if size =? 1 then
    let* (b, s1) := readByte s in Ok (b2z b, s1)
  else
    let* (buf, s1) := readFull size s in
    if b2z (hd Byte.x00 buf) =? 0 then Error ErrCanonSize
    else Ok (BigEndian_Uint64 buf, s1).

(** The result of reading a type tag: kind, size and, for a single byte, its
    value. *)
Record tag : Type := mkTag { kind : Kind; tsize : Z; byteval : Z }.

Definition readKind (s : Stream) : outcome (tag * Stream) :=
  match readByte s with
  | Error e =>
      match stack s, e with
      | [], ErrUnexpectedEOF => Error EOF
      | _, _ => Error e
      end
  | Panic p => Panic p
  | Ok (b0, s1) =>
      let b := b2z b0 in
      if b <? 128 then Ok (mkTag Byte 0 b, s1)
      else if b <? 184 then Ok (mkTag String (b - 128) 0, s1)
      else if b <? 192 then
        let* (sz, s2) := readUint (b - 183) s1 in
        if sz <? 56 then Error ErrCanonSize else Ok (mkTag String sz 0, s2)
      else if b <? 248 then Ok (mkTag List (b - 192) 0, s1)
      else
        let* (sz, s2) := readUint (b - 247) s1 in
        if sz <? 56 then Error ErrCanonSize else Ok (mkTag List sz 0, s2)
  end.

(** [Stream.Kind] reads the type tag of the next value and keeps it until
    the value is consumed.  Here it returns the tag together with the stream
    positioned behind the tag: a reader continues from that stream, a caller
    that only inspects the kind keeps the stream it had. *)
Definition Kind_ (s : Stream) : outcome (tag * Stream) :=
  match stack s with
  | tos :: _ =>
      if pos tos =? size tos then Error EOL
      else
        let* (t, s1) := readKind s in
        match stack s1 with
        | tos1 :: _ =>
            if size tos1 - pos tos1 <? tsize t then Error ErrElemTooLarge
            else Ok (t, s1)
        | [] => Ok (t, s1)
        end
  | [] => readKind s
  end.

Definition Bytes (s : Stream) : outcome (list byte * Stream) :=
  let* (t, s1) := Kind_ s in
  match kind t with
  | Byte => Ok ([z2b (byteval t)], s1)
  | String =>
      let* (b, s2) := readFull (tsize t) s1 in
      match b with
      | [x] => if b2z x <? 128 then Error ErrCanonSize else Ok (b, s2)
      | _ => Ok (b, s2)
      end
  | List => Error ErrExpectedString
  end.

Definition uint (maxbits : Z) (s : Stream) : outcome (Z * Stream) :=
  let* (t, s1) := Kind_ s in
  match kind t with
  | Byte => if byteval t =? 0 then Error ErrCanonInt else Ok (byteval t, s1)
  | String =>
      if maxbits / 8 <? tsize t then Error errUintOverflow
      else
        match readUint (tsize t) s1 with
        | Error ErrCanonSize => Error ErrCanonInt
        | Error e => Error e
        | Panic p => Panic p
        | Ok (v, s2) =>
            if (0 <? tsize t) && (v <? 128) then Error ErrCanonSize
            else Ok (v, s2)
        end
  | List => Error ErrExpectedString
  end.

Definition List_ (s : Stream) : outcome (Z * Stream) :=
  let* (t, s1) := Kind_ s in
  match kind t with
  | List => Ok (tsize t, mkStream (r s1) (mkListpos 0 (tsize t) :: stack s1))
  | _ => Error ErrExpectedList
  end.

Definition ListEnd (s : Stream) : outcome Stream :=
  match stack s with
  | [] => Error errNotInList
  | tos :: tl =>
      if negb (pos tos =? size tos) then Error errNotAtEOL
      else
        match tl with
        | [] => Ok (mkStream (r s) [])
        | up :: tl' => Ok (mkStream (r s) (mkListpos (pos up + size tos) (size up) :: tl'))
        end
  end.

(** *** Typed decoders

    What the package builds by reflection for the types at hand.  The
    package wraps stream errors with the name of the type being decoded; the
    wrapping is left out, [EOL] is never wrapped. *)

Definition decodeByteSlice (s : Stream) : outcome (list byte * Stream) := Bytes s.

Definition decodeUint (s : Stream) : outcome (Z * Stream) := uint 64 s.

(** The loop of [decodeSliceElems]: elements are decoded until the element
    decoder meets the end of the list.  Every element takes at least one
    byte of input, which bounds the number of rounds; [errBound] marks the
    end of that bound and is not an error of the package. *)
Fixpoint decodeSliceElems {A} (bound : nat) (elemdec : Stream -> outcome (A * Stream))
  (s : Stream) : outcome (list A * Stream) :=
  match bound with
  | O => Error errBound
  | S bound' =>
      match elemdec s with
      | Error EOL => Ok ([], s)
      | Error e => Error e
      | Panic p => Panic p
      | Ok (x, s1) =>
          let* (xs, s2) := decodeSliceElems bound' elemdec s1 in
          Ok (x :: xs, s2)
      end
  end.

Definition decodeListSlice {A} (elemdec : Stream -> outcome (A * Stream)) (s : Stream)
  : outcome (list A * Stream) :=
  let* (sz, s1) := List_ s in
  if sz =? 0 then
    let* s2 := ListEnd s1 in Ok ([], s2)
  else
    let* (xs, s2) := decodeSliceElems (S (length (r s1))) elemdec s1 in
    let* s3 := ListEnd s2 in
    Ok (xs, s3).

(** A struct field: meeting the end of the list where a field is due is the
    error "too few elements". *)
Definition decodeField {A} (dec : Stream -> outcome (A * Stream)) (s : Stream)
  : outcome (A * Stream) :=
  match dec s with
  | Error EOL => Error errTooFewElements
  | o => o
  end.

End rlp.

(** ** Canonical forms and their serialization *)

Definition encode_payloadCanonicalForm (p : payloadCanonicalForm) : list byte :=
  rlp.writeList
    (rlp.writeBytes (pcf_Script p) ++
     rlp.encodeByteSlices (pcf_Arguments p) ++
     rlp.writeBytes (pcf_ReferenceBlockID p) ++
     rlp.writeUint64 (pcf_GasLimit p) ++
     rlp.writeBytes (pcf_ProposalKeyAddress p) ++
     rlp.writeUint64 (pcf_ProposalKeyIndex p) ++
     rlp.writeUint64 (pcf_ProposalKeySequenceNumber p) ++
     rlp.writeBytes (pcf_Payer p) ++
     rlp.encodeByteSlices (pcf_Authorizers p)).

Definition encode_transactionSignatureCanonicalForm
  (v : transactionSignatureCanonicalForm) : list byte :=
  rlp.writeList
    (rlp.writeUint64 (scf_SignerIndex v) ++
     rlp.writeUint64 (scf_KeyIndex v) ++
     rlp.writeBytes (scf_Signature v)).

Definition encode_signatures (l : list transactionSignatureCanonicalForm) : list byte :=
  rlp.writeList (concat (map encode_transactionSignatureCanonicalForm l)).

Definition encode_envelopeCanonicalForm (e : envelopeCanonicalForm) : list byte :=
  rlp.writeList
    (encode_payloadCanonicalForm (ecf_Payload e) ++
     encode_signatures (ecf_PayloadSignatures e)).

Definition encode_transactionCanonicalForm (f : transactionCanonicalForm) : list byte :=
  rlp.writeList
    (encode_payloadCanonicalForm (tcf_Payload f) ++
     encode_signatures (tcf_PayloadSignatures f) ++
     encode_signatures (tcf_EnvelopeSignatures f)).

(** Modelled from the spec: [mustRLPEncode] is declared in [encoding.go],
    which is not among the files at hand; it returns the RLP serialization of
    its argument and panics if the encoder reports an error, which the encoder
    does not do for byte strings, unsigned integers, slices and structs. *)
Definition mustRLPEncode (encoded : list byte) : list byte := encoded.

Definition decode_payloadCanonicalForm (s : rlp.Stream)
  : outcome (payloadCanonicalForm * rlp.Stream) :=
  let* (_, s) := rlp.List_ s in
  let* (script, s) := rlp.decodeField rlp.decodeByteSlice s in
  let* (arguments, s) := rlp.decodeField (rlp.decodeListSlice rlp.decodeByteSlice) s in
  let* (referenceBlockID, s) := rlp.decodeField rlp.decodeByteSlice s in
  let* (gasLimit, s) := rlp.decodeField rlp.decodeUint s in
  let* (proposalKeyAddress, s) := rlp.decodeField rlp.decodeByteSlice s in
  let* (proposalKeyIndex, s) := rlp.decodeField rlp.decodeUint s in
  let* (proposalKeySequenceNumber, s) := rlp.decodeField rlp.decodeUint s in
  let* (payer, s) := rlp.decodeField rlp.decodeByteSlice s in
  let* (authorizers, s) := rlp.decodeField (rlp.decodeListSlice rlp.decodeByteSlice) s in
  let* s := rlp.ListEnd s in
  Ok (mkPayloadCanonicalForm script arguments referenceBlockID gasLimit
        proposalKeyAddress proposalKeyIndex proposalKeySequenceNumber payer authorizers,
      s).

Definition decode_transactionSignatureCanonicalForm (s : rlp.Stream)
  : outcome (transactionSignatureCanonicalForm * rlp.Stream) :=
  let* (_, s) := rlp.List_ s in
  let* (signerIndex, s) := rlp.decodeField rlp.decodeUint s in
  let* (keyIndex, s) := rlp.decodeField rlp.decodeUint s in
  let* (signature, s) := rlp.decodeField rlp.decodeByteSlice s in
  let* s := rlp.ListEnd s in
  Ok (mkSigCanonicalForm signerIndex keyIndex signature, s).

Definition decode_signatures (s : rlp.Stream)
  : outcome (list transactionSignatureCanonicalForm * rlp.Stream) :=
  rlp.decodeListSlice decode_transactionSignatureCanonicalForm s.

(** The loop of [payloadCanonicalForm] over [t.Arguments]: [arg[len(arg)-1]]
    is read for every argument, and an argument ending in byte 10 is replaced
    in [t.Arguments] by the argument without that byte. *)
Fixpoint stripArguments (args : list (list byte)) : outcome (list (list byte)) :=
  match args with
  | [] => Ok []
  | arg :: rest =>
      let* last := index arg (len arg - 1) in
      let arg' := if b2z last =? 10 then take (length arg - 1) arg else arg in
      let* rest' := stripArguments rest in
      Ok (arg' :: rest')
  end.

Definition Transaction_payloadCanonicalForm (t : Transaction)
  : outcome (payloadCanonicalForm * Transaction) :=
  let authorizers := map Address_Bytes (tx_Authorizers t) in
  let* args := stripArguments (tx_Arguments t) in
  let t := set_Arguments t args in
  Ok (mkPayloadCanonicalForm
        (tx_Script t)
        (tx_Arguments t)
        (tx_ReferenceBlockID t)
        (tx_GasLimit t)
        (Address_Bytes (pk_Address (tx_ProposalKey t)))
        (to_uint (pk_KeyIndex (tx_ProposalKey t)))
        (pk_SequenceNumber (tx_ProposalKey t))
        (Address_Bytes (tx_Payer t))
        authorizers,
      t).

Definition PayloadMessage (t : Transaction) : outcome (list byte * Transaction) :=
  let* (temp, t) := Transaction_payloadCanonicalForm t in
  Ok (mustRLPEncode (encode_payloadCanonicalForm temp), t).

Definition TransactionSignature_canonicalForm (s : TransactionSignature)
  : transactionSignatureCanonicalForm :=
  mkSigCanonicalForm (to_uint (sig_SignerIndex s)) (to_uint (sig_KeyIndex s))
    (sig_Signature s).

Definition signaturesList_canonicalForm (s : list TransactionSignature)
  : list transactionSignatureCanonicalForm :=
  map TransactionSignature_canonicalForm s.

Definition transactionSignatureFromCanonicalForm (v : transactionSignatureCanonicalForm)
  : TransactionSignature :=
  mkTransactionSignature EmptyAddress (to_int (scf_SignerIndex v))
    (to_int (scf_KeyIndex v)) (scf_Signature v).

Definition Transaction_envelopeCanonicalForm (t : Transaction)
  : outcome (envelopeCanonicalForm * Transaction) :=
  let* (payload, t) := Transaction_payloadCanonicalForm t in
  Ok (mkEnvelopeCanonicalForm payload
        (signaturesList_canonicalForm (tx_PayloadSignatures t)),
      t).

Definition EnvelopeMessage (t : Transaction) : outcome (list byte * Transaction) :=
  let* (temp, t) := Transaction_envelopeCanonicalForm t in
  Ok (mustRLPEncode (encode_envelopeCanonicalForm temp), t).

Definition Encode (t : Transaction) : outcome (list byte * Transaction) :=
  let* (payload, t) := Transaction_payloadCanonicalForm t in
  let temp :=
    mkTransactionCanonicalForm payload
      (signaturesList_canonicalForm (tx_PayloadSignatures t))
      (signaturesList_canonicalForm (tx_EnvelopeSignatures t)) in
  Ok (mustRLPEncode (encode_transactionCanonicalForm temp), t).

(** ** Decoding *)

Definition emptyPayload : payloadCanonicalForm :=
  mkPayloadCanonicalForm [] [] [] 0 [] 0 0 [] [].

(** The three [return temp, nil] statements of [decodeTransaction]. *)
Inductive decodeBranch : Type :=
  | PayloadOnly        (* first inner element is not a list *)
  | EnvelopeAtEOL      (* end of list behind the payload signatures *)
  | FullForm.          (* envelope signatures decoded *)

(** [decodeTransaction], with the return statement it leaves through. *)
Definition decodeTransaction_traced (transactionMessage : list byte)
  : outcome (transactionCanonicalForm * decodeBranch) :=
  let s := rlp.NewStream transactionMessage in
  let* (t0, _) := rlp.Kind_ s in
  match rlp.kind t0 with
  | rlp.List =>
      let* (_, s) := rlp.List_ s in
      let* (t1, _) := rlp.Kind_ s in
      match rlp.kind t1 with
      | rlp.List =>
          let* (txPayload, s) := decode_payloadCanonicalForm s in
          let* (payloadSigs, s) := decode_signatures s in
          match rlp.Kind_ s with
          | Error EOL =>
              Ok (mkTransactionCanonicalForm txPayload payloadSigs [], EnvelopeAtEOL)
          | Error e => Error e
          | Panic p => Panic p
          | Ok _ =>
              let* (envelopeSigs, s) := decode_signatures s in
              Ok (mkTransactionCanonicalForm txPayload payloadSigs envelopeSigs, FullForm)
          end
      | _ =>
          let s := rlp.NewStream transactionMessage in
          let* (txPayload, _) := decode_payloadCanonicalForm s in
          Ok (mkTransactionCanonicalForm txPayload [] [], PayloadOnly)
      end
  | _ => Error errUnexpectedType
  end.

Definition decodeTransaction (transactionMessage : list byte)
  : outcome transactionCanonicalForm :=
  let* (temp, _) := decodeTransaction_traced transactionMessage in
  Ok temp.

(** The two loops of [DecodeTransaction] over the decoded signatures:
    [signers[SignerIndex]] is read for every signature. *)
Fixpoint resolveSignatures (signers : list Address)
  (sigs : list transactionSignatureCanonicalForm) : outcome (list TransactionSignature) :=
  match sigs with
  | [] => Ok []
  | sig :: rest =>
      let s := transactionSignatureFromCanonicalForm sig in
      let* address := index signers (sig_SignerIndex s) in
      let s := mkTransactionSignature address (sig_SignerIndex s) (sig_KeyIndex s)
                 (sig_Signature s) in
      let* rest' := resolveSignatures signers rest in
      Ok (s :: rest')
  end.

Definition DecodeTransaction (transactionMessage : list byte) : outcome Transaction :=
  let* temp := decodeTransaction transactionMessage in
  let authorizers := map BytesToAddress (pcf_Authorizers (tcf_Payload temp)) in
  let t :=
    {| tx_Script := pcf_Script (tcf_Payload temp);
       tx_Arguments := pcf_Arguments (tcf_Payload temp);
       tx_ReferenceBlockID := BytesToID (pcf_ReferenceBlockID (tcf_Payload temp));
       tx_GasLimit := pcf_GasLimit (tcf_Payload temp);
       tx_ProposalKey :=
         mkProposalKey
           (BytesToAddress (pcf_ProposalKeyAddress (tcf_Payload temp)))
           (to_int (pcf_ProposalKeyIndex (tcf_Payload temp)))
           (pcf_ProposalKeySequenceNumber (tcf_Payload temp));
       tx_Payer := BytesToAddress (pcf_Payer (tcf_Payload temp));
       tx_Authorizers := authorizers;
       tx_PayloadSignatures := [];
       tx_EnvelopeSignatures := [] |} in
  let signers := signerList t in
  let* payloadSignatures := resolveSignatures signers (tcf_PayloadSignatures temp) in
  let t := set_PayloadSignatures t payloadSignatures in
  let* envelopeSignatures := resolveSignatures signers (tcf_EnvelopeSignatures temp) in
  let t := set_EnvelopeSignatures t envelopeSignatures in
  Ok t.

(** ** Notions used in the statements *)

(** Room for [n] more bytes in the innermost enclosing list of a stream. *)
Definition fits (n : Z) (stk : list rlp.listpos) : Prop :=
  match stk with
  | [] => True
  | tos :: _ => rlp.pos tos + n <= rlp.size tos
  end.

(** The stack after [n] bytes of the innermost list have been read. *)
Definition adv (n : Z) (stk : list rlp.listpos) : list rlp.listpos :=
  match stk with
  | [] => []
  | tos :: tl => rlp.mkListpos (rlp.pos tos + n) (rlp.size tos) :: tl
  end.

(** [dec] reads the value [x] off the front of any stream that starts with
    [enc], and leaves the stream right behind [enc]. *)
Definition decodes {A} (dec : rlp.Stream -> outcome (A * rlp.Stream))
  (enc : list byte) (x : A) : Prop :=
  forall rest stk, fits (len enc) stk ->
    dec (rlp.mkStream (enc ++ rest) stk)
    = Ok (x, rlp.mkStream rest (adv (len enc) stk)).

Definition uint64_range (x : Z) : Prop := 0 <= x < two64.
Definition int_range (x : Z) : Prop := - two63 <= x < two63.

(** The values of a canonical form are unsigned 64-bit integers. *)
Definition wf_payloadCanonicalForm (p : payloadCanonicalForm) : Prop :=
  uint64_range (pcf_GasLimit p) /\
  uint64_range (pcf_ProposalKeyIndex p) /\
  uint64_range (pcf_ProposalKeySequenceNumber p).

Definition wf_signatureCanonicalForm (v : transactionSignatureCanonicalForm) : Prop :=
  uint64_range (scf_SignerIndex v) /\ uint64_range (scf_KeyIndex v).

(** *** The signer list as the specification words it

    "Proposer, then payer, then authorizers, each address appearing once,
    first occurrence wins", where an unset (sentinel) proposer or payer is
    left out.  [signerCandidates] lists the roles in that order and
    [firstOccurrences] drops every address that was met before. *)
Definition signerCandidates (t : Transaction) : list Address :=
  (if decide (pk_Address (tx_ProposalKey t) = EmptyAddress) then []
   else [pk_Address (tx_ProposalKey t)]) ++
  (if decide (tx_Payer t = EmptyAddress) then [] else [tx_Payer t]) ++
  tx_Authorizers t.

Fixpoint firstOccurrencesFrom (seen : list Address) (l : list Address) : list Address :=
  match l with
  | [] => []
  | x :: l' =>
      if decide (x ∈ seen) then firstOccurrencesFrom seen l'
      else x :: firstOccurrencesFrom (x :: seen) l'
  end.

Definition firstOccurrences (l : list Address) : list Address :=
  firstOccurrencesFrom [] l.

(** *** The newline workaround as the specification words it

    An argument that ends in byte 10 loses that one byte; any other argument
    is unchanged. *)
Definition stripTrailingNewline (arg : list byte) : list byte :=
  if decide (last arg = Some Byte.x0a) then take (length arg - 1) arg else arg.

(** The transaction as a call that builds the payload form leaves it. *)
Definition strippedTransaction (t : Transaction) : Transaction :=
  set_Arguments t (map stripTrailingNewline (tx_Arguments t)).

(** *** Values of the Go types

    What the Go types of the fields guarantee and the embedding in [Z] and
    [list byte] does not: the range of the integers and the length of the
    byte arrays. *)
Definition WellTypedSignature (s : TransactionSignature) : Prop :=
  length (sig_Address s) = AddressLength /\
  int_range (sig_SignerIndex s) /\
  int_range (sig_KeyIndex s).

Definition WellTyped (t : Transaction) : Prop :=
  length (tx_ReferenceBlockID t) = IdentifierLength /\
  uint64_range (tx_GasLimit t) /\
  length (pk_Address (tx_ProposalKey t)) = AddressLength /\
  int_range (pk_KeyIndex (tx_ProposalKey t)) /\
  uint64_range (pk_SequenceNumber (tx_ProposalKey t)) /\
  length (tx_Payer t) = AddressLength /\
  Forall (fun a => length a = AddressLength) (tx_Authorizers t) /\
  Forall WellTypedSignature (tx_PayloadSignatures t) /\
  Forall WellTypedSignature (tx_EnvelopeSignatures t).

(** A signature whose signer index is the position of its address in the
    signer list. *)
Definition signerResolved (signers : list Address) (s : TransactionSignature) : Prop :=
  0 <= sig_SignerIndex s /\
  signers !! Z.to_nat (sig_SignerIndex s) = Some (sig_Address s).

Definition NonEmptyArguments (t : Transaction) : Prop :=
  Forall (fun arg => arg <> []) (tx_Arguments t).

(** Ascending order by (SignerIndex, KeyIndex): no element is less than the
    one before it. *)
Fixpoint signaturesSorted (l : list TransactionSignature) : bool :=
  match l with
  | a :: ((b :: _) as l') => negb (compareSignatures b a) && signaturesSorted l'
  | _ => true
  end.

Definition SignaturesResolved (t : Transaction) : Prop :=
  Forall (signerResolved (signerList t)) (tx_PayloadSignatures t) /\
  Forall (signerResolved (signerList t)) (tx_EnvelopeSignatures t).

(** The payload form of a transaction, without the pass over the arguments. *)
Definition payloadFormOf (t : Transaction) : payloadCanonicalForm :=
  mkPayloadCanonicalForm
    (tx_Script t)
    (tx_Arguments t)
    (tx_ReferenceBlockID t)
    (tx_GasLimit t)
    (Address_Bytes (pk_Address (tx_ProposalKey t)))
    (to_uint (pk_KeyIndex (tx_ProposalKey t)))
    (pk_SequenceNumber (tx_ProposalKey t))
    (Address_Bytes (tx_Payer t))
    (map Address_Bytes (tx_Authorizers t)).

(** *** Sample transactions and messages *)

Definition addressA : Address :=
  [Byte.x00; Byte.x00; Byte.x00; Byte.x00; Byte.x00; Byte.x00; Byte.x00; Byte.x01].

Definition addressB : Address :=
  [Byte.x00; Byte.x00; Byte.x00; Byte.x00; Byte.x00; Byte.x00; Byte.x00; Byte.x02].

(** The script [transaction{}]. *)
Definition sampleScript : list byte :=
  [Byte.x74; Byte.x72; Byte.x61; Byte.x6e; Byte.x73; Byte.x61; Byte.x63; Byte.x74; Byte.x69; Byte.x6f; Byte.x6e; Byte.x7b; Byte.x7d].

(** The JSON-CDC argument of the integer 1, without and with a trailing
    newline. *)
Definition sampleArgument : list byte :=
  [Byte.x7b; Byte.x22; Byte.x74; Byte.x79; Byte.x70; Byte.x65; Byte.x22; Byte.x3a; Byte.x22; Byte.x49; Byte.x6e; Byte.x74; Byte.x22; Byte.x2c; Byte.x22; Byte.x76; Byte.x61; Byte.x6c; Byte.x75; Byte.x65; Byte.x22; Byte.x3a; Byte.x22; Byte.x31; Byte.x22; Byte.x7d].

Definition sampleArgumentNewline : list byte := sampleArgument ++ [Byte.x0a].

Definition sampleBlockID : Identifier :=
  repeat Byte.x00 31 ++ [Byte.x01].

(** Script, one argument, reference block, gas limit 100, proposal key
    (A, 0, 5), payer A, authorizer A, one payload signature by A. *)
Definition tx_scenario : Transaction :=
  AddPayloadSignature
    (AddAuthorizer
       (SetPayer
          (SetProposalKey
             (SetGasLimit
                (SetReferenceBlockID
                   (AddRawArgument (SetScript NewTransaction sampleScript) sampleArgument)
                   sampleBlockID)
                100)
             addressA 0 5)
          addressA)
       addressA)
    addressA 0 [Byte.x09].

(** The same with an envelope signature by the payer. *)
Definition tx_scenario_signed : Transaction :=
  AddEnvelopeSignature tx_scenario addressA 0 [Byte.x0a; Byte.x0b].

(** A payload without signatures whose argument ends in a newline. *)
Definition tx_newline : Transaction :=
  SetPayer
    (SetProposalKey
       (AddRawArgument (SetScript NewTransaction sampleScript) sampleArgumentNewline)
       addressA 0 5)
    addressA.

(** An empty argument. *)
Definition tx_empty_argument : Transaction :=
  AddRawArgument (SetScript NewTransaction sampleScript) [].

(** A payload signature by B, who has no role in the transaction. *)
Definition tx_unknown_payload_signer : Transaction :=
  AddPayloadSignature
    (SetPayer (SetProposalKey NewTransaction addressA 0 5) addressA)
    addressB 0 [Byte.x09].

(** An envelope signature by B, who has no role in the transaction. *)
Definition tx_unknown_envelope_signer : Transaction :=
  AddEnvelopeSignature
    (SetPayer (SetProposalKey NewTransaction addressA 0 5) addressA)
    addressB 0 [Byte.x09].

(** The sentinel address listed as an authorizer. *)
Definition tx_sentinel_authorizer : Transaction :=
  AddAuthorizer (SetPayer NewTransaction addressA) EmptyAddress.

(** Authorizers A and B sign, then B is made the proposer. *)
Definition tx_signed_by_authorizers : Transaction :=
  AddPayloadSignature
    (AddPayloadSignature
       (AddAuthorizer (AddAuthorizer NewTransaction addressA) addressB)
       addressA 0 [Byte.x01])
    addressB 0 [Byte.x02].

Definition tx_proposer_set_late : Transaction :=
  SetProposalKey tx_signed_by_authorizers addressB 0 0.

(** A full-form message: the payload names A as proposer and payer, so its
    signer list is [[A]], and its one payload signature carries signer
    index 1. *)
Definition msg_signer_index_out_of_range : list byte :=
  [Byte.xf8; Byte.x43; Byte.xf8; Byte.x3b; Byte.x80; Byte.xc0; Byte.xa0;
   Byte.x00; Byte.x00; Byte.x00; Byte.x00; Byte.x00; Byte.x00; Byte.x00;
   Byte.x00; Byte.x00; Byte.x00; Byte.x00; Byte.x00; Byte.x00; Byte.x00;
   Byte.x00; Byte.x00; Byte.x00; Byte.x00; Byte.x00; Byte.x00; Byte.x00;
   Byte.x00; Byte.x00; Byte.x00; Byte.x00; Byte.x00; Byte.x00; Byte.x00;
   Byte.x00; Byte.x00; Byte.x00; Byte.x00; Byte.x82; Byte.x27; Byte.x0f;
   Byte.x88; Byte.x00; Byte.x00; Byte.x00; Byte.x00; Byte.x00; Byte.x00;
   Byte.x00; Byte.x01; Byte.x80; Byte.x05; Byte.x88; Byte.x00; Byte.x00;
   Byte.x00; Byte.x00; Byte.x00; Byte.x00; Byte.x00; Byte.x01; Byte.xc0;
   Byte.xc4; Byte.xc3; Byte.x01; Byte.x80; Byte.x09; Byte.xc0].

(** ** Arguments by index *)

(** What [Transaction.Argument] returns: the decoded value, or one of its
    three errors ("argument index must be positive", "no argument at index
    i", "failed to decode argument at index i" around the decoder's
    error). *)
Inductive argumentResult (V E : Type) : Type :=
  | ArgumentValue (v : V)
  | ArgumentIndexNegative
  | ArgumentMissing (i : Z)
  | ArgumentDecodeFailed (i : Z) (err : E).
Arguments ArgumentValue {V E} v.
Arguments ArgumentIndexNegative {V E}.
Arguments ArgumentMissing {V E} i.
Arguments ArgumentDecodeFailed {V E} i err.

Section Argument.

(** The JSON-CDC decoder of the [cadence] package, an external dependency,
    with the options it is called with: from the encoded bytes to a value
    or an error. *)
Context {V E : Type}.
Variable jsoncdc_Decode : list byte -> V + E.

Definition Argument (t : Transaction) (i : Z) : outcome (argumentResult V E) :=
  if i <? 0 then Ok ArgumentIndexNegative
  else if len (tx_Arguments t) <=? i then Ok (ArgumentMissing i)
  else
    let* encodedArg := index (tx_Arguments t) i in
    match jsoncdc_Decode encodedArg with
    | inl arg => Ok (ArgumentValue arg)
    | inr err => Ok (ArgumentDecodeFailed i err)
    end.

End Argument.

(** ** Transaction status *)

Definition TransactionStatusUnknown : Z := 0.
Definition TransactionStatusPending : Z := 1.
Definition TransactionStatusFinalized : Z := 2.
Definition TransactionStatusExecuted : Z := 3.
Definition TransactionStatusSealed : Z := 4.
Definition TransactionStatusExpired : Z := 5.

(** [TransactionStatus.String]: an array literal indexed by the status. *)
Definition TransactionStatus_String (s : Z) : outcome String.string :=
  index ["UNKNOWN"%string; "PENDING"%string; "FINALIZED"%string;
         "EXECUTED"%string; "SEALED"%string; "EXPIRED"%string] s.

(** ** Events ([event.go]) *)

(** [Type] is a Go string, a sequence of bytes; [Value] is a value of the
    [cadence] package, which the two encodings below do not read. *)
Record Event (cadence_Event : Type) : Type := mkEvent {
  ev_Type : list byte;
  ev_TransactionID : Identifier;
  ev_TransactionIndex : Z;
  ev_EventIndex : Z;
  ev_Value : cadence_Event;
  ev_Payload : list byte
}.
Arguments mkEvent {cadence_Event} _ _ _ _ _ _.
Arguments ev_Type {cadence_Event} e.
Arguments ev_TransactionID {cadence_Event} e.
Arguments ev_TransactionIndex {cadence_Event} e.
Arguments ev_EventIndex {cadence_Event} e.
Arguments ev_Value {cadence_Event} e.
Arguments ev_Payload {cadence_Event} e.

(** [uint32(x)] applied to an [int]. *)
Definition to_uint32 (x : Z) : Z := x mod 2 ^ 32.

(** [Event.Encode]: the struct [{TransactionID []byte; EventIndex uint}]. *)
Definition Event_Encode {C} (e : Event C) : list byte :=
  mustRLPEncode
    (rlp.writeList
       (rlp.writeBytes (ev_TransactionID e) ++
        rlp.writeUint64 (to_uint (ev_EventIndex e)))).

(** [Event.Fingerprint]: the struct [{TxID []byte; Index uint32; Type string;
    TransactionIndex uint32; Payload []byte}]; the encoder writes a string
    as it writes a byte slice and a [uint32] as it writes a [uint64]. *)
Definition Event_Fingerprint {C} (e : Event C) : list byte :=
  mustRLPEncode
    (rlp.writeList
       (rlp.writeBytes (ev_TransactionID e) ++
        rlp.writeUint64 (to_uint32 (ev_EventIndex e)) ++
        rlp.writeBytes (ev_Type e) ++
        rlp.writeUint64 (to_uint32 (ev_TransactionIndex e)) ++
        rlp.writeBytes (ev_Payload e))).

(** ** Test identifiers ([test/entities.go]) *)

(** [uint8(x)] applied to an [int]. *)
Definition to_uint8 (x : Z) : Z := x mod 2 ^ 8.

(** [newIdentifier]: every byte of the identifier is [uint8(count)]. *)
Definition newIdentifier (count : Z) : Identifier :=
  repeat (z2b (to_uint8 count)) IdentifierLength.

(** The generator [Identifiers], a counter that starts at 1. *)
Definition IdentifierGenerator : Z := 1.

(** [Identifiers.New]: the identifier of [count + 1]; the deferred function
    then increments the counter.  Both additions are on [int] and wrap. *)
Definition Identifiers_New (count : Z) : Identifier * Z :=
  (newIdentifier (to_int (to_uint (count + 1))), to_int (to_uint (count + 1))).

(** [n] calls of [New] in a row. *)
Fixpoint Identifiers_New_n (n : nat) (count : Z) : list Identifier :=
  match n with
  | O => []
  | S n' =>
      let (id, count') := Identifiers_New count in
      id :: Identifiers_New_n n' count'
  end.

(** ** Further notions used in the statements *)

(** What a signature is apart from its signer index. *)
Definition signatureContent (s : TransactionSignature) : Address * Z * list byte :=
  (sig_Address s, sig_KeyIndex s, sig_Signature s).

(** The signer index a signature should carry for a signer list: the
    position of its address, and -1 when the address is not in the list. *)
Definition indexCurrent (signers : list Address) (s : TransactionSignature) : Prop :=
  (forall k, signers !! k = Some (sig_Address s) -> sig_SignerIndex s = Z.of_nat k) /\
  ((sig_Address s ∉ signers) -> sig_SignerIndex s = -1).

Definition IndicesCurrent (t : Transaction) : Prop :=
  Forall (indexCurrent (signerList t)) (tx_PayloadSignatures t) /\
  Forall (indexCurrent (signerList t)) (tx_EnvelopeSignatures t).

(** The transaction without its signatures. *)
Definition withoutSignatures (t : Transaction) : Transaction :=
  set_EnvelopeSignatures (set_PayloadSignatures t []) [].

(** An outcome that is not a panic. *)
Definition noPanic {A} (o : outcome A) : Prop :=
  match o with
  | Panic _ => False
  | _ => True
  end.

(** The signer list that [DecodeTransaction] computes for a decoded form:
    the signer list of the proposer, payer and authorizers of its payload. *)
Definition decodedSigners (temp : transactionCanonicalForm) : list Address :=
  signerList
    (mkTransaction [] [] [] 0
       (mkProposalKey (BytesToAddress (pcf_ProposalKeyAddress (tcf_Payload temp))) 0 0)
       (BytesToAddress (pcf_Payer (tcf_Payload temp)))
       (map BytesToAddress (pcf_Authorizers (tcf_Payload temp)))
       [] []).

(** A decoded signer index, read as an [int], that is a position of the
    signer list. *)
Definition signerIndexInRange (signers : list Address)
  (v : transactionSignatureCanonicalForm) : Prop :=
  0 <= to_int (scf_SignerIndex v) < len signers.

(** The bytes of [Encode] for the transaction [tx_scenario_signed]. *)
Definition msg_scenario_signed : list byte :=
  Eval vm_compute in
    match Encode tx_scenario_signed with
    | Ok (b, _) => b
    | _ => []
    end.


(** No argument is empty and none ends in a newline. *)
Definition StableArguments (t : Transaction) : Prop :=
  Forall (fun arg => arg <> [] /\ last arg <> Some Byte.x0a) (tx_Arguments t).

(** Two events of one transaction, with event indices 2 and 2 + 2^32, and an
    event that differs from the first in type, transaction index and
    payload. *)
Definition event_sample : Event unit :=
  mkEvent [Byte.x41; Byte.x2e; Byte.x42] sampleBlockID 1 2 tt [Byte.x01].

Definition event_sample_far : Event unit :=
  mkEvent [Byte.x41; Byte.x2e; Byte.x42] sampleBlockID 1 4294967298 tt [Byte.x01].

Definition event_sample_other : Event unit :=
  mkEvent [Byte.x43] sampleBlockID 7 2 tt [].

(** * Properties *)

(** ** Bytes and lengths *)

Lemma b2z_range (b : byte) : 0 <= b2z b < 256.
Proof.
  unfold b2z. pose proof (Byte.to_N_bounded b). lia.
Qed.

Lemma z2b_b2z (b : byte) : z2b (b2z b) = b.
Proof.
  unfold z2b. pose proof (b2z_range b) as Hr.
  rewrite Z.mod_small by lia. unfold b2z.
  rewrite N2Z.id, Byte.of_to_N. reflexivity.
Qed.

Lemma b2z_z2b_mod (z : Z) : b2z (z2b z) = z mod 256.
Proof.
  unfold z2b, b2z.
  pose proof (Z.mod_pos_bound z 256 ltac:(lia)) as Hr.
  destruct (Byte.of_N (Z.to_N (z mod 256))) as [b|] eqn:E.
  - apply Byte.to_of_N in E. rewrite E. lia.
  - apply Byte.of_N_None_iff in E. lia.
Qed.

Lemma b2z_z2b (z : Z) : 0 <= z < 256 -> b2z (z2b z) = z.
Proof.
  intros H. rewrite b2z_z2b_mod. apply Z.mod_small. lia.
Qed.

Lemma len_nil (A : Type) : len (@nil A) = 0.
Proof. reflexivity. Qed.

Lemma len_cons {A} (x : A) l : len (x :: l) = 1 + len l.
Proof. unfold len. cbn [length]. lia. Qed.

Lemma len_app {A} (l1 l2 : list A) : len (l1 ++ l2) = len l1 + len l2.
Proof. unfold len. rewrite length_app. lia. Qed.

Lemma len_nonneg {A} (l : list A) : 0 <= len l.
Proof. unfold len. lia. Qed.

(** ** Big-endian integers *)

Ltac pow_literals :=
  change (2 ^ 8) with 256 in *;
  change (2 ^ 16) with 65536 in *;
  change (2 ^ 24) with 16777216 in *;
  change (2 ^ 32) with 4294967296 in *;
  change (2 ^ 40) with 1099511627776 in *;
  change (2 ^ 48) with 281474976710656 in *;
  change (2 ^ 56) with 72057594037927936 in *;
  change (2 ^ 63) with 9223372036854775808 in *;
  change (2 ^ 64) with 18446744073709551616 in *.

Lemma putint_spec (i : Z) :
  0 < i < two64 ->
  1 <= len (rlp.putint i) <= 8 /\
  rlp.BigEndian_Uint64 (rlp.putint i) = i /\
  b2z (hd Byte.x00 (rlp.putint i)) <> 0 /\
  (len (rlp.putint i) = 1 -> i < 256).
Proof.
  intros Hi. unfold two64 in Hi. unfold rlp.putint.
  repeat (case_match; [rewrite Z.ltb_lt in * | rewrite Z.ltb_ge in * ]).
  all: unfold rlp.BigEndian_Uint64; cbn [fold_left hd].
  all: unfold len; cbn [length].
  all: rewrite ?b2z_z2b_mod, ?Z.shiftr_div_pow2 by lia.
  all: pow_literals.
  all: repeat split; try lia.
  all: Z.div_mod_to_equations; lia.
Qed.

(** ** The stream primitives on encoder output *)

Ltac ifz :=
  repeat match goal with
  | |- context [?a <? ?b] =>
      first [ rewrite (proj2 (Z.ltb_lt a b)) by lia
            | rewrite (proj2 (Z.ltb_ge a b)) by lia ]
  | |- context [?a =? ?b] =>
      first [ rewrite (proj2 (Z.eqb_eq a b)) by lia
            | rewrite (proj2 (Z.eqb_neq a b)) by lia ]
  | |- context [?a <=? ?b] =>
      first [ rewrite (proj2 (Z.leb_le a b)) by lia
            | rewrite (proj2 (Z.leb_gt a b)) by lia ]
  end.

Lemma adv_adv (a b : Z) stk : adv a (adv b stk) = adv (b + a) stk.
Proof.
  destruct stk as [|[p sz] tl]; cbn; [reflexivity|]. f_equal. f_equal. lia.
Qed.

Lemma adv_0 stk : adv 0 stk = stk.
Proof.
  destruct stk as [|[p sz] tl]; cbn; [reflexivity|]. f_equal. f_equal. lia.
Qed.

Lemma fits_adv (a b : Z) stk : fits (a + b) stk -> fits b (adv a stk).
Proof.
  destruct stk as [|[p sz] tl]; cbn; [tauto|]. lia.
Qed.

Lemma fits_le (a b : Z) stk : a <= b -> fits b stk -> fits a stk.
Proof.
  destruct stk as [|[p sz] tl]; cbn; [tauto|]. lia.
Qed.

Lemma willRead_ok (n : Z) r stk :
  fits n stk ->
  rlp.willRead n (rlp.mkStream r stk) = Ok (rlp.mkStream r (adv n stk)).
Proof.
  unfold rlp.willRead. destruct stk as [|[p sz] tl]; cbn; intros H; [reflexivity|].
  ifz. reflexivity.
Qed.

Lemma readByte_ok (b : byte) rest stk :
  fits 1 stk ->
  rlp.readByte (rlp.mkStream (b :: rest) stk) = Ok (b, rlp.mkStream rest (adv 1 stk)).
Proof.
  intros H. unfold rlp.readByte. rewrite willRead_ok by exact H. reflexivity.
Qed.

Lemma readFull_ok (bs rest : list byte) stk :
  fits (len bs) stk ->
  rlp.readFull (len bs) (rlp.mkStream (bs ++ rest) stk)
  = Ok (bs, rlp.mkStream rest (adv (len bs) stk)).
Proof.
  intros H. unfold rlp.readFull. rewrite willRead_ok by exact H.
  cbn [bind rlp.r rlp.stack]. rewrite len_app.
  pose proof (len_nonneg rest). ifz.
  unfold len. rewrite Nat2Z.id, take_app_length, drop_app_length. reflexivity.
Qed.

Lemma readUint_ok (bs rest : list byte) stk :
  1 <= len bs ->
  b2z (hd Byte.x00 bs) <> 0 ->
  fits (len bs) stk ->
  rlp.readUint (len bs) (rlp.mkStream (bs ++ rest) stk)
  = Ok (rlp.BigEndian_Uint64 bs, rlp.mkStream rest (adv (len bs) stk)).
Proof.
  intros Hlen Hhd Hfits. unfold rlp.readUint. ifz.
  destruct (Z.eqb_spec (len bs) 1) as [E|E].
  - destruct bs as [|b [|b' bs]]; try (unfold len in E; cbn in E; lia).
    cbn [app]. rewrite readByte_ok by exact Hfits. cbn [bind].
    unfold rlp.BigEndian_Uint64. cbn [fold_left]. do 3 f_equal.
  - rewrite readFull_ok by exact Hfits. cbn [bind]. ifz. reflexivity.
Qed.

Lemma len_puthead (small large sz : Z) :
  0 <= sz < two64 -> 1 <= len (rlp.puthead small large sz) <= 9.
Proof.
  intros H. unfold rlp.puthead. case_match.
  - rewrite len_cons, len_nil. lia.
  - rewrite Z.ltb_ge in *. rewrite len_cons.
    pose proof (putint_spec sz ltac:(lia)). lia.
Qed.

(** The type tag written by [puthead] is read back by [readKind].  The two
    pairs of tags used by the encoder are those of strings (128, 183) and of
    lists (192, 247). *)
Lemma readKind_puthead (small large : Z) (k : rlp.Kind) (sz : Z) rest stk :
  (small = 128 /\ large = 183 /\ k = rlp.String) \/
  (small = 192 /\ large = 247 /\ k = rlp.List) ->
  0 <= sz < two64 ->
  fits (len (rlp.puthead small large sz)) stk ->
  rlp.readKind (rlp.mkStream (rlp.puthead small large sz ++ rest) stk)
  = Ok (rlp.mkTag k sz 0,
        rlp.mkStream rest (adv (len (rlp.puthead small large sz)) stk)).
Proof.
  intros Htags Hsz. unfold rlp.puthead. case_match; rewrite ?Z.ltb_lt, ?Z.ltb_ge in *.
  - rewrite len_cons, len_nil. intros Hfits. unfold rlp.readKind.
    cbn [app]. rewrite readByte_ok by exact Hfits.
    rewrite b2z_z2b by lia.
    destruct Htags as [(-> & -> & ->)|(-> & -> & ->)]; ifz;
      do 3 f_equal; lia.
  - pose proof (putint_spec sz ltac:(lia)) as (Hl & Hbe & Hhd & _).
    rewrite len_cons. intros Hfits. unfold rlp.readKind.
    cbn [app]. rewrite readByte_ok by (eapply fits_le; [|exact Hfits]; lia).
    rewrite b2z_z2b by lia.
    destruct Htags as [(-> & -> & ->)|(-> & -> & ->)]; ifz.
    + replace (183 + len (rlp.putint sz) - 183) with (len (rlp.putint sz)) by lia.
      rewrite readUint_ok by (try apply fits_adv; auto; lia).
      cbn [bind]. rewrite Hbe. ifz. rewrite adv_adv. reflexivity.
    + replace (247 + len (rlp.putint sz) - 247) with (len (rlp.putint sz)) by lia.
      rewrite readUint_ok by (try apply fits_adv; auto; lia).
      cbn [bind]. rewrite Hbe. ifz. rewrite adv_adv. reflexivity.
Qed.

Lemma Kind_puthead (small large : Z) (k : rlp.Kind) (sz : Z) rest stk :
  (small = 128 /\ large = 183 /\ k = rlp.String) \/
  (small = 192 /\ large = 247 /\ k = rlp.List) ->
  0 <= sz < two64 ->
  fits (len (rlp.puthead small large sz) + sz) stk ->
  rlp.Kind_ (rlp.mkStream (rlp.puthead small large sz ++ rest) stk)
  = Ok (rlp.mkTag k sz 0,
        rlp.mkStream rest (adv (len (rlp.puthead small large sz)) stk)).
Proof.
  intros Htags Hsz Hfits.
  pose proof (len_puthead small large sz Hsz) as Hl.
  assert (fits (len (rlp.puthead small large sz)) stk) as Hf1
    by (eapply fits_le; [|exact Hfits]; lia).
  unfold rlp.Kind_. cbn [rlp.stack].
  destruct stk as [|[p n] tl].
  - apply readKind_puthead; auto.
  - cbn in Hfits. cbn [rlp.pos rlp.size]. ifz.
    rewrite (readKind_puthead small large k) by auto.
    cbn [bind adv rlp.stack rlp.pos rlp.size rlp.tsize]. ifz. reflexivity.
Qed.

Lemma Kind_single_byte (x : byte) rest stk :
  b2z x < 128 ->
  fits 1 stk ->
  rlp.Kind_ (rlp.mkStream (x :: rest) stk)
  = Ok (rlp.mkTag rlp.Byte 0 (b2z x), rlp.mkStream rest (adv 1 stk)).
Proof.
  intros Hx Hfits. pose proof (b2z_range x).
  assert (rlp.readKind (rlp.mkStream (x :: rest) stk)
          = Ok (rlp.mkTag rlp.Byte 0 (b2z x), rlp.mkStream rest (adv 1 stk))) as Hrk.
  { unfold rlp.readKind. rewrite readByte_ok by exact Hfits. ifz. reflexivity. }
  unfold rlp.Kind_. cbn [rlp.stack]. destruct stk as [|[p n] tl]; [exact Hrk|].
  cbn in Hfits. cbn [rlp.pos rlp.size]. ifz. rewrite Hrk.
  cbn [bind adv rlp.stack rlp.pos rlp.size rlp.tsize]. ifz. reflexivity.
Qed.

Lemma Kind_EOL r (n : Z) stk :
  rlp.Kind_ (rlp.mkStream r (rlp.mkListpos n n :: stk)) = Error EOL.
Proof.
  unfold rlp.Kind_. cbn. rewrite Z.eqb_refl. reflexivity.
Qed.

Lemma Kind_EOL_eq r (p n : Z) stk :
  p = n -> rlp.Kind_ (rlp.mkStream r (rlp.mkListpos p n :: stk)) = Error EOL.
Proof. intros ->. apply Kind_EOL. Qed.

Lemma len_le_writeBytes (b : list byte) : len b <= len (rlp.writeBytes b).
Proof.
  unfold rlp.writeBytes. destruct b as [|x [|y b]]; try case_match;
    unfold len; rewrite ?length_app; lia.
Qed.

Lemma len_writeBytes (b : list byte) :
  len b < two64 -> 1 <= len (rlp.writeBytes b) /\ len b <= len (rlp.writeBytes b).
Proof.
  intros H. pose proof (len_nonneg b).
  pose proof (len_puthead 128 183 (len b) ltac:(lia)).
  unfold rlp.writeBytes, rlp.encodeStringHeader.
  destruct b as [|x [|y b]]; try case_match; rewrite ?len_app; try lia.
  rewrite len_cons, len_nil. lia.
Qed.

Lemma Bytes_ok (b : list byte) :
  len b < two64 -> decodes rlp.Bytes (rlp.writeBytes b) b.
Proof.
  intros Hb rest stk Hfits. pose proof (len_nonneg b) as Hnn.
  assert (forall (Hcanon : forall x, b = [x] -> 128 <= b2z x),
    fits (len (rlp.encodeStringHeader (len b) ++ b)) stk ->
    rlp.Bytes (rlp.mkStream ((rlp.encodeStringHeader (len b) ++ b) ++ rest) stk)
    = Ok (b, rlp.mkStream rest (adv (len (rlp.encodeStringHeader (len b) ++ b)) stk)))
    as Hlong.
  { intros Hcanon Hf. unfold rlp.Bytes, rlp.encodeStringHeader in *.
    rewrite len_app in Hf. rewrite <- app_assoc.
    rewrite (Kind_puthead 128 183 rlp.String) by (auto; lia).
    cbn [bind rlp.kind rlp.tsize].
    rewrite readFull_ok by (apply fits_adv; exact Hf).
    cbn [bind]. rewrite adv_adv, len_app.
    destruct b as [|x [|y b']]; try reflexivity.
    specialize (Hcanon x eq_refl). ifz. reflexivity. }
  unfold rlp.writeBytes in *.
  destruct b as [|x [|y b']].
  - apply Hlong; [discriminate | exact Hfits].
  - destruct (Z.leb_spec (b2z x) 127) as [Hx|Hx].
    + cbn [app]. unfold rlp.Bytes.
      rewrite len_cons, len_nil in Hfits.
      rewrite Kind_single_byte by (auto; lia).
      cbn [bind rlp.kind rlp.byteval]. rewrite z2b_b2z.
      rewrite len_cons, len_nil. reflexivity.
    + apply Hlong; [|exact Hfits]. intros x' [= ->]. lia.
  - apply Hlong; [discriminate | exact Hfits].
Qed.

Lemma len_writeUint64 (n : Z) :
  0 <= n < two64 -> 1 <= len (rlp.writeUint64 n) <= 9.
Proof.
  intros H. unfold rlp.writeUint64.
  repeat case_match; rewrite ?len_cons, ?len_nil; try lia.
  rewrite Z.ltb_ge in *. pose proof (putint_spec n ltac:(lia)). lia.
Qed.

Lemma uint_ok (n : Z) :
  0 <= n < two64 -> decodes (rlp.uint 64) (rlp.writeUint64 n) n.
Proof.
  intros Hn rest stk Hfits. unfold rlp.writeUint64 in *.
  destruct (Z.eqb_spec n 0) as [E0|E0]; [|destruct (Z.ltb_spec n 128) as [E1|E1]].
  - subst n. rewrite ?len_cons, ?len_nil in *.
    pose proof (Kind_puthead 128 183 rlp.String 0 rest stk) as HK.
    change (rlp.puthead 128 183 0) with [z2b 128] in HK.
    rewrite ?len_cons, ?len_nil in HK.
    unfold rlp.uint. cbn [app] in *. rewrite HK by (auto; unfold two64; lia).
    cbn [bind rlp.kind rlp.tsize]. unfold rlp.readUint. cbn. reflexivity.
  - rewrite ?len_cons, ?len_nil in *. cbn [app]. unfold rlp.uint.
    rewrite Kind_single_byte by (rewrite ?b2z_z2b; auto; lia).
    cbn [bind rlp.kind rlp.byteval]. rewrite b2z_z2b by lia. ifz. reflexivity.
  - pose proof (putint_spec n ltac:(lia)) as (Hl & Hbe & Hhd & _).
    rewrite ?len_cons in *.
    pose proof (Kind_puthead 128 183 rlp.String (len (rlp.putint n))
                  (rlp.putint n ++ rest) stk) as HK.
    unfold rlp.puthead in HK. rewrite (proj2 (Z.ltb_lt _ 56)) in HK by lia.
    rewrite ?len_cons, ?len_nil in HK. cbn [app] in *.
    unfold rlp.uint. rewrite HK by (auto; unfold two64; lia).
    cbn [bind rlp.kind rlp.tsize]. change (64 / 8) with 8. ifz.
    rewrite ?Z.add_0_r in *.
    rewrite readUint_ok; [| lia | exact Hhd | apply fits_adv; exact Hfits].
    rewrite Hbe. ifz. rewrite andb_false_r. rewrite adv_adv. reflexivity.
Qed.

Lemma List_ok (content rest : list byte) stk :
  len content < two64 ->
  fits (len (rlp.writeList content)) stk ->
  rlp.List_ (rlp.mkStream (rlp.writeList content ++ rest) stk)
  = Ok (len content,
        rlp.mkStream (content ++ rest)
          (rlp.mkListpos 0 (len content)
             :: adv (len (rlp.puthead 192 247 (len content))) stk)).
Proof.
  intros Hc Hfits. pose proof (len_nonneg content).
  unfold rlp.List_, rlp.writeList in *. rewrite len_app in Hfits.
  rewrite <- app_assoc.
  rewrite (Kind_puthead 192 247 rlp.List) by (auto; lia).
  reflexivity.
Qed.

Lemma ListEnd_ok r (p n : Z) stk :
  p = n ->
  rlp.ListEnd (rlp.mkStream r (rlp.mkListpos p n :: stk))
  = Ok (rlp.mkStream r (adv n stk)).
Proof.
  intros ->. unfold rlp.ListEnd. cbn [rlp.stack rlp.pos rlp.size].
  rewrite Z.eqb_refl. cbn [negb]. destruct stk as [|[p sz] tl]; reflexivity.
Qed.

(** ** Slices and struct fields *)

Lemma len_writeList (content : list byte) :
  len content < two64 ->
  len (rlp.writeList content)
  = len (rlp.puthead 192 247 (len content)) + len content
  /\ 1 + len content <= len (rlp.writeList content).
Proof.
  intros H. pose proof (len_nonneg content).
  pose proof (len_puthead 192 247 (len content) ltac:(lia)).
  unfold rlp.writeList. rewrite len_app. lia.
Qed.

Lemma len_concat_elem {A} (enc : A -> list byte) (xs : list A) (x : A) :
  x ∈ xs -> len (enc x) <= len (concat (map enc xs)).
Proof.
  induction xs as [|y xs IH]; intros Hin.
  - inversion Hin.
  - cbn [map concat]. rewrite len_app.
    pose proof (len_nonneg (enc y)). pose proof (len_nonneg (concat (map enc xs))).
    apply elem_of_cons in Hin as [->|Hin]; [lia|]. specialize (IH Hin). lia.
Qed.

Lemma len_concat_count {A} (enc : A -> list byte) (xs : list A) :
  (forall x, x ∈ xs -> 1 <= len (enc x)) ->
  len xs <= len (concat (map enc xs)).
Proof.
  induction xs as [|y xs IH]; intros H.
  - cbn. unfold len. cbn. lia.
  - cbn [map concat]. rewrite len_app, len_cons.
    pose proof (H y ltac:(left)).
    assert (len xs <= len (concat (map enc xs))).
    { apply IH. intros x Hx. apply H. right. exact Hx. }
    lia.
Qed.

Lemma field_step {A} (dec : rlp.Stream -> outcome (A * rlp.Stream))
  (enc : list byte) (x : A) rest stk :
  decodes dec enc x ->
  fits (len enc) stk ->
  rlp.decodeField dec (rlp.mkStream (enc ++ rest) stk)
  = Ok (x, rlp.mkStream rest (adv (len enc) stk)).
Proof.
  intros Hdec Hfits. unfold rlp.decodeField. rewrite Hdec by exact Hfits. reflexivity.
Qed.

Lemma decodeSliceElems_ok {A} (elemdec : rlp.Stream -> outcome (A * rlp.Stream))
  (enc : A -> list byte) (xs : list A) :
  (forall x, x ∈ xs -> decodes elemdec (enc x) x) ->
  (forall r n stk, elemdec (rlp.mkStream r (rlp.mkListpos n n :: stk)) = Error EOL) ->
  forall (bound : nat) rest (p n : Z) stk,
    p + len (concat (map enc xs)) = n ->
    (length xs < bound)%nat ->
    rlp.decodeSliceElems bound elemdec
      (rlp.mkStream (concat (map enc xs) ++ rest) (rlp.mkListpos p n :: stk))
    = Ok (xs, rlp.mkStream rest (rlp.mkListpos n n :: stk)).
Proof.
  intros Hdec Heol. induction xs as [|x xs IH]; intros bound rest p n stk Hp Hb.
  - destruct bound as [|bound]; [cbn in Hb; lia|].
    cbn in Hp. rewrite len_nil in Hp. assert (p = n) as -> by lia.
    cbn [map concat app rlp.decodeSliceElems]. rewrite Heol. reflexivity.
  - destruct bound as [|bound]; [cbn in Hb; lia|].
    cbn [map concat] in *. rewrite len_app in Hp.
    pose proof (len_nonneg (concat (map enc xs))).
    cbn [rlp.decodeSliceElems]. rewrite <- app_assoc.
    rewrite (Hdec x ltac:(left)) by (cbn [fits rlp.pos rlp.size]; lia).
    cbn [adv rlp.pos rlp.size].
    rewrite IH; [reflexivity | | lia | cbn [length] in Hb; lia].
    intros y Hy. apply Hdec. right. exact Hy.
Qed.

Lemma decodeListSlice_ok {A} (elemdec : rlp.Stream -> outcome (A * rlp.Stream))
  (enc : A -> list byte) (xs : list A) :
  (forall x, x ∈ xs -> decodes elemdec (enc x) x) ->
  (forall x, x ∈ xs -> 1 <= len (enc x)) ->
  (forall r n stk, elemdec (rlp.mkStream r (rlp.mkListpos n n :: stk)) = Error EOL) ->
  len (concat (map enc xs)) < two64 ->
  decodes (rlp.decodeListSlice elemdec) (rlp.writeList (concat (map enc xs))) xs.
Proof.
  intros Hdec Hne Heol Hlen rest stk Hfits.
  pose proof (len_writeList _ Hlen) as [Hwl _].
  pose proof (len_concat_count enc xs Hne) as Hcount.
  unfold rlp.decodeListSlice. rewrite List_ok by auto. cbn [bind].
  destruct (Z.eqb_spec (len (concat (map enc xs))) 0) as [E|E].
  - assert (xs = []) as ->.
    { destruct xs; [reflexivity|]. rewrite len_cons in Hcount.
      pose proof (len_nonneg xs). lia. }
    cbn [map concat app] in *. rewrite ListEnd_ok by (rewrite len_nil; reflexivity).
    cbn [bind]. rewrite adv_adv, Hwl. reflexivity.
  - cbn [rlp.r].
    rewrite (decodeSliceElems_ok elemdec enc xs Hdec Heol); [| lia |].
    + cbn [bind]. rewrite ListEnd_ok by reflexivity. cbn [bind].
      rewrite adv_adv, Hwl. reflexivity.
    + rewrite length_app. unfold len in Hcount. lia.
Qed.

Lemma Bytes_EOL r (n : Z) stk :
  rlp.Bytes (rlp.mkStream r (rlp.mkListpos n n :: stk)) = Error EOL.
Proof. unfold rlp.Bytes. rewrite Kind_EOL. reflexivity. Qed.

Lemma List_EOL r (n : Z) stk :
  rlp.List_ (rlp.mkStream r (rlp.mkListpos n n :: stk)) = Error EOL.
Proof. unfold rlp.List_. rewrite Kind_EOL. reflexivity. Qed.

Lemma byteSlices_ok (l : list (list byte)) :
  len (rlp.encodeByteSlices l) < two64 ->
  decodes (rlp.decodeListSlice rlp.decodeByteSlice) (rlp.encodeByteSlices l) l.
Proof.
  intros Hlen. unfold rlp.encodeByteSlices in *.
  assert (len (concat (map rlp.writeBytes l)) < two64) as Hc.
  { unfold rlp.writeList in Hlen. rewrite len_app in Hlen.
    pose proof (len_nonneg (rlp.puthead 192 247 (len (concat (map rlp.writeBytes l))))).
    lia. }
  assert (forall x, x ∈ l -> len x < two64) as Hx.
  { intros x Hin. pose proof (len_concat_elem rlp.writeBytes l x Hin) as H1.
    pose proof (len_le_writeBytes x). lia. }
  apply decodeListSlice_ok; auto.
  - intros x Hin. apply Bytes_ok. apply Hx, Hin.
  - intros x Hin. apply len_writeBytes. apply Hx, Hin.
  - intros. apply Bytes_EOL.
Qed.

(** ** The canonical forms *)

Ltac side :=
  cbn [fits rlp.pos rlp.size];
  repeat match goal with x := _ |- _ => subst x end;
  unfold len in *; lia.

Ltac field lem :=
  rewrite (field_step _ _ _ _ _ lem) by side;
  cbn [bind adv rlp.pos rlp.size].

Lemma len_le_writeList (content : list byte) :
  len content <= len (rlp.writeList content).
Proof. unfold rlp.writeList, len. rewrite length_app. lia. Qed.

Lemma decode_signature_ok (v : transactionSignatureCanonicalForm) :
  wf_signatureCanonicalForm v ->
  len (encode_transactionSignatureCanonicalForm v) < two64 ->
  decodes decode_transactionSignatureCanonicalForm
    (encode_transactionSignatureCanonicalForm v) v.
Proof.
  intros (Hsi & Hki) Hlen rest stk Hfits. destruct v as [si ki sg].
  unfold encode_transactionSignatureCanonicalForm, decode_transactionSignatureCanonicalForm in *.
  cbn [scf_SignerIndex scf_KeyIndex scf_Signature] in *.
  set (e1 := rlp.writeUint64 si) in *.
  set (e2 := rlp.writeUint64 ki) in *.
  set (e3 := rlp.writeBytes sg) in *.
  pose proof (len_le_writeList (e1 ++ e2 ++ e3)) as Hle.
  assert (len (e1 ++ e2 ++ e3) = len e1 + len e2 + len e3) as HL
    by (rewrite !len_app; lia).
  pose proof (len_le_writeBytes sg) as Hsg. fold e3 in Hsg.
  pose proof (len_writeList (e1 ++ e2 ++ e3) ltac:(lia)) as [Hwl _].
  rewrite List_ok by (auto; lia). cbn [bind]. rewrite <- !app_assoc.
  field (uint_ok si Hsi).
  field (uint_ok ki Hki).
  field (Bytes_ok sg ltac:(side)).
  rewrite ListEnd_ok by side. cbn [bind].
  rewrite adv_adv, Hwl. reflexivity.
Qed.

Lemma len_encode_signature (v : transactionSignatureCanonicalForm) :
  1 <= len (encode_transactionSignatureCanonicalForm v).
Proof.
  unfold encode_transactionSignatureCanonicalForm, rlp.writeList, rlp.puthead.
  case_match; rewrite len_app, len_cons;
    unfold len; lia.
Qed.

Lemma decode_signature_EOL r (n : Z) stk :
  decode_transactionSignatureCanonicalForm (rlp.mkStream r (rlp.mkListpos n n :: stk))
  = Error EOL.
Proof.
  unfold decode_transactionSignatureCanonicalForm. rewrite List_EOL. reflexivity.
Qed.

Lemma decode_signatures_ok (l : list transactionSignatureCanonicalForm) :
  Forall wf_signatureCanonicalForm l ->
  len (encode_signatures l) < two64 ->
  decodes decode_signatures (encode_signatures l) l.
Proof.
  intros Hwf Hlen. unfold encode_signatures, decode_signatures in *.
  pose proof (len_le_writeList
                (concat (map encode_transactionSignatureCanonicalForm l))) as Hc.
  apply decodeListSlice_ok; [| | | lia].
  - intros v Hin. apply decode_signature_ok.
    + rewrite Forall_forall in Hwf. apply Hwf, Hin.
    + pose proof (len_concat_elem encode_transactionSignatureCanonicalForm l v Hin). lia.
  - intros v _. apply len_encode_signature.
  - intros. apply decode_signature_EOL.
Qed.

Lemma decode_payload_ok (p : payloadCanonicalForm) :
  wf_payloadCanonicalForm p ->
  len (encode_payloadCanonicalForm p) < two64 ->
  decodes decode_payloadCanonicalForm (encode_payloadCanonicalForm p) p.
Proof.
  intros (Hgas & Hki & Hseq) Hlen rest stk Hfits.
  destruct p as [script args ref gas addr ki seq payer auths].
  unfold encode_payloadCanonicalForm, decode_payloadCanonicalForm in *.
  cbn [pcf_Script pcf_Arguments pcf_ReferenceBlockID pcf_GasLimit
       pcf_ProposalKeyAddress pcf_ProposalKeyIndex pcf_ProposalKeySequenceNumber
       pcf_Payer pcf_Authorizers] in *.
  set (e1 := rlp.writeBytes script) in *.
  set (e2 := rlp.encodeByteSlices args) in *.
  set (e3 := rlp.writeBytes ref) in *.
  set (e4 := rlp.writeUint64 gas) in *.
  set (e5 := rlp.writeBytes addr) in *.
  set (e6 := rlp.writeUint64 ki) in *.
  set (e7 := rlp.writeUint64 seq) in *.
  set (e8 := rlp.writeBytes payer) in *.
  set (e9 := rlp.encodeByteSlices auths) in *.
  set (content := e1 ++ e2 ++ e3 ++ e4 ++ e5 ++ e6 ++ e7 ++ e8 ++ e9) in *.
  pose proof (len_le_writeList content) as Hle.
  assert (len content
          = len e1 + len e2 + len e3 + len e4 + len e5 + len e6 + len e7
            + len e8 + len e9) as HL
    by (unfold content; rewrite !len_app; lia).
  pose proof (len_le_writeBytes script) as H1. fold e1 in H1.
  pose proof (len_le_writeBytes ref) as H3. fold e3 in H3.
  pose proof (len_le_writeBytes addr) as H5. fold e5 in H5.
  pose proof (len_le_writeBytes payer) as H8. fold e8 in H8.
  pose proof (len_writeList content ltac:(lia)) as [Hwl _].
  rewrite List_ok by (auto; lia). cbn [bind].
  unfold content at 1. rewrite <- !app_assoc.
  field (Bytes_ok script ltac:(side)).
  field (byteSlices_ok args ltac:(fold e2; side)).
  field (Bytes_ok ref ltac:(side)).
  field (uint_ok gas Hgas).
  field (Bytes_ok addr ltac:(side)).
  field (uint_ok ki Hki).
  field (uint_ok seq Hseq).
  field (Bytes_ok payer ltac:(side)).
  field (byteSlices_ok auths ltac:(fold e9; side)).
  rewrite ListEnd_ok by side. cbn [bind].
  rewrite adv_adv, Hwl. reflexivity.
Qed.

(** ** [decodeTransaction] on the three serializations *)

Lemma Kind_writeList (content rest : list byte) stk :
  len content < two64 ->
  fits (len (rlp.writeList content)) stk ->
  rlp.Kind_ (rlp.mkStream (rlp.writeList content ++ rest) stk)
  = Ok (rlp.mkTag rlp.List (len content) 0,
        rlp.mkStream (content ++ rest)
          (adv (len (rlp.puthead 192 247 (len content))) stk)).
Proof.
  intros Hc Hfits. pose proof (len_nonneg content).
  unfold rlp.writeList in *. rewrite len_app in Hfits. rewrite <- app_assoc.
  apply (Kind_puthead 192 247 rlp.List); auto; lia.
Qed.

(** The first element of a serialized payload is the script, a byte string:
    its kind is never [List]. *)
Lemma Kind_writeBytes (b rest : list byte) stk :
  len b < two64 ->
  fits (len (rlp.writeBytes b)) stk ->
  exists t s', rlp.Kind_ (rlp.mkStream (rlp.writeBytes b ++ rest) stk) = Ok (t, s')
               /\ rlp.kind t <> rlp.List.
Proof.
  intros Hb Hfits. pose proof (len_nonneg b).
  assert (fits (len (rlp.encodeStringHeader (len b) ++ b)) stk ->
    exists t s',
      rlp.Kind_ (rlp.mkStream ((rlp.encodeStringHeader (len b) ++ b) ++ rest) stk)
      = Ok (t, s') /\ rlp.kind t <> rlp.List) as Hlong.
  { intros Hf. unfold rlp.encodeStringHeader in *. rewrite len_app in Hf.
    rewrite <- app_assoc.
    rewrite (Kind_puthead 128 183 rlp.String) by (auto; lia).
    eexists _, _. split; [reflexivity|]. cbn. discriminate. }
  unfold rlp.writeBytes in *. destruct b as [|x [|y b']]; auto.
  destruct (Z.leb_spec (b2z x) 127) as [Hx|Hx]; auto.
  rewrite len_cons, len_nil in Hfits. cbn [app].
  rewrite Kind_single_byte by (auto; lia).
  eexists _, _. split; [reflexivity|]. cbn. discriminate.
Qed.

Lemma decodeTransaction_payload (p : payloadCanonicalForm) :
  wf_payloadCanonicalForm p ->
  len (encode_payloadCanonicalForm p) < two64 ->
  decodeTransaction_traced (encode_payloadCanonicalForm p)
  = Ok (mkTransactionCanonicalForm p [] [], PayloadOnly).
Proof.
  intros Hwf Hlen. unfold decodeTransaction_traced, rlp.NewStream.
  pose proof (decode_payload_ok p Hwf Hlen [] [] I) as Hdec.
  rewrite app_nil_r in Hdec. rewrite Hdec. clear Hdec.
  unfold encode_payloadCanonicalForm in *.
  match type of Hlen with len (rlp.writeList ?c) < _ => set (content := c) in * end.
  pose proof (len_le_writeList content) as Hle.
  rewrite <- (app_nil_r (rlp.writeList content)).
  rewrite Kind_writeList by (cbn; auto; lia). cbn [bind rlp.kind].
  rewrite List_ok by (cbn; auto; lia). cbn [bind].
  unfold content at 1. rewrite <- !app_assoc.
  destruct (Kind_writeBytes (pcf_Script p)
              (rlp.encodeByteSlices (pcf_Arguments p) ++
               rlp.writeBytes (pcf_ReferenceBlockID p) ++
               rlp.writeUint64 (pcf_GasLimit p) ++
               rlp.writeBytes (pcf_ProposalKeyAddress p) ++
               rlp.writeUint64 (pcf_ProposalKeyIndex p) ++
               rlp.writeUint64 (pcf_ProposalKeySequenceNumber p) ++
               rlp.writeBytes (pcf_Payer p) ++
               rlp.encodeByteSlices (pcf_Authorizers p) ++ [])
              (rlp.mkListpos 0 (len content)
                 :: adv (len (rlp.puthead 192 247 (len content))) []))
    as (t & s' & HK & Hkind).
  { pose proof (len_le_writeBytes (pcf_Script p)).
    assert (len (rlp.writeBytes (pcf_Script p)) <= len content); [|lia].
    unfold content. rewrite len_app. unfold len. lia. }
  { cbn [fits rlp.pos rlp.size]. unfold content. rewrite len_app. unfold len. lia. }
  rewrite HK. cbn [bind]. destruct (rlp.kind t); try reflexivity. congruence.
Qed.

Lemma decodeTransaction_envelope (e : envelopeCanonicalForm) :
  wf_payloadCanonicalForm (ecf_Payload e) ->
  Forall wf_signatureCanonicalForm (ecf_PayloadSignatures e) ->
  len (encode_envelopeCanonicalForm e) < two64 ->
  decodeTransaction_traced (encode_envelopeCanonicalForm e)
  = Ok (mkTransactionCanonicalForm (ecf_Payload e) (ecf_PayloadSignatures e) [],
        EnvelopeAtEOL).
Proof.
  intros Hwf Hsigs Hlen. destruct e as [p sigs]. cbn [ecf_Payload ecf_PayloadSignatures] in *.
  unfold decodeTransaction_traced, rlp.NewStream, encode_envelopeCanonicalForm in *.
  cbn [ecf_Payload ecf_PayloadSignatures] in *.
  set (e1 := encode_payloadCanonicalForm p) in *.
  set (e2 := encode_signatures sigs) in *.
  pose proof (len_le_writeList (e1 ++ e2)) as Hle.
  assert (len (e1 ++ e2) = len e1 + len e2) as HL by (rewrite len_app; lia).
  rewrite <- (app_nil_r (rlp.writeList (e1 ++ e2))).
  rewrite Kind_writeList by (cbn; auto; lia). cbn [bind rlp.kind].
  rewrite List_ok by (cbn; auto; lia). cbn [bind].
  rewrite <- !app_assoc.
  unfold e1 at 1. unfold encode_payloadCanonicalForm at 1.
  match goal with
  | |- context [rlp.Kind_ (rlp.mkStream (rlp.writeList ?c ++ ?rest) ?stk)] =>
      rewrite (Kind_writeList c rest stk)
  end.
  2:{ pose proof (len_le_writeList
        (rlp.writeBytes (pcf_Script p) ++
         rlp.encodeByteSlices (pcf_Arguments p) ++
         rlp.writeBytes (pcf_ReferenceBlockID p) ++
         rlp.writeUint64 (pcf_GasLimit p) ++
         rlp.writeBytes (pcf_ProposalKeyAddress p) ++
         rlp.writeUint64 (pcf_ProposalKeyIndex p) ++
         rlp.writeUint64 (pcf_ProposalKeySequenceNumber p) ++
         rlp.writeBytes (pcf_Payer p) ++ rlp.encodeByteSlices (pcf_Authorizers p))) as Hp.
      fold (encode_payloadCanonicalForm p) in Hp. fold e1 in Hp. side. }
  2:{ fold (encode_payloadCanonicalForm p). fold e1. side. }
  cbn [bind rlp.kind]. fold (encode_payloadCanonicalForm p). fold e1.
  rewrite (decode_payload_ok p Hwf ltac:(side)) by side.
  cbn [bind adv rlp.pos rlp.size].
  rewrite (decode_signatures_ok sigs Hsigs ltac:(fold e2; side)) by side.
  cbn [bind adv rlp.pos rlp.size].
  rewrite Kind_EOL_eq by side. reflexivity.
Qed.

Lemma decodeTransaction_full (f : transactionCanonicalForm) :
  wf_payloadCanonicalForm (tcf_Payload f) ->
  Forall wf_signatureCanonicalForm (tcf_PayloadSignatures f) ->
  Forall wf_signatureCanonicalForm (tcf_EnvelopeSignatures f) ->
  len (encode_transactionCanonicalForm f) < two64 ->
  decodeTransaction_traced (encode_transactionCanonicalForm f) = Ok (f, FullForm).
Proof.
  intros Hwf Hsigs Hesigs Hlen. destruct f as [p sigs esigs].
  cbn [tcf_Payload tcf_PayloadSignatures tcf_EnvelopeSignatures] in *.
  unfold decodeTransaction_traced, rlp.NewStream, encode_transactionCanonicalForm in *.
  cbn [tcf_Payload tcf_PayloadSignatures tcf_EnvelopeSignatures] in *.
  set (e1 := encode_payloadCanonicalForm p) in *.
  set (e2 := encode_signatures sigs) in *.
  set (e3 := encode_signatures esigs) in *.
  pose proof (len_le_writeList (e1 ++ e2 ++ e3)) as Hle.
  assert (len (e1 ++ e2 ++ e3) = len e1 + len e2 + len e3) as HL
    by (rewrite !len_app; lia).
  rewrite <- (app_nil_r (rlp.writeList (e1 ++ e2 ++ e3))).
  rewrite Kind_writeList by (cbn; auto; lia). cbn [bind rlp.kind].
  rewrite List_ok by (cbn; auto; lia). cbn [bind].
  rewrite <- !app_assoc.
  unfold e1 at 1. unfold encode_payloadCanonicalForm at 1.
  match goal with
  | |- context [rlp.Kind_ (rlp.mkStream (rlp.writeList ?c ++ ?rest) ?stk)] =>
      pose proof (len_le_writeList c) as Hp;
      fold (encode_payloadCanonicalForm p) in Hp; fold e1 in Hp;
      rewrite (Kind_writeList c rest stk)
  end.
  2:{ side. }
  2:{ fold (encode_payloadCanonicalForm p). fold e1. side. }
  cbn [bind rlp.kind]. fold (encode_payloadCanonicalForm p). fold e1.
  rewrite (decode_payload_ok p Hwf ltac:(side)) by side.
  cbn [bind adv rlp.pos rlp.size].
  rewrite (decode_signatures_ok sigs Hsigs ltac:(fold e2; side)) by side.
  cbn [bind adv rlp.pos rlp.size].
  match goal with
  | |- context [rlp.Kind_ (rlp.mkStream (e3 ++ ?rest) ?stk)] =>
      assert (exists t s', rlp.Kind_ (rlp.mkStream (e3 ++ rest) stk) = Ok (t, s'))
        as (t & s' & HK)
  end.
  { subst e1 e2 e3. unfold encode_signatures in *.
    match goal with
    | |- context [rlp.writeList ?c ++ []] => pose proof (len_le_writeList c)
    end.
    eexists _, _. apply Kind_writeList; [|cbn [fits rlp.pos rlp.size]];
      unfold len in *; lia. }
  rewrite HK.
  rewrite (decode_signatures_ok esigs Hesigs ltac:(fold e3; side)) by side.
  reflexivity.
Qed.

(** ** The signer list *)

Lemma foldl_addSigner (l : list Address) :
  forall (signers seenl : list Address) (seen : gset (list byte)),
    (forall x, x ∈ seen <-> x ∈ seenl) ->
    (foldl addSigner (signers, seen) l).1 = signers ++ firstOccurrencesFrom seenl l.
Proof.
  induction l as [|a l IH]; intros signers seenl seen Hseen.
  - cbn. rewrite app_nil_r. reflexivity.
  - cbn [foldl firstOccurrencesFrom]. unfold addSigner at 2.
    destruct (decide (a ∈ seen)) as [Hin|Hnin].
    + rewrite decide_True by (apply Hseen; exact Hin). apply IH. exact Hseen.
    + rewrite decide_False by (rewrite <- Hseen; exact Hnin).
      rewrite (IH _ (a :: seenl)).
      * rewrite <- app_assoc. reflexivity.
      * intros x. rewrite elem_of_union, elem_of_singleton, elem_of_cons, Hseen.
        reflexivity.
Qed.

Lemma signerList_firstOccurrences (t : Transaction) :
  signerList t = firstOccurrences (signerCandidates t).
Proof.
  unfold signerList, signerCandidates, firstOccurrences.
  rewrite <- (app_nil_l (firstOccurrencesFrom [] _)).
  rewrite <- (foldl_addSigner _ [] [] ∅)
    by (intros x; rewrite elem_of_empty, elem_of_nil; reflexivity).
  rewrite !foldl_app.
  destruct (decide (pk_Address (tx_ProposalKey t) = EmptyAddress));
    destruct (decide (tx_Payer t = EmptyAddress)); reflexivity.
Qed.

Lemma firstOccurrencesFrom_elem (l seen : list Address) (a : Address) :
  a ∈ firstOccurrencesFrom seen l <-> a ∈ l /\ a ∉ seen.
Proof.
  revert seen. induction l as [|x l IH]; intros seen; cbn [firstOccurrencesFrom].
  - rewrite !elem_of_nil. tauto.
  - destruct (decide (x ∈ seen)) as [Hin|Hnin].
    + rewrite IH, elem_of_cons. split; [tauto|].
      intros [[->|H] Hn]; [contradiction|tauto].
    + rewrite !elem_of_cons, IH, elem_of_cons. split.
      * intros [->|(H & Hn)]; [tauto|]. split; [tauto|]. tauto.
      * intros [[->|H] Hn]; [tauto|].
        destruct (decide (a = x)) as [->|Hne]; [tauto|]. right. tauto.
Qed.

Lemma firstOccurrencesFrom_NoDup (l seen : list Address) :
  NoDup (firstOccurrencesFrom seen l).
Proof.
  revert seen. induction l as [|x l IH]; intros seen; cbn [firstOccurrencesFrom].
  - constructor.
  - destruct (decide (x ∈ seen)); [apply IH|].
    constructor; [|apply IH].
    rewrite firstOccurrencesFrom_elem, elem_of_cons. tauto.
Qed.

(** An address of the result sits where its first occurrence among the
    candidates puts it: behind the distinct addresses met before. *)
Lemma firstOccurrencesFrom_position (l seen : list Address) (i : nat) (a : Address) :
  firstOccurrencesFrom seen l !! i = Some a ->
  exists j, l !! j = Some a /\ (a ∉ take j l) /\ (a ∉ seen) /\
            i = length (firstOccurrencesFrom seen (take j l)).
Proof.
  revert seen i. induction l as [|x l IH]; intros seen i; cbn [firstOccurrencesFrom].
  - intros H. rewrite lookup_nil in H. discriminate.
  - destruct (decide (x ∈ seen)) as [Hin|Hnin].
    + intros H. destruct (IH _ _ H) as (j & Hj & Hnj & Hns & Hi).
      exists (S j). cbn [take lookup firstOccurrencesFrom].
      rewrite decide_True by exact Hin.
      split; [exact Hj|]. split; [|split; [exact Hns|exact Hi]].
      rewrite elem_of_cons. intros [->|H']; contradiction.
    + destruct i as [|i]; cbn [lookup].
      * intros [= ->]. exists 0%nat. cbn. rewrite elem_of_nil. tauto.
      * intros H. destruct (IH _ _ H) as (j & Hj & Hnj & Hns & Hi).
        rewrite elem_of_cons in Hns.
        exists (S j). cbn [take lookup firstOccurrencesFrom].
        rewrite decide_False by exact Hnin. cbn [length].
        split; [exact Hj|]. split; [|split; [tauto|congruence]].
        rewrite elem_of_cons. tauto.
Qed.

Lemma signerList_NoDup (t : Transaction) : NoDup (signerList t).
Proof. rewrite signerList_firstOccurrences. apply firstOccurrencesFrom_NoDup. Qed.

Lemma signerList_elem (t : Transaction) (a : Address) :
  a ∈ signerList t <-> a ∈ signerCandidates t.
Proof.
  rewrite signerList_firstOccurrences. unfold firstOccurrences.
  rewrite firstOccurrencesFrom_elem, elem_of_nil. tauto.
Qed.

Lemma foldl_insert_index (l : list Address) :
  NoDup l ->
  forall (n : nat) (m : gmap (list byte) Z) (a : Address) (z : Z),
    foldl (fun m p => <[p.2 := Z.of_nat p.1]> m) m
      (imap (fun i x => ((n + i)%nat, x)) l) !! a = Some z
    <-> (exists k, l !! k = Some a /\ z = Z.of_nat (n + k))
        \/ ((a ∉ l) /\ m !! a = Some z).
Proof.
  induction 1 as [|x l Hx Hnd IH]; intros n m a z.
  - cbn. rewrite elem_of_nil. split; [tauto|].
    intros [(k & Hk & _)|[_ H]]; [rewrite lookup_nil in Hk; discriminate|exact H].
  - rewrite imap_cons. cbn [foldl fst snd].
    rewrite (imap_ext _ (fun i y => ((S n + i)%nat, y)))
      by (intros; cbn; f_equal; lia).
    rewrite IH. rewrite Nat.add_0_r. split.
    + intros [(k & Hk & ->)|[Hnin Hl]].
      * left. exists (S k). split; [exact Hk|]. f_equal. lia.
      * destruct (decide (x = a)) as [->|Hne].
        -- rewrite lookup_insert_eq in Hl. injection Hl as <-.
           left. exists 0%nat. split; [reflexivity|]. f_equal. lia.
        -- rewrite lookup_insert_ne in Hl by exact Hne.
           right. rewrite elem_of_cons. split; [|exact Hl].
           intros [->|H']; [congruence|contradiction].
    + intros [(k & Hk & ->)|[Hnin Hl]].
      * destruct k as [|k]; cbn [lookup] in Hk.
        -- injection Hk as ->. right. split; [exact Hx|].
           rewrite lookup_insert_eq. do 2 f_equal. lia.
        -- left. exists k. split; [exact Hk|]. f_equal. lia.
      * rewrite elem_of_cons in Hnin. right. split; [tauto|].
        rewrite lookup_insert_ne by (intros ->; tauto). exact Hl.
Qed.

Lemma signerMap_lookup (t : Transaction) (a : Address) (z : Z) :
  signerMap t !! a = Some z
  <-> exists k, signerList t !! k = Some a /\ z = Z.of_nat k.
Proof.
  unfold signerMap.
  rewrite (imap_ext pair (fun i x => ((0 + i)%nat, x))) by reflexivity.
  rewrite (foldl_insert_index _ (signerList_NoDup t)). rewrite lookup_empty.
  split.
  - intros [H|[_ H]]; [exact H|discriminate].
  - intros H. left. exact H.
Qed.

Lemma lookupSignerIndex_Some (t : Transaction) (a : Address) (k : nat) :
  signerList t !! k = Some a ->
  lookupSignerIndex (signerMap t) a = Z.of_nat k.
Proof.
  intros Hk. unfold lookupSignerIndex.
  assert (signerMap t !! a = Some (Z.of_nat k)) as ->; [|reflexivity].
  apply signerMap_lookup. exists k. auto.
Qed.

Lemma lookupSignerIndex_None (t : Transaction) (a : Address) :
  a ∉ signerList t -> lookupSignerIndex (signerMap t) a = -1.
Proof.
  intros Hn. unfold lookupSignerIndex.
  destruct (signerMap t !! a) as [z|] eqn:E; [|reflexivity].
  apply signerMap_lookup in E as (k & Hk & _).
  exfalso. apply Hn. eapply list_elem_of_lookup_2. exact Hk.
Qed.

(** C4.  [signerList] is the first-occurrence deduplication of the roles in
    the order proposer (when set), payer (when set), authorizers: it holds
    every candidate address exactly once, at the position its first
    occurrence gives it, which is a function of the three role fields only.
    A set proposer has index 0 in the list and in [signerMap], whether or not
    it is also an authorizer; [signerMap] gives every signer the one index it
    has in the list. *)
Theorem signerList_spec (t : Transaction) :
  signerList t = firstOccurrences (signerCandidates t) /\
  NoDup (signerList t) /\
  (forall a, a ∈ signerList t <-> a ∈ signerCandidates t) /\
  (forall i a, signerList t !! i = Some a ->
     exists j, signerCandidates t !! j = Some a /\
               (a ∉ take j (signerCandidates t)) /\
               i = length (firstOccurrences (take j (signerCandidates t)))) /\
  (forall a z, signerMap t !! a = Some z
     <-> exists k, signerList t !! k = Some a /\ z = Z.of_nat k) /\
  (pk_Address (tx_ProposalKey t) <> EmptyAddress ->
     signerList t !! 0%nat = Some (pk_Address (tx_ProposalKey t)) /\
     lookupSignerIndex (signerMap t) (pk_Address (tx_ProposalKey t)) = 0) /\
  (forall t', pk_Address (tx_ProposalKey t') = pk_Address (tx_ProposalKey t) ->
              tx_Payer t' = tx_Payer t ->
              tx_Authorizers t' = tx_Authorizers t ->
              signerList t' = signerList t).
Proof.
  split; [apply signerList_firstOccurrences|].
  split; [apply signerList_NoDup|].
  split; [apply signerList_elem|].
  split.
  { intros i a Hi. rewrite signerList_firstOccurrences in Hi.
    apply firstOccurrencesFrom_position in Hi as (j & Hj & Hnj & _ & Hi).
    exists j. auto. }
  split; [apply signerMap_lookup|].
  split.
  { intros Hne.
    assert (signerList t !! 0%nat = Some (pk_Address (tx_ProposalKey t))) as H0.
    { rewrite signerList_firstOccurrences. unfold signerCandidates.
      rewrite decide_False by exact Hne. cbn.
      rewrite decide_False by (apply not_elem_of_nil). reflexivity. }
    split; [exact H0|]. apply (lookupSignerIndex_Some t _ 0%nat H0). }
  intros t' Hp Hy Ha. unfold signerList. rewrite Hp, Hy, Ha. reflexivity.
Qed.

(** C6, as the code has it.  The sentinel test guards the proposer and the
    payer only: the empty address is a signer exactly when it is listed as an
    authorizer, and every authorizer is a signer. *)
Theorem signerList_sentinel (t : Transaction) :
  (EmptyAddress ∈ signerList t <-> EmptyAddress ∈ tx_Authorizers t) /\
  (forall a, a ∈ tx_Authorizers t -> a ∈ signerList t).
Proof.
  split.
  - rewrite signerList_elem. unfold signerCandidates.
    destruct (decide (pk_Address (tx_ProposalKey t) = EmptyAddress)) as [E1|E1];
      destruct (decide (tx_Payer t = EmptyAddress)) as [E2|E2];
      rewrite ?elem_of_app, ?elem_of_cons, ?elem_of_nil; split; intros H;
      try tauto; intuition congruence.
  - intros a Ha. rewrite signerList_elem. unfold signerCandidates.
    rewrite !elem_of_app. tauto.
Qed.

(** ** The payload form and the newline workaround *)

Lemma b2z_x0a (b : byte) : b2z b = 10 <-> b = Byte.x0a.
Proof.
  split; [|intros ->; reflexivity].
  intros H. rewrite <- (z2b_b2z b), H. reflexivity.
Qed.

Lemma index_last (arg : list byte) :
  arg <> [] ->
  exists b, last arg = Some b /\ index arg (len arg - 1) = Ok b.
Proof.
  intros Hne. destruct (last arg) as [b|] eqn:Hlast.
  - exists b. split; [reflexivity|]. unfold index.
    rewrite last_lookup in Hlast.
    assert (0 < len arg) by (destruct arg; [congruence|rewrite len_cons; unfold len; lia]).
    ifz. cbn [orb].
    replace (Z.to_nat (len arg - 1)) with (pred (length arg)) by (unfold len in *; lia).
    rewrite Hlast. reflexivity.
  - apply last_None in Hlast. contradiction.
Qed.

Lemma stripArguments_ok (args : list (list byte)) :
  Forall (fun arg => arg <> []) args ->
  stripArguments args = Ok (map stripTrailingNewline args).
Proof.
  induction 1 as [|arg args Hne _ IH]; [reflexivity|].
  cbn [stripArguments map].
  destruct (index_last arg Hne) as (b & Hlast & ->). cbn [bind]. rewrite IH. cbn [bind].
  unfold stripTrailingNewline. rewrite Hlast.
  destruct (Z.eqb_spec (b2z b) 10) as [E|E].
  - apply b2z_x0a in E as ->. rewrite decide_True by reflexivity. reflexivity.
  - rewrite decide_False; [reflexivity|]. intros [= ->]. apply E. reflexivity.
Qed.

Lemma stripArguments_panic (args : list (list byte)) :
  [] ∈ args ->
  stripArguments args = Panic (IndexOutOfRange (-1) 0).
Proof.
  induction args as [|arg args IH]; intros Hin.
  - inversion Hin.
  - cbn [stripArguments]. destruct arg as [|x arg].
    + reflexivity.
    + destruct (index_last (x :: arg) ltac:(discriminate)) as (b & _ & ->).
      cbn [bind]. rewrite IH; [reflexivity|].
      apply elem_of_cons in Hin as [Hin|Hin]; [discriminate|exact Hin].
Qed.

Lemma nonempty_arguments (args : list (list byte)) :
  Forall (fun arg => arg <> []) args <-> [] ∉ args.
Proof.
  rewrite Forall_forall. split.
  - intros H Hin. exact (H [] Hin eq_refl).
  - intros H x Hin ->. exact (H Hin).
Qed.

Lemma payloadCanonicalForm_ok (t : Transaction) :
  Forall (fun arg => arg <> []) (tx_Arguments t) ->
  Transaction_payloadCanonicalForm t
  = Ok (mkPayloadCanonicalForm
          (tx_Script t)
          (map stripTrailingNewline (tx_Arguments t))
          (tx_ReferenceBlockID t)
          (tx_GasLimit t)
          (Address_Bytes (pk_Address (tx_ProposalKey t)))
          (to_uint (pk_KeyIndex (tx_ProposalKey t)))
          (pk_SequenceNumber (tx_ProposalKey t))
          (Address_Bytes (tx_Payer t))
          (map Address_Bytes (tx_Authorizers t)),
        strippedTransaction t).
Proof.
  intros H. unfold Transaction_payloadCanonicalForm.
  rewrite stripArguments_ok by exact H. reflexivity.
Qed.

Lemma stripTrailingNewline_snoc (body : list byte) :
  stripTrailingNewline (body ++ [Byte.x0a]) = body.
Proof.
  unfold stripTrailingNewline. rewrite last_snoc, decide_True by reflexivity.
  rewrite length_app. cbn [length].
  replace (length body + 1 - 1)%nat with (length body) by lia.
  apply take_app_length.
Qed.

Lemma stripTrailingNewline_other (arg : list byte) :
  last arg <> Some Byte.x0a -> stripTrailingNewline arg = arg.
Proof.
  intros H. unfold stripTrailingNewline. rewrite decide_False by exact H. reflexivity.
Qed.

(** C9.  When every argument is non-empty the payload form is built, its
    arguments are those left in the transaction, and argument by argument: an
    argument [body ++ [10]] becomes [body] (one byte is removed, whatever
    [body] ends in), an argument that does not end in byte 10 is unchanged,
    and the argument [[10]] becomes empty. *)
Theorem payloadCanonicalForm_strips_newline (t : Transaction) :
  Forall (fun arg => arg <> []) (tx_Arguments t) ->
  exists form t',
    Transaction_payloadCanonicalForm t = Ok (form, t') /\
    pcf_Arguments form = tx_Arguments t' /\
    length (tx_Arguments t') = length (tx_Arguments t) /\
    forall i arg, tx_Arguments t !! i = Some arg ->
      (forall body, arg = body ++ [Byte.x0a] -> tx_Arguments t' !! i = Some body) /\
      (last arg <> Some Byte.x0a -> tx_Arguments t' !! i = Some arg) /\
      (arg = [Byte.x0a] -> tx_Arguments t' !! i = Some []).
Proof.
  intros Hne. eexists _, _. split; [apply payloadCanonicalForm_ok; exact Hne|].
  cbn [pcf_Arguments strippedTransaction set_Arguments tx_Arguments].
  split; [reflexivity|]. split; [apply length_map|].
  intros i arg Hi. rewrite !list_lookup_fmap, Hi. cbn [fmap option_fmap option_map].
  split; [|split].
  - intros body ->. rewrite stripTrailingNewline_snoc. reflexivity.
  - intros Hl. rewrite stripTrailingNewline_other by exact Hl. reflexivity.
  - intros ->. reflexivity.
Qed.

(** C10.  An empty argument makes the read of [arg[len(arg)-1]] panic with
    index -1 out of range, in the payload form and in each of the three
    encode entry points; without an empty argument all four return. *)
Theorem empty_argument_panics (t : Transaction) :
  ([] ∈ tx_Arguments t ->
     Transaction_payloadCanonicalForm t = Panic (IndexOutOfRange (-1) 0) /\
     PayloadMessage t = Panic (IndexOutOfRange (-1) 0) /\
     EnvelopeMessage t = Panic (IndexOutOfRange (-1) 0) /\
     Encode t = Panic (IndexOutOfRange (-1) 0)) /\
  (([] ∉ tx_Arguments t) ->
     (exists r, Transaction_payloadCanonicalForm t = Ok r) /\
     (exists r, PayloadMessage t = Ok r) /\
     (exists r, EnvelopeMessage t = Ok r) /\
     (exists r, Encode t = Ok r)).
Proof.
  split.
  - intros Hin.
    assert (Transaction_payloadCanonicalForm t = Panic (IndexOutOfRange (-1) 0)) as Hp.
    { unfold Transaction_payloadCanonicalForm.
      rewrite stripArguments_panic by exact Hin. reflexivity. }
    unfold PayloadMessage, EnvelopeMessage, Transaction_envelopeCanonicalForm, Encode.
    rewrite Hp. repeat split; reflexivity.
  - intros Hnin. apply nonempty_arguments in Hnin.
    unfold PayloadMessage, EnvelopeMessage, Transaction_envelopeCanonicalForm, Encode.
    rewrite payloadCanonicalForm_ok by exact Hnin. cbn [bind].
    repeat split; eexists; reflexivity.
Qed.

(** ** Conversions *)

Lemma to_uint_range (x : Z) : uint64_range (to_uint x).
Proof.
  unfold uint64_range, to_uint, two64. apply Z.mod_pos_bound. lia.
Qed.

Lemma to_int_to_uint (x : Z) : int_range x -> to_int (to_uint x) = x.
Proof.
  unfold int_range, to_int, to_uint, two63, two64. pow_literals. intros H.
  destruct (Z.ltb_spec (x mod 18446744073709551616) 9223372036854775808);
    Z.div_mod_to_equations; lia.
Qed.

Lemma BytesToAddress_Bytes (a : Address) :
  length a = AddressLength -> BytesToAddress (Address_Bytes a) = a.
Proof.
  intros H. unfold BytesToAddress, Address_Bytes. cbv zeta.
  rewrite H, Nat.sub_diag, drop_0, H, Nat.sub_diag. reflexivity.
Qed.

Lemma BytesToID_id (b : Identifier) :
  length b = IdentifierLength -> BytesToID b = b.
Proof.
  intros H. unfold BytesToID. rewrite H, Nat.sub_diag. cbn [repeat].
  rewrite app_nil_r. apply take_ge. lia.
Qed.

Lemma map_BytesToAddress (l : list Address) :
  Forall (fun a => length a = AddressLength) l ->
  map BytesToAddress (map Address_Bytes l) = l.
Proof.
  induction 1 as [|a l Ha _ IH]; [reflexivity|].
  cbn [map]. rewrite BytesToAddress_Bytes by exact Ha. rewrite IH. reflexivity.
Qed.

Lemma index_lookup {A} (s : list A) (i : Z) (x : A) :
  0 <= i -> s !! Z.to_nat i = Some x -> index s i = Ok x.
Proof.
  intros Hi Hx. unfold index. apply lookup_lt_Some in Hx as Hlt.
  unfold len. ifz. cbn [orb]. rewrite Hx. reflexivity.
Qed.

Lemma resolveSignatures_ok (signers : list Address) (sigs : list TransactionSignature) :
  Forall WellTypedSignature sigs ->
  Forall (signerResolved signers) sigs ->
  resolveSignatures signers (signaturesList_canonicalForm sigs) = Ok sigs.
Proof.
  induction 1 as [|s sigs (_ & Hsi & Hki) _ IH]; intros Hres; [reflexivity|].
  apply Forall_cons in Hres as [(Hpos & Hlook) Hres].
  cbn [signaturesList_canonicalForm map resolveSignatures
       transactionSignatureFromCanonicalForm TransactionSignature_canonicalForm
       scf_SignerIndex scf_KeyIndex scf_Signature
       sig_SignerIndex sig_KeyIndex sig_Signature].
  rewrite !to_int_to_uint by assumption.
  rewrite (index_lookup _ _ _ Hpos Hlook). cbn [bind].
  fold (signaturesList_canonicalForm sigs). rewrite IH by exact Hres. cbn [bind].
  destruct s; reflexivity.
Qed.

Lemma wf_signaturesList (sigs : list TransactionSignature) :
  Forall wf_signatureCanonicalForm (signaturesList_canonicalForm sigs).
Proof.
  unfold signaturesList_canonicalForm. apply Forall_map, Forall_forall.
  intros s _. split; apply to_uint_range.
Qed.

(** ** Round trips *)

Lemma payloadCanonicalForm_stripped (t : Transaction) :
  NonEmptyArguments t ->
  Transaction_payloadCanonicalForm t
  = Ok (payloadFormOf (strippedTransaction t), strippedTransaction t).
Proof. intros H. rewrite payloadCanonicalForm_ok by exact H. reflexivity. Qed.

Lemma wf_payloadFormOf (t : Transaction) :
  WellTyped t -> wf_payloadCanonicalForm (payloadFormOf t).
Proof.
  intros (_ & Hgas & _ & _ & Hseq & _). unfold wf_payloadCanonicalForm, payloadFormOf.
  cbn [pcf_GasLimit pcf_ProposalKeyIndex pcf_ProposalKeySequenceNumber].
  split; [exact Hgas|]. split; [apply to_uint_range|exact Hseq].
Qed.

Lemma WellTyped_stripped (t : Transaction) :
  WellTyped t -> WellTyped (strippedTransaction t).
Proof. intros H. exact H. Qed.

Lemma signerList_stripped (t : Transaction) :
  signerList (strippedTransaction t) = signerList t.
Proof. reflexivity. Qed.

Lemma DecodeTransaction_ok (t : Transaction) (b : list byte)
  (psigs esigs : list TransactionSignature) (br : decodeBranch) :
  WellTyped t ->
  decodeTransaction_traced b
  = Ok (mkTransactionCanonicalForm (payloadFormOf t)
          (signaturesList_canonicalForm psigs)
          (signaturesList_canonicalForm esigs), br) ->
  Forall WellTypedSignature psigs ->
  Forall (signerResolved (signerList t)) psigs ->
  Forall WellTypedSignature esigs ->
  Forall (signerResolved (signerList t)) esigs ->
  DecodeTransaction b
  = Ok (set_EnvelopeSignatures (set_PayloadSignatures t psigs) esigs).
Proof.
  intros (Href & Hgas & Hpa & Hpk & Hseq & Hpayer & Hauth & _ & _) Hdec Hwp Hrp Hwe Hre.
  unfold DecodeTransaction, decodeTransaction. rewrite Hdec. cbn [bind].
  cbn [tcf_Payload tcf_PayloadSignatures tcf_EnvelopeSignatures payloadFormOf
       pcf_Script pcf_Arguments pcf_ReferenceBlockID pcf_GasLimit
       pcf_ProposalKeyAddress pcf_ProposalKeyIndex pcf_ProposalKeySequenceNumber
       pcf_Payer pcf_Authorizers].
  rewrite BytesToID_id by exact Href.
  rewrite !BytesToAddress_Bytes by assumption.
  rewrite map_BytesToAddress by exact Hauth.
  rewrite to_int_to_uint by exact Hpk.
  match goal with
  | |- context [resolveSignatures (signerList ?t0)] =>
      change (signerList t0) with (signerList t)
  end.
  rewrite (resolveSignatures_ok _ psigs Hwp Hrp). cbn [bind].
  rewrite (resolveSignatures_ok _ esigs Hwe Hre). cbn [bind].
  destruct t as [? ? ? ? [? ? ?] ? ? ? ?]. reflexivity.
Qed.

(** C1, as the code has it.  For a transaction of the Go types whose
    arguments are all non-empty and whose signatures each carry the position
    of their address in the signer list, [Encode] returns bytes and leaves
    the transaction with its arguments stripped of one trailing newline; and
    [DecodeTransaction] gives back that transaction, field for field. *)
Theorem Encode_DecodeTransaction (t : Transaction) :
  WellTyped t ->
  NonEmptyArguments t ->
  SignaturesResolved t ->
  exists b,
    Encode t = Ok (b, strippedTransaction t) /\
    (len b < two64 -> DecodeTransaction b = Ok (strippedTransaction t)).
Proof.
  intros Hwt Hne (Hrp & Hre). unfold Encode.
  rewrite payloadCanonicalForm_stripped by exact Hne. cbn [bind].
  eexists. split; [reflexivity|]. unfold mustRLPEncode. intros Hlen.
  pose proof Hwt as (_ & _ & _ & _ & _ & _ & _ & Hwp & Hwe).
  rewrite (DecodeTransaction_ok (strippedTransaction t) _
             (tx_PayloadSignatures t) (tx_EnvelopeSignatures t) FullForm);
    try assumption.
  - destruct t as [? ? ? ? [? ? ?] ? ? ? ?]. reflexivity.
  - apply (decodeTransaction_full
             (mkTransactionCanonicalForm (payloadFormOf (strippedTransaction t)) _ _)).
    + apply wf_payloadFormOf. exact Hwt.
    + apply wf_signaturesList.
    + apply wf_signaturesList.
    + exact Hlen.
Qed.

Lemma EnvelopeMessage_DecodeTransaction_general (t : Transaction) :
  WellTyped t ->
  NonEmptyArguments t ->
  Forall (signerResolved (signerList t)) (tx_PayloadSignatures t) ->
  exists b,
    EnvelopeMessage t = Ok (b, strippedTransaction t) /\
    (len b < two64 ->
       (exists temp, decodeTransaction_traced b = Ok (temp, EnvelopeAtEOL)) /\
       DecodeTransaction b = Ok (set_EnvelopeSignatures (strippedTransaction t) [])).
Proof.
  intros Hwt Hne Hrp. unfold EnvelopeMessage, Transaction_envelopeCanonicalForm.
  rewrite payloadCanonicalForm_stripped by exact Hne. cbn [bind].
  eexists. split; [reflexivity|]. unfold mustRLPEncode. intros Hlen.
  pose proof Hwt as (_ & _ & _ & _ & _ & _ & _ & Hwp & Hwe).
  pose proof (decodeTransaction_envelope
                (mkEnvelopeCanonicalForm (payloadFormOf (strippedTransaction t))
                   (signaturesList_canonicalForm (tx_PayloadSignatures t)))
                (wf_payloadFormOf _ Hwt) (wf_signaturesList _) Hlen) as Hdec.
  cbn [ecf_Payload ecf_PayloadSignatures] in Hdec.
  split; [eexists; exact Hdec|].
  rewrite (DecodeTransaction_ok (strippedTransaction t) _
             (tx_PayloadSignatures t) [] EnvelopeAtEOL);
    try assumption; constructor.
Qed.

(** C7, as the code has it.  For a transaction of the Go types with payload
    signatures and no envelope signatures, whose arguments are all non-empty
    and whose payload signatures each carry the position of their address in
    the signer list, [EnvelopeMessage] returns bytes, and [DecodeTransaction]
    on them leaves [decodeTransaction] at the end of the list behind the
    payload signatures and gives back the transaction (arguments stripped of
    one trailing newline), with no envelope signatures. *)
Theorem EnvelopeMessage_DecodeTransaction (t : Transaction) :
  tx_PayloadSignatures t <> [] ->
  tx_EnvelopeSignatures t = [] ->
  WellTyped t ->
  NonEmptyArguments t ->
  Forall (signerResolved (signerList t)) (tx_PayloadSignatures t) ->
  exists b,
    EnvelopeMessage t = Ok (b, strippedTransaction t) /\
    (len b < two64 ->
       (exists temp, decodeTransaction_traced b = Ok (temp, EnvelopeAtEOL)) /\
       exists t',
         DecodeTransaction b = Ok t' /\
         t' = strippedTransaction t /\
         tx_PayloadSignatures t' = tx_PayloadSignatures t /\
         tx_EnvelopeSignatures t' = []).
Proof.
  intros _ Henv Hwt Hne Hrp.
  destruct (EnvelopeMessage_DecodeTransaction_general t Hwt Hne Hrp) as (b & Hb & Hdec).
  exists b. split; [exact Hb|]. intros Hlen. destruct (Hdec Hlen) as (Hbr & Hd).
  split; [exact Hbr|]. eexists. split; [exact Hd|].
  destruct t as [? ? ? ? [? ? ?] ? ? ? ?]. cbn in Henv. subst. auto.
Qed.

(** C8, as the code has it.  For a transaction of the Go types whose
    arguments are all non-empty, [PayloadMessage] returns bytes, and
    [DecodeTransaction] on them takes the payload-only return of
    [decodeTransaction] and gives back the payload fields of the transaction
    (arguments stripped of one trailing newline), with no signatures. *)
Theorem PayloadMessage_DecodeTransaction (t : Transaction) :
  WellTyped t ->
  NonEmptyArguments t ->
  exists b,
    PayloadMessage t = Ok (b, strippedTransaction t) /\
    (len b < two64 ->
       (exists temp, decodeTransaction_traced b = Ok (temp, PayloadOnly)) /\
       DecodeTransaction b
       = Ok (set_EnvelopeSignatures
               (set_PayloadSignatures (strippedTransaction t) []) [])).
Proof.
  intros Hwt Hne. unfold PayloadMessage.
  rewrite payloadCanonicalForm_stripped by exact Hne. cbn [bind].
  eexists. split; [reflexivity|]. unfold mustRLPEncode. intros Hlen.
  pose proof (decodeTransaction_payload (payloadFormOf (strippedTransaction t))
                (wf_payloadFormOf _ Hwt) Hlen) as Hdec.
  split; [eexists; exact Hdec|].
  apply (DecodeTransaction_ok (strippedTransaction t) _ [] [] PayloadOnly);
    try assumption; constructor.
Qed.

(** ** The claims on concrete transactions *)

(** Hypotheses on a concrete transaction: the data is evaluated, the
    predicates are taken apart, and the closed leaves are decided by
    evaluation. *)
Ltac concrete :=
  unfold WellTyped, NonEmptyArguments, SignaturesResolved;
  repeat match goal with
  | |- _ /\ _ => split
  | |- Forall ?P ?l =>
      let v := eval vm_compute in l in
      change (Forall P v);
      first [ apply Forall_nil | apply Forall_cons ]
  end;
  unfold WellTypedSignature, signerResolved;
  cbv beta;
  repeat match goal with |- _ /\ _ => split end;
  vm_compute;
  repeat match goal with |- _ /\ _ => split end;
  first [ reflexivity | (intro; discriminate) ].

(** C1 fails as stated: a transaction built through the setters, with an
    envelope signature by an address that has no role, is encoded by
    [Encode], and [DecodeTransaction] does not give a transaction back. *)
Lemma Encode_DecodeTransaction_counterexample :
  exists b t',
    Encode tx_unknown_envelope_signer = Ok (b, t') /\
    DecodeTransaction b = Panic (IndexOutOfRange (-1) 1) /\
    ~ (exists t, DecodeTransaction b = Ok t).
Proof.
  eexists _, _. split; [vm_compute; reflexivity|]. split; [vm_compute; reflexivity|].
  intros (t & Ht). vm_compute in Ht. discriminate Ht.
Qed.

Lemma Encode_DecodeTransaction_witness :
  exists b,
    Encode tx_scenario_signed = Ok (b, strippedTransaction tx_scenario_signed) /\
    DecodeTransaction b = Ok (strippedTransaction tx_scenario_signed).
Proof.
  destruct (Encode_DecodeTransaction tx_scenario_signed) as (b & Hb & Hd);
    [concrete | concrete | concrete |].
  exists b. split; [exact Hb|]. apply Hd.
  pose proof Hb as Hb'. vm_compute in Hb'. injection Hb' as <-.
  vm_compute. reflexivity.
Defined.

(** C7 fails as stated: a transaction built through the setters, with one
    payload signature (by an address that has no role) and no envelope
    signature, is encoded by [EnvelopeMessage], and [DecodeTransaction] does
    not give a transaction back. *)
Lemma EnvelopeMessage_DecodeTransaction_counterexample :
  tx_PayloadSignatures tx_unknown_payload_signer <> [] /\
  tx_EnvelopeSignatures tx_unknown_payload_signer = [] /\
  exists b t',
    EnvelopeMessage tx_unknown_payload_signer = Ok (b, t') /\
    DecodeTransaction b = Panic (IndexOutOfRange (-1) 1) /\
    ~ (exists t, DecodeTransaction b = Ok t).
Proof.
  split; [vm_compute; discriminate|]. split; [vm_compute; reflexivity|].
  eexists _, _. split; [vm_compute; reflexivity|]. split; [vm_compute; reflexivity|].
  intros (t & Ht). vm_compute in Ht. discriminate Ht.
Qed.

Lemma EnvelopeMessage_DecodeTransaction_witness :
  exists b,
    EnvelopeMessage tx_scenario = Ok (b, strippedTransaction tx_scenario) /\
    (exists temp, decodeTransaction_traced b = Ok (temp, EnvelopeAtEOL)) /\
    exists t',
      DecodeTransaction b = Ok t' /\
      t' = strippedTransaction tx_scenario /\
      tx_PayloadSignatures t' = tx_PayloadSignatures tx_scenario /\
      tx_EnvelopeSignatures t' = [].
Proof.
  destruct (EnvelopeMessage_DecodeTransaction tx_scenario) as (b & Hb & Hd).
  - vm_compute. discriminate.
  - vm_compute. reflexivity.
  - concrete.
  - concrete.
  - concrete.
  - exists b. split; [exact Hb|]. apply Hd.
    pose proof Hb as Hb'. vm_compute in Hb'. injection Hb' as <-.
    vm_compute. reflexivity.
Defined.

(** C8 fails as stated: the decoded arguments are not the arguments the
    transaction was given when one of them ends in a newline. *)
Lemma PayloadMessage_DecodeTransaction_counterexample :
  exists b t' d,
    PayloadMessage tx_newline = Ok (b, t') /\
    DecodeTransaction b = Ok d /\
    tx_Arguments tx_newline = [sampleArgumentNewline] /\
    tx_Arguments d = [sampleArgument] /\
    tx_Arguments d <> tx_Arguments tx_newline.
Proof.
  eexists _, _, _. split; [vm_compute; reflexivity|].
  split; [vm_compute; reflexivity|].
  split; [vm_compute; reflexivity|].
  split; [vm_compute; reflexivity|].
  vm_compute. discriminate.
Qed.

Lemma PayloadMessage_DecodeTransaction_witness :
  exists b,
    PayloadMessage tx_scenario_signed = Ok (b, strippedTransaction tx_scenario_signed) /\
    (exists temp, decodeTransaction_traced b = Ok (temp, PayloadOnly)) /\
    DecodeTransaction b
    = Ok (set_EnvelopeSignatures
            (set_PayloadSignatures (strippedTransaction tx_scenario_signed) []) []).
Proof.
  destruct (PayloadMessage_DecodeTransaction tx_scenario_signed) as (b & Hb & Hd);
    [concrete | concrete |].
  exists b. split; [exact Hb|]. apply Hd.
  pose proof Hb as Hb'. vm_compute in Hb'. injection Hb' as <-.
  vm_compute. reflexivity.
Defined.

(** ** Negative signer indices *)




(** ** Signer indices without a signer *)

(** Whenever the decoded forms hold a signature whose index has no entry in
    the signer list, the loop over the signatures panics: it does not return
    an error. *)
Lemma resolveSignatures_panics (signers : list Address)
  (sigs : list transactionSignatureCanonicalForm) :
  Exists (fun v => to_int (scf_SignerIndex v) < 0 \/ len signers <= to_int (scf_SignerIndex v))
    sigs ->
  exists p, resolveSignatures signers sigs = Panic p.
Proof.
  induction 1 as [v sigs Hv|v sigs _ IH].
  - cbn [resolveSignatures transactionSignatureFromCanonicalForm sig_SignerIndex].
    unfold index.
    assert ((to_int (scf_SignerIndex v) <? 0) || (len signers <=? to_int (scf_SignerIndex v))
            = true) as ->.
    { apply orb_true_iff. rewrite Z.ltb_lt, Z.leb_le. exact Hv. }
    eexists. reflexivity.
  - cbn [resolveSignatures]. destruct (index signers _) as [a|e|p] eqn:E.
    + cbn [bind]. destruct IH as (p & ->). eexists. reflexivity.
    + unfold index in E. repeat case_match; discriminate.
    + eexists. reflexivity.
Qed.

(** C3 on the code: the message decodes to a payload with the signer list
    [[A]] and one payload signature with signer index 1, and
    [DecodeTransaction] panics on the read of [signers[1]]. *)
Theorem DecodeTransaction_index_out_of_range :
  (exists temp,
     decodeTransaction msg_signer_index_out_of_range = Ok temp /\
     map scf_SignerIndex (tcf_PayloadSignatures temp) = [1] /\
     pcf_ProposalKeyAddress (tcf_Payload temp) = addressA /\
     pcf_Payer (tcf_Payload temp) = addressA /\
     pcf_Authorizers (tcf_Payload temp) = []) /\
  DecodeTransaction msg_signer_index_out_of_range = Panic (IndexOutOfRange 1 1).
Proof.
  split; [eexists; repeat split; vm_compute; reflexivity | vm_compute; reflexivity].
Qed.

(** ** Order of the signatures *)

(** C5 on the code: after the two insertions the payload signatures are in
    order; [SetProposalKey] then gives B index 0 and A index 1 and leaves the
    sequence as it was, out of order. *)
Theorem SetProposalKey_breaks_order :
  map (fun s => (sig_Address s, sig_SignerIndex s, sig_KeyIndex s))
    (tx_PayloadSignatures tx_signed_by_authorizers)
  = [(addressA, 0, 0); (addressB, 1, 0)] /\
  signaturesSorted (tx_PayloadSignatures tx_signed_by_authorizers) = true /\
  map (fun s => (sig_Address s, sig_SignerIndex s, sig_KeyIndex s))
    (tx_PayloadSignatures tx_proposer_set_late)
  = [(addressA, 1, 0); (addressB, 0, 0)] /\
  signaturesSorted (tx_PayloadSignatures tx_proposer_set_late) = false.
Proof. repeat split; vm_compute; reflexivity. Qed.

(** ** Witnesses and counterexamples of the remaining claims *)

Lemma signerList_spec_witness :
  signerList tx_scenario = [addressA] /\
  signerList tx_scenario !! 0%nat = Some addressA /\
  lookupSignerIndex (signerMap tx_scenario) addressA = 0.
Proof.
  destruct (signerList_spec tx_scenario) as (Hl & _ & _ & _ & _ & Hp & _).
  split; [rewrite Hl; vm_compute; reflexivity|].
  apply Hp. vm_compute. discriminate.
Defined.

(** C6 fails as stated: the sentinel address is an authorizer of the
    transaction and is in its signer list. *)
Lemma signerList_sentinel_counterexample :
  tx_Authorizers tx_sentinel_authorizer = [EmptyAddress] /\
  signerList tx_sentinel_authorizer = [addressA; EmptyAddress] /\
  EmptyAddress ∈ signerList tx_sentinel_authorizer.
Proof.
  split; [vm_compute; reflexivity|]. split; [vm_compute; reflexivity|].
  apply (list_elem_of_lookup_2 _ 1%nat). vm_compute. reflexivity.
Qed.

Lemma payloadCanonicalForm_strips_newline_witness :
  exists form t',
    Transaction_payloadCanonicalForm tx_newline = Ok (form, t') /\
    pcf_Arguments form = [sampleArgument] /\
    tx_Arguments t' = [sampleArgument].
Proof.
  destruct (payloadCanonicalForm_strips_newline tx_newline)
    as (form & t' & Hok & _).
  - concrete.
  - exists form, t'.
    pose proof Hok as Hok'. vm_compute in Hok'. injection Hok' as <- <-.
    split; [exact Hok|]. split; vm_compute; reflexivity.
Defined.

Lemma empty_argument_panics_witness :
  PayloadMessage tx_empty_argument = Panic (IndexOutOfRange (-1) 0) /\
  EnvelopeMessage tx_empty_argument = Panic (IndexOutOfRange (-1) 0) /\
  Encode tx_empty_argument = Panic (IndexOutOfRange (-1) 0).
Proof.
  destruct (empty_argument_panics tx_empty_argument) as (Hp & _).
  destruct Hp as (_ & H1 & H2 & H3).
  - apply (list_elem_of_lookup_2 _ 0%nat). vm_compute. reflexivity.
  - auto.
Defined.

(** * Further properties *)

(** ** Re-indexing the signatures *)

Lemma reindex_current (t : Transaction) (s : TransactionSignature) :
  indexCurrent (signerList t) (reindex (signerMap t) s).
Proof.
  split; cbn [reindex sig_Address sig_SignerIndex].
  - intros k Hk. apply lookupSignerIndex_Some. exact Hk.
  - intros Hn. apply lookupSignerIndex_None. exact Hn.
Qed.

Lemma reindex_content (m : gmap (list byte) Z) (s : TransactionSignature) :
  signatureContent (reindex m s) = signatureContent s.
Proof. reflexivity. Qed.

Lemma indexCurrent_lookup (t : Transaction) (s : TransactionSignature) :
  indexCurrent (signerList t) s ->
  sig_SignerIndex s = lookupSignerIndex (signerMap t) (sig_Address s).
Proof.
  intros (Hin & Hout).
  destruct (decide (sig_Address s ∈ signerList t)) as [Hel|Hel].
  - apply list_elem_of_lookup_1 in Hel as (k & Hk).
    rewrite (lookupSignerIndex_Some t _ k Hk). apply Hin. exact Hk.
  - rewrite (lookupSignerIndex_None t _ Hel). apply Hout. exact Hel.
Qed.

Lemma reindex_id (t : Transaction) (s : TransactionSignature) :
  indexCurrent (signerList t) s -> reindex (signerMap t) s = s.
Proof.
  intros H. unfold reindex. rewrite <- (indexCurrent_lookup t s H).
  destruct s; reflexivity.
Qed.

Lemma map_reindex_id (t : Transaction) (l : list TransactionSignature) :
  Forall (indexCurrent (signerList t)) l -> map (reindex (signerMap t)) l = l.
Proof.
  induction 1 as [|s l Hs _ IH]; [reflexivity|].
  cbn [map]. rewrite IH, (reindex_id t s Hs). reflexivity.
Qed.

Lemma map_reindex_current (t : Transaction) (l : list TransactionSignature) :
  Forall (indexCurrent (signerList t)) (map (reindex (signerMap t)) l).
Proof.
  induction l as [|s l IH]; [constructor|].
  cbn [map]. constructor; [apply reindex_current|exact IH].
Qed.

Lemma map_reindex_content (m : gmap (list byte) Z) (l : list TransactionSignature) :
  map signatureContent (map (reindex m) l) = map signatureContent l.
Proof. rewrite map_map. reflexivity. Qed.

Lemma refreshSignerIndex_current (t : Transaction) :
  IndicesCurrent (refreshSignerIndex t).
Proof.
  split; cbn [refreshSignerIndex tx_PayloadSignatures tx_EnvelopeSignatures
              set_PayloadSignatures set_EnvelopeSignatures];
    apply (map_reindex_current t).
Qed.

Lemma refreshSignerIndex_fixed (t : Transaction) :
  IndicesCurrent t -> refreshSignerIndex t = t.
Proof.
  intros (Hp & He). unfold refreshSignerIndex.
  cbn [tx_PayloadSignatures tx_EnvelopeSignatures set_PayloadSignatures
       set_EnvelopeSignatures].
  rewrite (map_reindex_id t _ Hp), (map_reindex_id t _ He).
  destruct t; reflexivity.
Qed.

(** [refreshSignerIndex] touches nothing but the signer indices: the signer
    list and every field other than the two signature sequences are what they
    were, each sequence keeps its signatures (address, key index, bytes) in
    their order, and every signature is left with the position of its address
    in the signer list, or -1 when its address is not a signer.  A second
    call changes nothing. *)
Theorem refreshSignerIndex_spec (t : Transaction) :
  signerList (refreshSignerIndex t) = signerList t /\
  withoutSignatures (refreshSignerIndex t) = withoutSignatures t /\
  map signatureContent (tx_PayloadSignatures (refreshSignerIndex t))
  = map signatureContent (tx_PayloadSignatures t) /\
  map signatureContent (tx_EnvelopeSignatures (refreshSignerIndex t))
  = map signatureContent (tx_EnvelopeSignatures t) /\
  Forall (indexCurrent (signerList t)) (tx_PayloadSignatures (refreshSignerIndex t)) /\
  Forall (indexCurrent (signerList t)) (tx_EnvelopeSignatures (refreshSignerIndex t)) /\
  refreshSignerIndex (refreshSignerIndex t) = refreshSignerIndex t.
Proof.
  split; [reflexivity|]. split; [reflexivity|].
  split; [apply map_reindex_content|]. split; [apply map_reindex_content|].
  split; [apply (map_reindex_current t)|]. split; [apply (map_reindex_current t)|].
  apply refreshSignerIndex_fixed, refreshSignerIndex_current.
Qed.

(** Whatever the transaction held before, each of the five methods that
    change a role or add a signature leaves every payload and envelope
    signature with the position of its address in the new signer list, or
    with -1 when its address has no role. *)
Theorem mutators_leave_indices_current (t : Transaction) (address : Address)
  (keyIndex sequenceNum : Z) (sig : list byte) :
  IndicesCurrent (SetProposalKey t address keyIndex sequenceNum) /\
  IndicesCurrent (SetPayer t address) /\
  IndicesCurrent (AddAuthorizer t address) /\
  IndicesCurrent (AddPayloadSignature t address keyIndex sig) /\
  IndicesCurrent (AddEnvelopeSignature t address keyIndex sig).
Proof.
  unfold SetProposalKey, SetPayer, AddAuthorizer, AddPayloadSignature,
    AddEnvelopeSignature.
  split; [|split; [|split; [|split]]]; apply refreshSignerIndex_current.
Qed.

(** ** Adding an authorizer *)

Lemma firstOccurrencesFrom_snoc (l seen : list Address) (a : Address) :
  firstOccurrencesFrom seen (l ++ [a])
  = firstOccurrencesFrom seen l ++ (if decide (a ∈ l ++ seen) then [] else [a]).
Proof.
  revert seen. induction l as [|x l IH]; intros seen.
  - cbn [firstOccurrencesFrom app]. destruct (decide (a ∈ seen)); reflexivity.
  - cbn [firstOccurrencesFrom app].
    destruct (decide (x ∈ seen)) as [Hx|Hx].
    + rewrite IH. f_equal. apply decide_ext. split; intros H.
      * apply elem_of_cons. right. exact H.
      * apply elem_of_cons in H as [->|H]; [|exact H].
        apply elem_of_app. right. exact Hx.
    + rewrite IH. cbn [app]. f_equal. f_equal. apply decide_ext.
      rewrite (Permutation_middle l seen x). reflexivity.
Qed.

Lemma signerList_AddAuthorizer (t : Transaction) (a : Address) :
  signerList (AddAuthorizer t a)
  = signerList t ++ (if decide (a ∈ signerList t) then [] else [a]).
Proof.
  change (signerList (AddAuthorizer t a))
    with (signerList (set_Authorizers t (tx_Authorizers t ++ [a]))).
  rewrite !signerList_firstOccurrences. unfold firstOccurrences.
  assert (signerCandidates (set_Authorizers t (tx_Authorizers t ++ [a]))
          = signerCandidates t ++ [a]) as ->.
  { unfold signerCandidates. cbn [set_Authorizers tx_ProposalKey tx_Payer tx_Authorizers].
    rewrite <- !app_assoc. reflexivity. }
  rewrite firstOccurrencesFrom_snoc. f_equal. apply decide_ext.
  rewrite app_nil_r, firstOccurrencesFrom_elem. split; [|tauto].
  intros H. split; [exact H|apply not_elem_of_nil].
Qed.

(** [AddAuthorizer] appends the address to the signer list when it is not a
    signer yet and leaves the signer list alone when it is; in both cases
    every signer keeps the position it had. *)
Theorem AddAuthorizer_signerList (t : Transaction) (a : Address) :
  (a ∈ signerList t -> signerList (AddAuthorizer t a) = signerList t) /\
  ((a ∉ signerList t) -> signerList (AddAuthorizer t a) = signerList t ++ [a]) /\
  (forall k b, signerList t !! k = Some b ->
               signerList (AddAuthorizer t a) !! k = Some b).
Proof.
  rewrite signerList_AddAuthorizer. split; [|split].
  - intros H. rewrite decide_True by exact H. apply app_nil_r.
  - intros H. rewrite decide_False by exact H. reflexivity.
  - intros k b Hk. apply lookup_app_l_Some. exact Hk.
Qed.

Lemma signerResolved_current (t : Transaction) (s : TransactionSignature) :
  signerResolved (signerList t) s -> indexCurrent (signerList t) s.
Proof.
  intros (H0 & Hk). split.
  - intros k Hk'.
    pose proof (NoDup_lookup _ _ _ _ (signerList_NoDup t) Hk Hk') as <-.
    rewrite Z2Nat.id by exact H0. reflexivity.
  - intros Hn. exfalso. apply Hn. eapply list_elem_of_lookup_2. exact Hk.
Qed.

Lemma signerResolved_app (signers more : list Address) (s : TransactionSignature) :
  signerResolved signers s -> signerResolved (signers ++ more) s.
Proof.
  intros (H0 & Hk). split; [exact H0|]. apply lookup_app_l_Some. exact Hk.
Qed.

(** When every signature carries the position of its address in the signer
    list, [AddAuthorizer] leaves both signature sequences exactly as they
    were, signer indices included, and the signatures still carry the
    positions of their addresses: a sorted sequence stays sorted. *)
Theorem AddAuthorizer_keeps_signatures (t : Transaction) (a : Address) :
  SignaturesResolved t ->
  tx_PayloadSignatures (AddAuthorizer t a) = tx_PayloadSignatures t /\
  tx_EnvelopeSignatures (AddAuthorizer t a) = tx_EnvelopeSignatures t /\
  SignaturesResolved (AddAuthorizer t a) /\
  signaturesSorted (tx_PayloadSignatures (AddAuthorizer t a))
  = signaturesSorted (tx_PayloadSignatures t) /\
  signaturesSorted (tx_EnvelopeSignatures (AddAuthorizer t a))
  = signaturesSorted (tx_EnvelopeSignatures t).
Proof.
  intros (Hp & He).
  set (t1 := set_Authorizers t (tx_Authorizers t ++ [a])).
  assert (signerList t1 = signerList (AddAuthorizer t a)) as Hl1 by reflexivity.
  assert (forall l, Forall (signerResolved (signerList t)) l ->
                    Forall (signerResolved (signerList t1)) l) as Hres.
  { intros l Hl. eapply Forall_impl; [exact Hl|]. intros s Hs.
    rewrite Hl1, signerList_AddAuthorizer. apply signerResolved_app. exact Hs. }
  assert (forall l, Forall (signerResolved (signerList t)) l ->
                    map (reindex (signerMap t1)) l = l) as Hid.
  { intros l Hl. apply map_reindex_id. eapply Forall_impl; [apply Hres, Hl|].
    intros s. apply signerResolved_current. }
  assert (tx_PayloadSignatures (AddAuthorizer t a) = tx_PayloadSignatures t) as E1.
  { change (map (reindex (signerMap t1)) (tx_PayloadSignatures t) = tx_PayloadSignatures t).
    apply Hid, Hp. }
  assert (tx_EnvelopeSignatures (AddAuthorizer t a) = tx_EnvelopeSignatures t) as E2.
  { change (map (reindex (signerMap t1)) (tx_EnvelopeSignatures t) = tx_EnvelopeSignatures t).
    apply Hid, He. }
  split; [exact E1|]. split; [exact E2|]. split.
  - unfold SignaturesResolved. rewrite E1, E2, <- Hl1. split; apply Hres; assumption.
  - rewrite E1, E2. split; reflexivity.
Qed.

(** ** Adding a signature *)

Lemma compareSignatures_asym (a b : TransactionSignature) :
  compareSignatures a b = true -> compareSignatures b a = false.
Proof.
  unfold compareSignatures.
  destruct (Z.eqb_spec (sig_SignerIndex a) (sig_SignerIndex b)) as [E|E];
    destruct (Z.eqb_spec (sig_SignerIndex b) (sig_SignerIndex a)) as [E'|E'];
    try congruence; rewrite !Z.ltb_lt, !Z.ltb_ge; lia.
Qed.

Lemma insertSorted_sorted (x : TransactionSignature) (l : list TransactionSignature) :
  signaturesSorted l = true ->
  signaturesSorted (insertSorted compareSignatures x l) = true.
Proof.
  induction l as [|y l IH]; intros Hl; [reflexivity|].
  cbn [insertSorted]. destruct (compareSignatures x y) eqn:E.
  - cbn [signaturesSorted]. rewrite (compareSignatures_asym _ _ E). exact Hl.
  - destruct l as [|z l].
    + cbn [insertSorted signaturesSorted]. rewrite E. reflexivity.
    + cbn [signaturesSorted] in Hl. apply andb_true_iff in Hl as (Hzy & Hl).
      specialize (IH Hl). cbn [insertSorted] in IH |- *.
      destruct (compareSignatures x z).
      * cbn [signaturesSorted] in IH |- *. rewrite E, IH. reflexivity.
      * cbn [signaturesSorted] in IH |- *. rewrite Hzy, IH. reflexivity.
Qed.

Lemma sort_Slice_sorted (l : list TransactionSignature) :
  signaturesSorted (sort_Slice compareSignatures l) = true.
Proof.
  unfold sort_Slice.
  assert (forall acc, signaturesSorted acc = true ->
            signaturesSorted
              (foldl (fun acc x => insertSorted compareSignatures x acc) acc l) = true)
    as H.
  { induction l as [|x l IH]; intros acc Hacc; [exact Hacc|].
    cbn [foldl]. apply IH, insertSorted_sorted, Hacc. }
  apply H. reflexivity.
Qed.

Lemma insertSorted_Permutation {A} (less : A -> A -> bool) (x : A) (l : list A) :
  insertSorted less x l ≡ₚ x :: l.
Proof.
  induction l as [|y l IH]; [reflexivity|].
  cbn [insertSorted]. destruct (less x y); [reflexivity|].
  rewrite IH. apply Permutation_swap.
Qed.

Lemma sort_Slice_Permutation {A} (less : A -> A -> bool) (l : list A) :
  sort_Slice less l ≡ₚ l.
Proof.
  unfold sort_Slice.
  assert (forall acc, foldl (fun acc x => insertSorted less x acc) acc l ≡ₚ acc ++ l) as H.
  { induction l as [|x l IH]; intros acc; [rewrite app_nil_r; reflexivity|].
    cbn [foldl]. rewrite IH, insertSorted_Permutation.
    rewrite <- Permutation_middle. reflexivity. }
  apply (H []).
Qed.

Lemma createSignature_current (t : Transaction) (a : Address) (k : Z) (sig : list byte) :
  indexCurrent (signerList t) (createSignature t a k sig).
Proof.
  apply (reindex_current t (mkTransactionSignature a 0 k sig)).
Qed.

Lemma sorted_insertion_current (t : Transaction) (l : list TransactionSignature)
  (a : Address) (k : Z) (sig : list byte) :
  Forall (indexCurrent (signerList t)) l ->
  Forall (indexCurrent (signerList t))
    (sort_Slice compareSignatures (l ++ [createSignature t a k sig])).
Proof.
  intros Hl. rewrite sort_Slice_Permutation. apply Forall_app. split; [exact Hl|].
  constructor; [apply createSignature_current|constructor].
Qed.

(** On a transaction whose signatures carry the indices the signer list
    gives them, [AddPayloadSignature] leaves the payload signatures in
    ascending order of (signer index, key index) and the envelope signatures
    as they were; [AddEnvelopeSignature] does the same with the two
    sequences exchanged. *)
Theorem AddSignature_sorted (t : Transaction) (a : Address) (k : Z) (sig : list byte) :
  IndicesCurrent t ->
  signaturesSorted (tx_PayloadSignatures (AddPayloadSignature t a k sig)) = true /\
  tx_EnvelopeSignatures (AddPayloadSignature t a k sig) = tx_EnvelopeSignatures t /\
  signaturesSorted (tx_EnvelopeSignatures (AddEnvelopeSignature t a k sig)) = true /\
  tx_PayloadSignatures (AddEnvelopeSignature t a k sig) = tx_PayloadSignatures t.
Proof.
  intros (Hp & He).
  unfold AddPayloadSignature, AddEnvelopeSignature. cbv zeta.
  cbn [tx_PayloadSignatures tx_EnvelopeSignatures set_PayloadSignatures
       set_EnvelopeSignatures].
  rewrite !refreshSignerIndex_fixed.
  - cbn [tx_PayloadSignatures tx_EnvelopeSignatures set_PayloadSignatures
         set_EnvelopeSignatures].
    repeat split; try apply sort_Slice_sorted.
  - split; [exact Hp|]. apply (sorted_insertion_current t _ a k sig He).
  - split; [|exact He]. apply (sorted_insertion_current t _ a k sig Hp).
Qed.

(** Whatever the transaction held before, [AddPayloadSignature] leaves the
    payload signatures it had and the new one (address, key index and bytes
    as given), in some order, leaves the envelope signatures in their order,
    and changes no other field; [AddEnvelopeSignature] does the same with the
    two sequences exchanged. *)
Theorem AddSignature_contents (t : Transaction) (a : Address) (k : Z) (sig : list byte) :
  (map signatureContent (tx_PayloadSignatures (AddPayloadSignature t a k sig))
   ≡ₚ map signatureContent (tx_PayloadSignatures t) ++ [(a, k, sig)]) /\
  map signatureContent (tx_EnvelopeSignatures (AddPayloadSignature t a k sig))
  = map signatureContent (tx_EnvelopeSignatures t) /\
  withoutSignatures (AddPayloadSignature t a k sig) = withoutSignatures t /\
  (map signatureContent (tx_EnvelopeSignatures (AddEnvelopeSignature t a k sig))
   ≡ₚ map signatureContent (tx_EnvelopeSignatures t) ++ [(a, k, sig)]) /\
  map signatureContent (tx_PayloadSignatures (AddEnvelopeSignature t a k sig))
  = map signatureContent (tx_PayloadSignatures t) /\
  withoutSignatures (AddEnvelopeSignature t a k sig) = withoutSignatures t.
Proof.
  unfold AddPayloadSignature, AddEnvelopeSignature, refreshSignerIndex. cbv zeta.
  cbn [tx_PayloadSignatures tx_EnvelopeSignatures set_PayloadSignatures
       set_EnvelopeSignatures].
  rewrite !map_reindex_content.
  split; [|split; [reflexivity|split; [reflexivity|split; [|split; reflexivity]]]].
  - rewrite sort_Slice_Permutation, map_app. reflexivity.
  - rewrite sort_Slice_Permutation, map_app. reflexivity.
Qed.

(** ** Decoding never panics on its own *)

Lemma noPanic_bind {A B} (m : outcome A) (k : A -> outcome B) :
  noPanic m -> (forall a, noPanic (k a)) -> noPanic (bind m k).
Proof. destruct m; cbn; auto. Qed.

Create HintDb nopanic.

Ltac no_panic :=
  repeat first
    [ exact I
    | assumption
    | solve [auto with nopanic]
    | apply noPanic_bind; [|intros ?]
    | match goal with
      | |- noPanic (if ?c then _ else _) => destruct c
      | |- noPanic (match ?x with _ => _ end) => destruct x
      end ].

Lemma willRead_noPanic (n : Z) (s : rlp.Stream) : noPanic (rlp.willRead n s).
Proof. unfold rlp.willRead. no_panic. Qed.
#[local] Hint Resolve willRead_noPanic : nopanic.

Lemma readByte_noPanic (s : rlp.Stream) : noPanic (rlp.readByte s).
Proof. unfold rlp.readByte. no_panic. Qed.
#[local] Hint Resolve readByte_noPanic : nopanic.

Lemma readFull_noPanic (n : Z) (s : rlp.Stream) : noPanic (rlp.readFull n s).
Proof. unfold rlp.readFull. no_panic. Qed.
#[local] Hint Resolve readFull_noPanic : nopanic.

Lemma readUint_noPanic (n : Z) (s : rlp.Stream) : noPanic (rlp.readUint n s).
Proof.
  unfold rlp.readUint. no_panic.
Qed.
#[local] Hint Resolve readUint_noPanic : nopanic.

Lemma readKind_noPanic (s : rlp.Stream) : noPanic (rlp.readKind s).
Proof.
  unfold rlp.readKind. pose proof (readByte_noPanic s) as H.
  destruct (rlp.readByte s) as [[b0 s1]|e|p]; [|no_panic|destruct H].
  no_panic.
Qed.
#[local] Hint Resolve readKind_noPanic : nopanic.

Lemma Kind_noPanic (s : rlp.Stream) : noPanic (rlp.Kind_ s).
Proof.
  unfold rlp.Kind_. destruct (rlp.stack s); [apply readKind_noPanic|].
  no_panic.
Qed.

Lemma Bytes_noPanic (s : rlp.Stream) : noPanic (rlp.Bytes s).
Proof.
  unfold rlp.Bytes. apply noPanic_bind; [apply Kind_noPanic|]. intros [t s1].
  destruct (rlp.kind t); [exact I| |exact I].
  apply noPanic_bind; [apply readFull_noPanic|]. intros [b s2]. no_panic.
Qed.

Lemma uint_noPanic (maxbits : Z) (s : rlp.Stream) : noPanic (rlp.uint maxbits s).
Proof.
  unfold rlp.uint. apply noPanic_bind; [apply Kind_noPanic|]. intros [t s1].
  destruct (rlp.kind t); [no_panic| |exact I].
  destruct (maxbits / 8 <? rlp.tsize t); [exact I|].
  pose proof (readUint_noPanic (rlp.tsize t) s1) as H.
  destruct (rlp.readUint (rlp.tsize t) s1) as [[v s2]|e|p]; [no_panic| |destruct H].
  destruct e; exact I.
Qed.

Lemma List_noPanic (s : rlp.Stream) : noPanic (rlp.List_ s).
Proof.
  unfold rlp.List_. apply noPanic_bind; [apply Kind_noPanic|]. intros [t s1].
  destruct (rlp.kind t); exact I.
Qed.

Lemma ListEnd_noPanic (s : rlp.Stream) : noPanic (rlp.ListEnd s).
Proof. unfold rlp.ListEnd. no_panic. Qed.

Lemma decodeField_noPanic {A} (dec : rlp.Stream -> outcome (A * rlp.Stream))
  (s : rlp.Stream) :
  noPanic (dec s) -> noPanic (rlp.decodeField dec s).
Proof.
  unfold rlp.decodeField. intros H. destruct (dec s) as [x|e|p]; [exact I| |destruct H].
  destruct e; exact I.
Qed.

Lemma decodeSliceElems_noPanic {A} (elemdec : rlp.Stream -> outcome (A * rlp.Stream)) :
  (forall s, noPanic (elemdec s)) ->
  forall bound s, noPanic (rlp.decodeSliceElems bound elemdec s).
Proof.
  intros Hdec. induction bound as [|bound IH]; intros s; [exact I|].
  cbn [rlp.decodeSliceElems]. pose proof (Hdec s) as H.
  destruct (elemdec s) as [[x s1]|e|p]; [| |destruct H].
  - apply noPanic_bind; [apply IH|]. intros [xs s2]. exact I.
  - destruct e; exact I.
Qed.

Lemma decodeListSlice_noPanic {A} (elemdec : rlp.Stream -> outcome (A * rlp.Stream)) :
  (forall s, noPanic (elemdec s)) ->
  forall s, noPanic (rlp.decodeListSlice elemdec s).
Proof.
  intros Hdec s. unfold rlp.decodeListSlice.
  apply noPanic_bind; [apply List_noPanic|]. intros [sz s1].
  destruct (sz =? 0).
  - apply noPanic_bind; [apply ListEnd_noPanic|]. intros s2. exact I.
  - apply noPanic_bind; [apply decodeSliceElems_noPanic, Hdec|]. intros [xs s2].
    apply noPanic_bind; [apply ListEnd_noPanic|]. intros s3. exact I.
Qed.

Ltac no_panic_fields :=
  repeat first
    [ exact I
    | apply ListEnd_noPanic
    | apply List_noPanic
    | apply decodeField_noPanic
    | apply decodeListSlice_noPanic; intros ?
    | apply Bytes_noPanic
    | apply uint_noPanic
    | apply noPanic_bind; [|intros [? ?]]
    | apply noPanic_bind; [|intros ?] ].

Lemma decode_payload_noPanic (s : rlp.Stream) : noPanic (decode_payloadCanonicalForm s).
Proof.
  unfold decode_payloadCanonicalForm, rlp.decodeByteSlice, rlp.decodeUint.
  no_panic_fields.
Qed.

Lemma decode_signature_noPanic (s : rlp.Stream) :
  noPanic (decode_transactionSignatureCanonicalForm s).
Proof.
  unfold decode_transactionSignatureCanonicalForm, rlp.decodeByteSlice, rlp.decodeUint.
  no_panic_fields.
Qed.

Lemma decode_signatures_noPanic (s : rlp.Stream) : noPanic (decode_signatures s).
Proof.
  unfold decode_signatures. apply decodeListSlice_noPanic, decode_signature_noPanic.
Qed.

Lemma decodeTransaction_traced_noPanic (msg : list byte) :
  noPanic (decodeTransaction_traced msg).
Proof.
  unfold decodeTransaction_traced. cbv zeta.
  apply noPanic_bind; [apply Kind_noPanic|]. intros [t0 s0].
  destruct (rlp.kind t0); try exact I.
  apply noPanic_bind; [apply List_noPanic|]. intros [sz s].
  apply noPanic_bind; [apply Kind_noPanic|]. intros [t1 s1].
  destruct (rlp.kind t1).
  - apply noPanic_bind; [apply decode_payload_noPanic|]. intros [p s2]. exact I.
  - apply noPanic_bind; [apply decode_payload_noPanic|]. intros [p s2]. exact I.
  - apply noPanic_bind; [apply decode_payload_noPanic|]. intros [p s2].
    apply noPanic_bind; [apply decode_signatures_noPanic|]. intros [ps s3].
    pose proof (Kind_noPanic s3) as H.
    destruct (rlp.Kind_ s3) as [x|e|q]; [| |destruct H].
    + apply noPanic_bind; [apply decode_signatures_noPanic|]. intros [es s4]. exact I.
    + destruct e; exact I.
Qed.

Lemma decodeTransaction_noPanic (msg : list byte) : noPanic (decodeTransaction msg).
Proof.
  unfold decodeTransaction. apply noPanic_bind; [apply decodeTransaction_traced_noPanic|].
  intros [temp br]. exact I.
Qed.

(** ** The outcomes of [DecodeTransaction] *)

Lemma index_outcome {A} (s : list A) (i : Z) :
  (0 <= i < len s /\ exists x, s !! Z.to_nat i = Some x /\ index s i = Ok x) \/
  (~ (0 <= i < len s) /\ index s i = Panic (IndexOutOfRange i (len s))).
Proof.
  unfold index.
  destruct (Z.ltb_spec i 0) as [H0|H0]; [right; split; [lia|reflexivity]|].
  destruct (Z.leb_spec (len s) i) as [H1|H1]; [right; split; [lia|reflexivity]|].
  left. split; [lia|]. cbn [orb].
  destruct (s !! Z.to_nat i) as [x|] eqn:E; [eauto|].
  apply lookup_ge_None in E. unfold len in H1. lia.
Qed.

Lemma resolveSignatures_outcome (signers : list Address)
  (sigs : list transactionSignatureCanonicalForm) :
  (Forall (signerIndexInRange signers) sigs /\
   exists l, resolveSignatures signers sigs = Ok l /\
             Forall (signerResolved signers) l /\
             map TransactionSignature_canonicalForm l
             = map (fun v => mkSigCanonicalForm
                               (to_uint (to_int (scf_SignerIndex v)))
                               (to_uint (to_int (scf_KeyIndex v)))
                               (scf_Signature v)) sigs) \/
  (exists v, v ∈ sigs /\ ~ signerIndexInRange signers v /\
             resolveSignatures signers sigs
             = Panic (IndexOutOfRange (to_int (scf_SignerIndex v)) (len signers))).
Proof.
  induction sigs as [|v sigs IH].
  - left. split; [constructor|]. exists []. repeat split; constructor.
  - cbn [resolveSignatures transactionSignatureFromCanonicalForm sig_SignerIndex
         sig_KeyIndex sig_Signature].
    destruct (index_outcome signers (to_int (scf_SignerIndex v)))
      as [(Hr & a & Ha & ->)|(Hr & ->)].
    + cbn [bind]. destruct IH as [(Hall & l & -> & Hl & Hm)|(w & Hw & Hnw & ->)].
      * left. split; [constructor; assumption|]. eexists. split; [reflexivity|].
        split.
        -- constructor; [|exact Hl]. split; [cbn; lia|exact Ha].
        -- cbn [map]. rewrite Hm. reflexivity.
      * right. exists w. split; [apply elem_of_cons; right; exact Hw|].
        split; [exact Hnw|reflexivity].
    + right. exists v. split; [apply elem_of_cons; left; reflexivity|].
      split; [exact Hr|reflexivity].
Qed.

Lemma length_BytesToAddress (b : list byte) : length (BytesToAddress b) = AddressLength.
Proof.
  unfold BytesToAddress. cbv zeta.
  rewrite length_app, repeat_length, length_drop. unfold AddressLength. lia.
Qed.

Lemma length_BytesToID (b : list byte) : length (BytesToID b) = IdentifierLength.
Proof.
  unfold BytesToID. rewrite length_app, repeat_length, length_take.
  unfold IdentifierLength. lia.
Qed.

(** The transaction [DecodeTransaction] builds from a decoded form and the
    two resolved signature sequences. *)
Lemma DecodeTransaction_unfold (msg : list byte) (temp : transactionCanonicalForm) :
  decodeTransaction msg = Ok temp ->
  DecodeTransaction msg
  = let* ps := resolveSignatures (decodedSigners temp) (tcf_PayloadSignatures temp) in
    let* es := resolveSignatures (decodedSigners temp) (tcf_EnvelopeSignatures temp) in
    Ok (mkTransaction
          (pcf_Script (tcf_Payload temp))
          (pcf_Arguments (tcf_Payload temp))
          (BytesToID (pcf_ReferenceBlockID (tcf_Payload temp)))
          (pcf_GasLimit (tcf_Payload temp))
          (mkProposalKey
             (BytesToAddress (pcf_ProposalKeyAddress (tcf_Payload temp)))
             (to_int (pcf_ProposalKeyIndex (tcf_Payload temp)))
             (pcf_ProposalKeySequenceNumber (tcf_Payload temp)))
          (BytesToAddress (pcf_Payer (tcf_Payload temp)))
          (map BytesToAddress (pcf_Authorizers (tcf_Payload temp)))
          ps es).
Proof.
  intros H. unfold DecodeTransaction. rewrite H. reflexivity.
Qed.

Lemma DecodeTransaction_error (msg : list byte) (e : error) :
  decodeTransaction msg = Error e -> DecodeTransaction msg = Error e.
Proof. intros H. unfold DecodeTransaction. rewrite H. reflexivity. Qed.

(** [DecodeTransaction] returns an error exactly when [decodeTransaction]
    does, and then the same error: no failure of its own, a signer index
    without a signer among them, is reported as an error. *)
Theorem DecodeTransaction_error_iff (msg : list byte) (e : error) :
  DecodeTransaction msg = Error e <-> decodeTransaction msg = Error e.
Proof.
  split.
  - intros H. pose proof (decodeTransaction_noPanic msg) as Hn.
    destruct (decodeTransaction msg) as [temp|e'|p] eqn:E; [| |destruct Hn].
    2:{ unfold DecodeTransaction in H. rewrite E in H. cbn [bind] in H. congruence. }
    exfalso. rewrite (DecodeTransaction_unfold msg temp E) in H.
    destruct (resolveSignatures_outcome (decodedSigners temp) (tcf_PayloadSignatures temp))
      as [(_ & ps & Hps & _)|(v & _ & _ & Hps)]; rewrite Hps in H; [|discriminate H].
    cbn [bind] in H.
    destruct (resolveSignatures_outcome (decodedSigners temp) (tcf_EnvelopeSignatures temp))
      as [(_ & es & Hes & _)|(v & _ & _ & Hes)]; rewrite Hes in H; discriminate H.
  - apply DecodeTransaction_error.
Qed.

(** [DecodeTransaction] panics exactly when the message decodes to a form
    that holds a payload or envelope signature whose signer index, read as
    an [int], is not a position of the signer list of the decoded payload;
    the panic is the out-of-range read of the signer list at such an
    index. *)
Theorem DecodeTransaction_panic_iff (msg : list byte) :
  ((exists p, DecodeTransaction msg = Panic p) <->
   (exists temp,
      decodeTransaction msg = Ok temp /\
      Exists (fun v => ~ signerIndexInRange (decodedSigners temp) v)
        (tcf_PayloadSignatures temp ++ tcf_EnvelopeSignatures temp))) /\
  (forall p, DecodeTransaction msg = Panic p ->
     exists temp v,
       decodeTransaction msg = Ok temp /\
       v ∈ tcf_PayloadSignatures temp ++ tcf_EnvelopeSignatures temp /\
       ~ signerIndexInRange (decodedSigners temp) v /\
       p = IndexOutOfRange (to_int (scf_SignerIndex v)) (len (decodedSigners temp))).
Proof.
  assert (forall p, DecodeTransaction msg = Panic p ->
     exists temp v,
       decodeTransaction msg = Ok temp /\
       v ∈ tcf_PayloadSignatures temp ++ tcf_EnvelopeSignatures temp /\
       ~ signerIndexInRange (decodedSigners temp) v /\
       p = IndexOutOfRange (to_int (scf_SignerIndex v)) (len (decodedSigners temp)))
    as Hpanic.
  { intros p H. pose proof (decodeTransaction_noPanic msg) as Hn.
    destruct (decodeTransaction msg) as [temp|e'|q] eqn:E; [| |destruct Hn].
    2:{ unfold DecodeTransaction in H. rewrite E in H. discriminate H. }
    exists temp. rewrite (DecodeTransaction_unfold msg temp E) in H.
    destruct (resolveSignatures_outcome (decodedSigners temp) (tcf_PayloadSignatures temp))
      as [(_ & ps & Hps & _)|(v & Hv & Hnv & Hps)]; rewrite Hps in H.
    - cbn [bind] in H.
      destruct (resolveSignatures_outcome (decodedSigners temp)
                  (tcf_EnvelopeSignatures temp))
        as [(_ & es & Hes & _)|(v & Hv & Hnv & Hes)]; rewrite Hes in H;
        [discriminate H|].
      exists v. split; [reflexivity|]. split; [apply elem_of_app; right; exact Hv|].
      split; [exact Hnv|]. injection H as <-. reflexivity.
    - exists v. split; [reflexivity|]. split; [apply elem_of_app; left; exact Hv|].
      split; [exact Hnv|]. injection H as <-. reflexivity. }
  split; [|exact Hpanic]. split.
  - intros (p & H). destruct (Hpanic p H) as (temp & v & E & Hv & Hnv & _).
    exists temp. split; [exact E|]. apply Exists_exists. exists v. split; assumption.
  - intros (temp & E & Hex). rewrite (DecodeTransaction_unfold msg temp E).
    apply Exists_app in Hex.
    destruct (resolveSignatures_outcome (decodedSigners temp) (tcf_PayloadSignatures temp))
      as [(Hall & ps & Hps & _)|(v & _ & _ & Hps)]; rewrite Hps; [|eexists; reflexivity].
    cbn [bind].
    destruct (resolveSignatures_outcome (decodedSigners temp) (tcf_EnvelopeSignatures temp))
      as [(Hall' & es & Hes & _)|(v & _ & _ & Hes)]; rewrite Hes; [|eexists; reflexivity].
    exfalso. destruct Hex as [Hex|Hex]; apply Exists_exists in Hex as (v & Hv & Hnv);
      apply Hnv; [eapply (proj1 (Forall_forall _ _) Hall)|eapply (proj1 (Forall_forall _ _) Hall')];
      exact Hv.
Qed.

Lemma signerList_length (t : Transaction) (a : Address) :
  length (pk_Address (tx_ProposalKey t)) = AddressLength ->
  length (tx_Payer t) = AddressLength ->
  Forall (fun a => length a = AddressLength) (tx_Authorizers t) ->
  a ∈ signerList t -> length a = AddressLength.
Proof.
  intros Hp Hy Ha Hin. apply signerList_elem in Hin. unfold signerCandidates in Hin.
  apply elem_of_app in Hin as [Hin|Hin].
  { destruct (decide _); [apply elem_of_nil in Hin; destruct Hin|].
    apply list_elem_of_singleton in Hin as ->. exact Hp. }
  apply elem_of_app in Hin as [Hin|Hin].
  { destruct (decide _); [apply elem_of_nil in Hin; destruct Hin|].
    apply list_elem_of_singleton in Hin as ->. exact Hy. }
  exact (proj1 (Forall_forall _ _) Ha a Hin).
Qed.

(** A transaction returned by [DecodeTransaction] has addresses of
    [AddressLength] bytes and a reference block ID of [IdentifierLength]
    bytes whatever the lengths of the decoded byte strings, and every payload
    and envelope signature in it carries the address that its signer index
    has in the signer list of the transaction. *)
Theorem DecodeTransaction_result (msg : list byte) (t : Transaction) :
  DecodeTransaction msg = Ok t ->
  SignaturesResolved t /\
  length (tx_ReferenceBlockID t) = IdentifierLength /\
  length (pk_Address (tx_ProposalKey t)) = AddressLength /\
  length (tx_Payer t) = AddressLength /\
  Forall (fun a => length a = AddressLength) (tx_Authorizers t) /\
  Forall (fun s => length (sig_Address s) = AddressLength)
    (tx_PayloadSignatures t ++ tx_EnvelopeSignatures t).
Proof.
  intros H.
  destruct (decodeTransaction msg) as [temp|e|p] eqn:E.
  2:{ rewrite (DecodeTransaction_error msg e E) in H. discriminate H. }
  2:{ unfold DecodeTransaction in H. rewrite E in H. discriminate H. }
  rewrite (DecodeTransaction_unfold msg temp E) in H.
  destruct (resolveSignatures_outcome (decodedSigners temp) (tcf_PayloadSignatures temp))
    as [(_ & ps & Hps & Hrp & _)|(v & _ & _ & Hps)]; rewrite Hps in H; [|discriminate H].
  cbn [bind] in H.
  destruct (resolveSignatures_outcome (decodedSigners temp) (tcf_EnvelopeSignatures temp))
    as [(_ & es & Hes & Hre & _)|(v & _ & _ & Hes)]; rewrite Hes in H; [|discriminate H].
  cbn [bind] in H. injection H as <-.
  assert (Forall (fun a => length a = AddressLength)
            (map BytesToAddress (pcf_Authorizers (tcf_Payload temp)))) as Hauth.
  { apply Forall_forall. intros a Ha. apply list_elem_of_fmap in Ha as (b & -> & _).
    apply length_BytesToAddress. }
  split; [split; assumption|].
  cbn [tx_ReferenceBlockID tx_ProposalKey pk_Address tx_Payer tx_Authorizers
       tx_PayloadSignatures tx_EnvelopeSignatures].
  split; [apply length_BytesToID|]. split; [apply length_BytesToAddress|].
  split; [apply length_BytesToAddress|]. split; [exact Hauth|].
  apply Forall_app. split; (eapply Forall_impl; [eassumption|]);
    intros s (_ & Hs); apply list_elem_of_lookup_2 in Hs;
    (eapply signerList_length; [| | |exact Hs]);
    cbn [tx_ProposalKey pk_Address tx_Payer tx_Authorizers];
    first [apply length_BytesToAddress|exact Hauth].
Qed.

Lemma DecodeTransaction_result_witness :
  exists t,
    DecodeTransaction msg_scenario_signed = Ok t /\
    SignaturesResolved t /\
    length (tx_Payer t) = AddressLength.
Proof.
  eexists. split; [vm_compute; reflexivity|].
  match goal with
  | |- SignaturesResolved ?t /\ _ =>
      pose proof (DecodeTransaction_result msg_scenario_signed t) as H
  end.
  destruct H as (H1 & _ & _ & H2 & _); [vm_compute; reflexivity|].
  split; [exact H1|exact H2].
Defined.

(** A message that is empty, or whose first byte is below 0xC0 and so does
    not open a list, is rejected by [DecodeTransaction] with an error: it
    yields no transaction and no panic. *)
Theorem DecodeTransaction_rejects_non_list (msg : list byte) :
  (msg = [] \/ exists b rest, msg = b :: rest /\ b2z b < 192) ->
  exists e, DecodeTransaction msg = Error e.
Proof.
  intros Hmsg.
  assert (exists e, decodeTransaction msg = Error e) as (e & He);
    [|exists e; apply DecodeTransaction_error, He].
  pose proof (decodeTransaction_noPanic msg) as Hn.
  unfold decodeTransaction, decodeTransaction_traced in *. cbv zeta in *.
  assert (rlp.Kind_ (rlp.NewStream msg) = rlp.readKind (rlp.mkStream msg [])) as HK
    by reflexivity.
  rewrite HK in *. clear HK.
  destruct Hmsg as [->|(b & rest & -> & Hb)]; [eexists; reflexivity|].
  unfold rlp.readKind in *.
  change (rlp.readByte (rlp.mkStream (b :: rest) []))
    with (@Ok (byte * rlp.Stream) (b, rlp.mkStream rest [])) in *.
  cbv beta iota zeta in *.
  destruct (b2z b <? 128); [eexists; reflexivity|].
  destruct (b2z b <? 184); [eexists; reflexivity|].
  destruct (Z.ltb_spec (b2z b) 192) as [_|?]; [|lia].
  destruct (rlp.readUint (b2z b - 183) (rlp.mkStream rest [])) as [[sz s2]|e|p];
    cbn [bind] in *; [|eexists; reflexivity|destruct Hn].
  destruct (sz <? 56); eexists; reflexivity.
Qed.

Lemma DecodeTransaction_rejects_non_list_witness :
  exists e, DecodeTransaction [Byte.x80] = Error e.
Proof.
  apply DecodeTransaction_rejects_non_list. right. exists Byte.x80, [].
  split; [reflexivity|vm_compute; reflexivity].
Defined.

(** ** The three messages *)

Lemma payloadCanonicalForm_inv (t t' : Transaction) (form : payloadCanonicalForm) :
  Transaction_payloadCanonicalForm t = Ok (form, t') ->
  NonEmptyArguments t /\
  form = payloadFormOf (strippedTransaction t) /\
  t' = strippedTransaction t.
Proof.
  intros H. destruct (decide ([] ∈ tx_Arguments t)) as [Hin|Hin].
  - unfold Transaction_payloadCanonicalForm in H.
    rewrite (stripArguments_panic _ Hin) in H. discriminate H.
  - apply nonempty_arguments in Hin.
    rewrite (payloadCanonicalForm_stripped t Hin) in H. injection H as <- <-.
    split; [exact Hin|]. split; reflexivity.
Qed.

Lemma PayloadMessage_inv (t t' : Transaction) (b : list byte) :
  PayloadMessage t = Ok (b, t') ->
  NonEmptyArguments t /\
  b = encode_payloadCanonicalForm (payloadFormOf (strippedTransaction t)) /\
  t' = strippedTransaction t.
Proof.
  unfold PayloadMessage. intros H.
  destruct (Transaction_payloadCanonicalForm t) as [[form t0]|e|p] eqn:E;
    try discriminate H.
  apply payloadCanonicalForm_inv in E as (Hne & -> & ->).
  cbn [bind] in H. injection H as <- <-. auto.
Qed.

Lemma EnvelopeMessage_inv (t t' : Transaction) (b : list byte) :
  EnvelopeMessage t = Ok (b, t') ->
  NonEmptyArguments t /\
  b = encode_envelopeCanonicalForm
        (mkEnvelopeCanonicalForm (payloadFormOf (strippedTransaction t))
           (signaturesList_canonicalForm (tx_PayloadSignatures t))) /\
  t' = strippedTransaction t.
Proof.
  unfold EnvelopeMessage, Transaction_envelopeCanonicalForm. intros H.
  destruct (Transaction_payloadCanonicalForm t) as [[form t0]|e|p] eqn:E;
    try discriminate H.
  apply payloadCanonicalForm_inv in E as (Hne & -> & ->).
  cbn [bind] in H. injection H as <- <-. auto.
Qed.

Lemma Encode_inv (t t' : Transaction) (b : list byte) :
  Encode t = Ok (b, t') ->
  NonEmptyArguments t /\
  b = encode_transactionCanonicalForm
        (mkTransactionCanonicalForm (payloadFormOf (strippedTransaction t))
           (signaturesList_canonicalForm (tx_PayloadSignatures t))
           (signaturesList_canonicalForm (tx_EnvelopeSignatures t))) /\
  t' = strippedTransaction t.
Proof.
  unfold Encode. intros H.
  destruct (Transaction_payloadCanonicalForm t) as [[form t0]|e|p] eqn:E;
    try discriminate H.
  apply payloadCanonicalForm_inv in E as (Hne & -> & ->).
  cbn [bind] in H. injection H as <- <-. auto.
Qed.

(** The three messages never coincide: for transactions of the Go types,
    equal or not, the bytes of [PayloadMessage], of [EnvelopeMessage] and of
    [Encode] are pairwise different, and [decodeTransaction] leaves through
    a different return statement for each. *)
Theorem messages_disjoint (t1 t2 t3 t1' t2' t3' : Transaction) (b1 b2 b3 : list byte) :
  WellTyped t1 -> WellTyped t2 -> WellTyped t3 ->
  PayloadMessage t1 = Ok (b1, t1') ->
  EnvelopeMessage t2 = Ok (b2, t2') ->
  Encode t3 = Ok (b3, t3') ->
  len b1 < two64 -> len b2 < two64 -> len b3 < two64 ->
  (exists temp, decodeTransaction_traced b1 = Ok (temp, PayloadOnly)) /\
  (exists temp, decodeTransaction_traced b2 = Ok (temp, EnvelopeAtEOL)) /\
  (exists temp, decodeTransaction_traced b3 = Ok (temp, FullForm)) /\
  b1 <> b2 /\ b1 <> b3 /\ b2 <> b3.
Proof.
  intros Hw1 Hw2 Hw3 H1 H2 H3 Hl1 Hl2 Hl3.
  apply PayloadMessage_inv in H1 as (_ & -> & _).
  apply EnvelopeMessage_inv in H2 as (_ & -> & _).
  apply Encode_inv in H3 as (_ & -> & _).
  pose proof (decodeTransaction_payload _
                (wf_payloadFormOf _ (WellTyped_stripped _ Hw1)) Hl1) as D1.
  pose proof (decodeTransaction_envelope
                (mkEnvelopeCanonicalForm (payloadFormOf (strippedTransaction t2))
                   (signaturesList_canonicalForm (tx_PayloadSignatures t2)))
                (wf_payloadFormOf _ (WellTyped_stripped _ Hw2))
                (wf_signaturesList _) Hl2) as D2.
  pose proof (decodeTransaction_full
                (mkTransactionCanonicalForm (payloadFormOf (strippedTransaction t3))
                   (signaturesList_canonicalForm (tx_PayloadSignatures t3))
                   (signaturesList_canonicalForm (tx_EnvelopeSignatures t3)))
                (wf_payloadFormOf _ (WellTyped_stripped _ Hw3))
                (wf_signaturesList _) (wf_signaturesList _) Hl3) as D3.
  split; [eexists; exact D1|]. split; [eexists; exact D2|]. split; [eexists; exact D3|].
  split; [|split]; intros Heq; rewrite Heq in *; congruence.
Qed.

Lemma to_uint_inj (x y : Z) : int_range x -> int_range y -> to_uint x = to_uint y -> x = y.
Proof.
  intros Hx Hy H. rewrite <- (to_int_to_uint x Hx), <- (to_int_to_uint y Hy), H.
  reflexivity.
Qed.

Lemma map_Address_Bytes (l : list Address) : map Address_Bytes l = l.
Proof. induction l as [|a l IH]; [reflexivity|]. cbn [map]. rewrite IH. reflexivity. Qed.

Lemma payloadFormOf_inj (t1 t2 : Transaction) :
  WellTyped t1 -> WellTyped t2 ->
  payloadFormOf t1 = payloadFormOf t2 ->
  withoutSignatures t1 = withoutSignatures t2.
Proof.
  intros (_ & _ & _ & Hk1 & _) (_ & _ & _ & Hk2 & _) H.
  unfold payloadFormOf in H. rewrite !map_Address_Bytes in H.
  unfold Address_Bytes in H.
  destruct t1 as [s1 a1 r1 g1 [pa1 pk1 ps1] y1 u1 p1 e1],
           t2 as [s2 a2 r2 g2 [pa2 pk2 ps2] y2 u2 p2 e2].
  cbn in H, Hk1, Hk2. injection H as -> -> -> -> -> Hk -> -> ->.
  apply (to_uint_inj _ _ Hk1 Hk2) in Hk as ->. reflexivity.
Qed.


(** The payload message fixes the payload: two transactions of the Go types
    with the same [PayloadMessage] bytes are left, by that call, with the
    same script, arguments, reference block ID, gas limit, proposal key,
    payer and authorizers. *)
Theorem PayloadMessage_binds (t1 t2 t1' t2' : Transaction) (b : list byte) :
  WellTyped t1 -> WellTyped t2 ->
  PayloadMessage t1 = Ok (b, t1') ->
  PayloadMessage t2 = Ok (b, t2') ->
  len b < two64 ->
  withoutSignatures t1' = withoutSignatures t2'.
Proof.
  intros Hw1 Hw2 H1 H2 Hlen.
  apply PayloadMessage_inv in H1 as (_ & E1 & ->).
  apply PayloadMessage_inv in H2 as (_ & E2 & ->).
  pose proof Hlen as Hlen'. rewrite E1 in Hlen. rewrite E2 in Hlen'.
  pose proof (decodeTransaction_payload _
                (wf_payloadFormOf _ (WellTyped_stripped _ Hw1)) Hlen) as D1.
  pose proof (decodeTransaction_payload _
                (wf_payloadFormOf _ (WellTyped_stripped _ Hw2)) Hlen') as D2.
  rewrite <- E1 in D1. rewrite <- E2, D1 in D2.
  apply payloadFormOf_inj; [apply WellTyped_stripped, Hw1|apply WellTyped_stripped, Hw2|].
  congruence.
Qed.



(** ** Building a message twice *)

Lemma stripTrailingNewline_fixed (arg : list byte) :
  arg <> [] -> (stripTrailingNewline arg = arg <-> last arg <> Some Byte.x0a).
Proof.
  intros Hne. split.
  - intros H Hl. unfold stripTrailingNewline in H. rewrite decide_True in H by exact Hl.
    apply (f_equal length) in H. rewrite length_take in H.
    destruct arg; [congruence|]. cbn [length] in H. lia.
  - apply stripTrailingNewline_other.
Qed.

Lemma strippedTransaction_fixed (t : Transaction) :
  strippedTransaction t = t <-> Forall (fun arg => stripTrailingNewline arg = arg) (tx_Arguments t).
Proof.
  unfold strippedTransaction, set_Arguments. split.
  - intros H. apply (f_equal tx_Arguments) in H. cbn [tx_Arguments] in H.
    induction (tx_Arguments t) as [|a l IH]; [constructor|].
    cbn [map] in H. injection H as Ha Hl. constructor; [exact Ha|apply IH, Hl].
  - intros H. assert (map stripTrailingNewline (tx_Arguments t) = tx_Arguments t) as ->.
    { induction H as [|a l Ha _ IH]; [reflexivity|]. cbn [map]. rewrite Ha, IH. reflexivity. }
    destruct t; reflexivity.
Qed.

Lemma StableArguments_iff (t : Transaction) :
  StableArguments t <-> NonEmptyArguments t /\ strippedTransaction t = t.
Proof.
  unfold StableArguments, NonEmptyArguments. rewrite strippedTransaction_fixed.
  rewrite <- Forall_and. apply Forall_iff. intros arg. split.
  - intros (Hne & Hl). split; [exact Hne|]. apply stripTrailingNewline_fixed; assumption.
  - intros (Hne & Hs). split; [exact Hne|]. apply stripTrailingNewline_fixed; assumption.
Qed.

(** A message built a second time.  After a first call of [PayloadMessage],
    [EnvelopeMessage] or [Encode], the same call on the transaction as the
    first call left it returns the same bytes and leaves the transaction
    unchanged exactly when no argument is then empty or still ends in a
    newline; when an argument was the single newline byte, all three calls
    now panic. *)
Theorem message_built_twice (t t' : Transaction) (b : list byte) :
  (PayloadMessage t = Ok (b, t') ->
     (PayloadMessage t' = Ok (b, t') <-> StableArguments t')) /\
  (EnvelopeMessage t = Ok (b, t') ->
     (EnvelopeMessage t' = Ok (b, t') <-> StableArguments t')) /\
  (Encode t = Ok (b, t') ->
     (Encode t' = Ok (b, t') <-> StableArguments t')) /\
  (PayloadMessage t = Ok (b, t') \/ EnvelopeMessage t = Ok (b, t') \/ Encode t = Ok (b, t') ->
   [Byte.x0a] ∈ tx_Arguments t ->
     PayloadMessage t' = Panic (IndexOutOfRange (-1) 0) /\
     EnvelopeMessage t' = Panic (IndexOutOfRange (-1) 0) /\
     Encode t' = Panic (IndexOutOfRange (-1) 0)).
Proof.
  split; [|split; [|split]].
  - intros H. apply PayloadMessage_inv in H as (_ & -> & ->).
    rewrite StableArguments_iff. split.
    + intros H. apply PayloadMessage_inv in H as (Hne & _ & Hs). auto.
    + intros (Hne & Hs). unfold PayloadMessage.
      rewrite (payloadCanonicalForm_stripped _ Hne). cbn [bind]. rewrite Hs. reflexivity.
  - intros H. apply EnvelopeMessage_inv in H as (_ & -> & ->).
    rewrite StableArguments_iff. split.
    + intros H. apply EnvelopeMessage_inv in H as (Hne & _ & Hs). auto.
    + intros (Hne & Hs). unfold EnvelopeMessage, Transaction_envelopeCanonicalForm.
      rewrite (payloadCanonicalForm_stripped _ Hne). cbn [bind]. rewrite Hs. reflexivity.
  - intros H. apply Encode_inv in H as (_ & -> & ->).
    rewrite StableArguments_iff. split.
    + intros H. apply Encode_inv in H as (Hne & _ & Hs). auto.
    + intros (Hne & Hs). unfold Encode.
      rewrite (payloadCanonicalForm_stripped _ Hne). cbn [bind]. rewrite Hs. reflexivity.
  - intros H Hin.
    assert (t' = strippedTransaction t) as ->.
    { destruct H as [H|[H|H]];
        [apply PayloadMessage_inv in H|apply EnvelopeMessage_inv in H|apply Encode_inv in H];
        apply H. }
    assert ([] ∈ tx_Arguments (strippedTransaction t)) as Hin'.
    { cbn [strippedTransaction set_Arguments tx_Arguments].
      apply list_elem_of_fmap. exists [Byte.x0a]. split; [reflexivity|exact Hin]. }
    assert (Transaction_payloadCanonicalForm (strippedTransaction t)
            = Panic (IndexOutOfRange (-1) 0)) as Hp.
    { unfold Transaction_payloadCanonicalForm.
      rewrite (stripArguments_panic _ Hin'). reflexivity. }
    unfold PayloadMessage, EnvelopeMessage, Transaction_envelopeCanonicalForm, Encode.
    rewrite Hp. repeat split; reflexivity.
Qed.

Lemma message_built_twice_witness :
  exists b t',
    PayloadMessage tx_newline = Ok (b, t') /\
    PayloadMessage t' = Ok (b, t').
Proof.
  eexists _, _. split; [vm_compute; reflexivity|].
  match goal with
  | |- PayloadMessage ?t' = Ok (?b, _) =>
      apply (proj1 (message_built_twice tx_newline t' b))
  end.
  - vm_compute. reflexivity.
  - unfold StableArguments.
    match goal with
    | |- Forall ?P ?l => let v := eval vm_compute in l in change (Forall P v)
    end.
    constructor; [|constructor]. split; [discriminate|]. vm_compute. discriminate.
Defined.

(** ** The further properties on concrete transactions *)

Lemma AddAuthorizer_signerList_witness :
  signerList (AddAuthorizer tx_scenario addressA) = signerList tx_scenario /\
  signerList (AddAuthorizer tx_scenario addressB) = signerList tx_scenario ++ [addressB].
Proof.
  split.
  - apply (proj1 (AddAuthorizer_signerList tx_scenario addressA)).
    apply (list_elem_of_lookup_2 _ 0%nat). vm_compute. reflexivity.
  - apply (proj1 (proj2 (AddAuthorizer_signerList tx_scenario addressB))).
    intros H. apply list_elem_of_lookup_1 in H as (i & Hi).
    destruct i as [|i]; vm_compute in Hi; [discriminate Hi|].
    destruct i; discriminate Hi.
Defined.

Lemma AddAuthorizer_keeps_signatures_witness :
  tx_PayloadSignatures (AddAuthorizer tx_scenario_signed addressB)
  = tx_PayloadSignatures tx_scenario_signed /\
  tx_EnvelopeSignatures (AddAuthorizer tx_scenario_signed addressB)
  = tx_EnvelopeSignatures tx_scenario_signed.
Proof.
  destruct (AddAuthorizer_keeps_signatures tx_scenario_signed addressB)
    as (H1 & H2 & _); [concrete|].
  split; assumption.
Defined.

Lemma AddSignature_sorted_witness :
  signaturesSorted
    (tx_PayloadSignatures (AddPayloadSignature tx_scenario_signed addressA 1 [Byte.x07]))
  = true.
Proof.
  apply (AddSignature_sorted tx_scenario_signed addressA 1 [Byte.x07]).
  unfold tx_scenario_signed, AddEnvelopeSignature. cbv zeta.
  apply refreshSignerIndex_current.
Defined.

Lemma DecodeTransaction_error_iff_witness :
  DecodeTransaction [Byte.x05] = Error errUnexpectedType.
Proof.
  apply (proj2 (DecodeTransaction_error_iff [Byte.x05] errUnexpectedType)).
  vm_compute. reflexivity.
Defined.

Lemma DecodeTransaction_panic_iff_witness :
  exists temp v,
    decodeTransaction msg_signer_index_out_of_range = Ok temp /\
    v ∈ tcf_PayloadSignatures temp ++ tcf_EnvelopeSignatures temp /\
    ~ signerIndexInRange (decodedSigners temp) v /\
    IndexOutOfRange 1 1
    = IndexOutOfRange (to_int (scf_SignerIndex v)) (len (decodedSigners temp)).
Proof.
  apply (proj2 (DecodeTransaction_panic_iff msg_signer_index_out_of_range)).
  vm_compute. reflexivity.
Defined.

Lemma messages_disjoint_witness :
  exists b1 b2 b3 t1' t2' t3',
    PayloadMessage tx_scenario_signed = Ok (b1, t1') /\
    EnvelopeMessage tx_scenario_signed = Ok (b2, t2') /\
    Encode tx_scenario_signed = Ok (b3, t3') /\
    b1 <> b2 /\ b1 <> b3 /\ b2 <> b3.
Proof.
  eexists _, _, _, _, _, _.
  split; [vm_compute; reflexivity|]. split; [vm_compute; reflexivity|].
  split; [vm_compute; reflexivity|].
  match goal with
  | |- ?b1 <> ?b2 /\ ?b1 <> ?b3 /\ _ =>
      destruct (messages_disjoint tx_scenario_signed tx_scenario_signed tx_scenario_signed
                  (strippedTransaction tx_scenario_signed)
                  (strippedTransaction tx_scenario_signed)
                  (strippedTransaction tx_scenario_signed) b1 b2 b3)
        as (_ & _ & _ & H)
  end; [concrete|concrete|concrete| | | | | | |exact H];
    vm_compute; reflexivity.
Defined.

Lemma PayloadMessage_binds_witness :
  withoutSignatures (strippedTransaction tx_newline)
  = withoutSignatures (strippedTransaction (strippedTransaction tx_newline)).
Proof.
  eapply (PayloadMessage_binds tx_newline (strippedTransaction tx_newline)).
  - concrete.
  - concrete.
  - vm_compute. reflexivity.
  - vm_compute. reflexivity.
  - vm_compute. reflexivity.
Defined.


(** ** Events *)

Lemma decodes_app_inj {A} (dec : rlp.Stream -> outcome (A * rlp.Stream))
  (e1 e2 r1 r2 : list byte) (x1 x2 : A) :
  decodes dec e1 x1 -> decodes dec e2 x2 ->
  e1 ++ r1 = e2 ++ r2 -> x1 = x2 /\ r1 = r2.
Proof.
  intros D1 D2 H. specialize (D1 r1 [] I). specialize (D2 r2 [] I).
  rewrite H, D2 in D1. injection D1 as -> ->. auto.
Qed.

Lemma writeList_inj (c1 c2 : list byte) :
  len c1 < two64 -> len c2 < two64 ->
  rlp.writeList c1 = rlp.writeList c2 -> c1 = c2.
Proof.
  intros H1 H2 H.
  pose proof (List_ok c1 [] [] H1 I) as L1.
  pose proof (List_ok c2 [] [] H2 I) as L2.
  rewrite H, L2 in L1. injection L1 as _ Hc. rewrite !app_nil_r in Hc. congruence.
Qed.

Lemma to_uint32_range (x : Z) : 0 <= to_uint32 x < two64.
Proof.
  unfold to_uint32, two64. pose proof (Z.mod_pos_bound x (2 ^ 32)). lia.
Qed.

(** [Event.Encode] depends on the transaction ID and the event index and on
    nothing else, and it tells any two such pairs apart: events of the Go
    types have the same encoding exactly when they agree on both. *)
Theorem Event_Encode_injective {C} (e1 e2 : Event C) :
  int_range (ev_EventIndex e1) -> int_range (ev_EventIndex e2) ->
  len (Event_Encode e1) < two64 -> len (Event_Encode e2) < two64 ->
  (Event_Encode e1 = Event_Encode e2 <->
   ev_TransactionID e1 = ev_TransactionID e2 /\ ev_EventIndex e1 = ev_EventIndex e2).
Proof.
  intros Hi1 Hi2 Hl1 Hl2. split.
  - unfold Event_Encode, mustRLPEncode in *. intros H.
    pose proof (len_le_writeList
                  (rlp.writeBytes (ev_TransactionID e1) ++
                   rlp.writeUint64 (to_uint (ev_EventIndex e1)))) as B1.
    pose proof (len_le_writeList
                  (rlp.writeBytes (ev_TransactionID e2) ++
                   rlp.writeUint64 (to_uint (ev_EventIndex e2)))) as B2.
    apply writeList_inj in H; [|lia|lia].
    rewrite len_app in B1, B2.
    pose proof (len_le_writeBytes (ev_TransactionID e1)).
    pose proof (len_le_writeBytes (ev_TransactionID e2)).
    pose proof (len_nonneg (rlp.writeUint64 (to_uint (ev_EventIndex e1)))).
    pose proof (len_nonneg (rlp.writeUint64 (to_uint (ev_EventIndex e2)))).
    apply (decodes_app_inj rlp.Bytes _ _ _ _ (ev_TransactionID e1) (ev_TransactionID e2))
      in H as (Hid & H); [|apply Bytes_ok; lia|apply Bytes_ok; lia].
    split; [exact Hid|].
    rewrite <- (app_nil_r (rlp.writeUint64 (to_uint (ev_EventIndex e1)))) in H.
    rewrite <- (app_nil_r (rlp.writeUint64 (to_uint (ev_EventIndex e2)))) in H.
    apply (decodes_app_inj (rlp.uint 64) _ _ _ _
             (to_uint (ev_EventIndex e1)) (to_uint (ev_EventIndex e2)))
      in H as (Hix & _); [|apply uint_ok, to_uint_range|apply uint_ok, to_uint_range].
    apply to_uint_inj; assumption.
  - intros (Hid & Hix). unfold Event_Encode. rewrite Hid, Hix. reflexivity.
Qed.

(** [Event.Fingerprint] tells events apart by transaction ID, type and
    payload, and by the event index and the transaction index only up to
    their low 32 bits: two events have the same fingerprint exactly when the
    three byte strings agree and each of the two indices agrees modulo
    2^32. *)
Theorem Event_Fingerprint_injective {C} (e1 e2 : Event C) :
  len (Event_Fingerprint e1) < two64 -> len (Event_Fingerprint e2) < two64 ->
  (Event_Fingerprint e1 = Event_Fingerprint e2 <->
   ev_TransactionID e1 = ev_TransactionID e2 /\
   ev_EventIndex e1 mod 2 ^ 32 = ev_EventIndex e2 mod 2 ^ 32 /\
   ev_Type e1 = ev_Type e2 /\
   ev_TransactionIndex e1 mod 2 ^ 32 = ev_TransactionIndex e2 mod 2 ^ 32 /\
   ev_Payload e1 = ev_Payload e2).
Proof.
  intros Hl1 Hl2. split.
  - unfold Event_Fingerprint, mustRLPEncode in *. intros H.
    match type of Hl1 with len (rlp.writeList ?c) < _ =>
      pose proof (len_le_writeList c) as B1 end.
    match type of Hl2 with len (rlp.writeList ?c) < _ =>
      pose proof (len_le_writeList c) as B2 end.
    apply writeList_inj in H; [|lia|lia].
    rewrite !len_app in B1, B2.
    pose proof (len_le_writeBytes (ev_TransactionID e1)).
    pose proof (len_le_writeBytes (ev_TransactionID e2)).
    pose proof (len_le_writeBytes (ev_Type e1)).
    pose proof (len_le_writeBytes (ev_Type e2)).
    pose proof (len_le_writeBytes (ev_Payload e1)).
    pose proof (len_le_writeBytes (ev_Payload e2)).
    pose proof (len_nonneg (rlp.writeBytes (ev_TransactionID e1))).
    pose proof (len_nonneg (rlp.writeBytes (ev_TransactionID e2))).
    pose proof (len_nonneg (rlp.writeBytes (ev_Type e1))).
    pose proof (len_nonneg (rlp.writeBytes (ev_Type e2))).
    pose proof (len_nonneg (rlp.writeBytes (ev_Payload e1))).
    pose proof (len_nonneg (rlp.writeBytes (ev_Payload e2))).
    pose proof (len_nonneg (rlp.writeUint64 (to_uint32 (ev_EventIndex e1)))).
    pose proof (len_nonneg (rlp.writeUint64 (to_uint32 (ev_EventIndex e2)))).
    pose proof (len_nonneg (rlp.writeUint64 (to_uint32 (ev_TransactionIndex e1)))).
    pose proof (len_nonneg (rlp.writeUint64 (to_uint32 (ev_TransactionIndex e2)))).
    pose proof (len_nonneg (ev_TransactionID e1)).
    pose proof (len_nonneg (ev_TransactionID e2)).
    pose proof (len_nonneg (ev_Type e1)).
    pose proof (len_nonneg (ev_Type e2)).
    apply (decodes_app_inj rlp.Bytes _ _ _ _ (ev_TransactionID e1) (ev_TransactionID e2))
      in H as (Hid & H); [|apply Bytes_ok; lia|apply Bytes_ok; lia].
    apply (decodes_app_inj (rlp.uint 64) _ _ _ _
             (to_uint32 (ev_EventIndex e1)) (to_uint32 (ev_EventIndex e2)))
      in H as (Hix & H); [|apply uint_ok, to_uint32_range|apply uint_ok, to_uint32_range].
    apply (decodes_app_inj rlp.Bytes _ _ _ _ (ev_Type e1) (ev_Type e2))
      in H as (Hty & H); [|apply Bytes_ok; lia|apply Bytes_ok; lia].
    apply (decodes_app_inj (rlp.uint 64) _ _ _ _
             (to_uint32 (ev_TransactionIndex e1)) (to_uint32 (ev_TransactionIndex e2)))
      in H as (Htx & H); [|apply uint_ok, to_uint32_range|apply uint_ok, to_uint32_range].
    rewrite <- (app_nil_r (rlp.writeBytes (ev_Payload e1))) in H.
    rewrite <- (app_nil_r (rlp.writeBytes (ev_Payload e2))) in H.
    apply (decodes_app_inj rlp.Bytes _ _ _ _ (ev_Payload e1) (ev_Payload e2))
      in H as (Hpl & _); [|apply Bytes_ok; lia|apply Bytes_ok; lia].
    auto.
  - intros (Hid & Hix & Hty & Htx & Hpl). unfold Event_Fingerprint, to_uint32.
    rewrite Hid, Hix, Hty, Htx, Hpl. reflexivity.
Qed.

Lemma Event_Encode_injective_witness :
  Event_Encode event_sample = Event_Encode event_sample_other /\
  Event_Encode event_sample <> Event_Encode event_sample_far.
Proof.
  pose proof (Event_Encode_injective event_sample event_sample_other) as H1.
  pose proof (Event_Encode_injective event_sample event_sample_far) as H2.
  split.
  - apply H1; try (vm_compute; split; [discriminate|reflexivity]; fail);
      try (vm_compute; reflexivity). split; reflexivity.
  - intros H. apply H2 in H; try (vm_compute; split; [discriminate|reflexivity]; fail);
      try (vm_compute; reflexivity).
    destruct H as (_ & H). vm_compute in H. discriminate H.
Defined.

Lemma Event_Fingerprint_injective_witness :
  Event_Fingerprint event_sample = Event_Fingerprint event_sample_far /\
  Event_Fingerprint event_sample <> Event_Fingerprint event_sample_other.
Proof.
  pose proof (Event_Fingerprint_injective event_sample event_sample_far) as H1.
  pose proof (Event_Fingerprint_injective event_sample event_sample_other) as H2.
  split.
  - apply H1; try (vm_compute; reflexivity). repeat split; vm_compute; reflexivity.
  - intros H. apply H2 in H; try (vm_compute; reflexivity).
    destruct H as (_ & _ & H & _). vm_compute in H. discriminate H.
Defined.

(** ** Transaction status *)

(** [TransactionStatus.String] names the six statuses, each with a name of
    its own, and panics on every other value of the type: the array it
    indexes has six elements. *)
Theorem TransactionStatus_String_spec (s : Z) :
  map TransactionStatus_String
    [TransactionStatusUnknown; TransactionStatusPending; TransactionStatusFinalized;
     TransactionStatusExecuted; TransactionStatusSealed; TransactionStatusExpired]
  = [Ok "UNKNOWN"%string; Ok "PENDING"%string; Ok "FINALIZED"%string;
     Ok "EXECUTED"%string; Ok "SEALED"%string; Ok "EXPIRED"%string] /\
  (0 <= s <= 5 -> exists name, TransactionStatus_String s = Ok name) /\
  (~ (0 <= s <= 5) -> TransactionStatus_String s = Panic (IndexOutOfRange s 6)) /\
  (forall s' name,
     TransactionStatus_String s = Ok name -> TransactionStatus_String s' = Ok name ->
     s = s').
Proof.
  assert (forall x, 0 <= x <= 5 -> x = 0 \/ x = 1 \/ x = 2 \/ x = 3 \/ x = 4 \/ x = 5)
    as Hcases by (intros; lia).
  assert (forall x, ~ (0 <= x <= 5) ->
            TransactionStatus_String x = Panic (IndexOutOfRange x 6)) as Hout.
  { intros x Hx. unfold TransactionStatus_String.
    destruct (index_outcome
                ["UNKNOWN"%string; "PENDING"%string; "FINALIZED"%string;
                 "EXECUTED"%string; "SEALED"%string; "EXPIRED"%string] x)
      as [(Hr & _)|(_ & ->)]; [|reflexivity].
    change (len _) with 6 in Hr. lia. }
  split; [reflexivity|]. split; [|split; [apply Hout|]].
  - intros Hs. destruct (Hcases s Hs) as [->|[->|[->|[->|[->| ->]]]]];
      eexists; reflexivity.
  - intros s' name H H'.
    destruct (decide (0 <= s <= 5)) as [Hs|Hs]; [|rewrite (Hout s Hs) in H; discriminate H].
    destruct (decide (0 <= s' <= 5)) as [Hs'|Hs'];
      [|rewrite (Hout s' Hs') in H'; discriminate H'].
    destruct (Hcases s Hs) as [->|[->|[->|[->|[->| ->]]]]];
      destruct (Hcases s' Hs') as [->|[->|[->|[->|[->| ->]]]]];
      try reflexivity; vm_compute in H, H'; congruence.
Qed.

Lemma TransactionStatus_String_spec_witness :
  TransactionStatus_String 4 = Ok "SEALED"%string /\
  TransactionStatus_String 6 = Panic (IndexOutOfRange 6 6) /\
  TransactionStatus_String (-1) = Panic (IndexOutOfRange (-1) 6).
Proof.
  split; [reflexivity|].
  split; apply (TransactionStatus_String_spec _); lia.
Defined.

(** ** Arguments by index *)

(** [Argument] never reads outside the arguments: a negative index and an
    index at or past their number are answered with an error, every other
    index with the decoding of the argument at that index; and after
    [AddRawArgument] the new argument is the one at the index that was the
    number of arguments, the earlier ones staying where they were. *)
Theorem Argument_bounds {V E} (decode : list byte -> V + E) (t : Transaction) (i : Z) :
  (i < 0 -> Argument decode t i = Ok ArgumentIndexNegative) /\
  (len (tx_Arguments t) <= i -> 0 <= i -> Argument decode t i = Ok (ArgumentMissing i)) /\
  (forall arg, 0 <= i -> tx_Arguments t !! Z.to_nat i = Some arg ->
     Argument decode t i
     = Ok (match decode arg with
           | inl v => ArgumentValue v
           | inr err => ArgumentDecodeFailed i err
           end)) /\
  noPanic (Argument decode t i) /\
  (forall arg, 0 <= i -> tx_Arguments t !! Z.to_nat i = Some arg ->
     forall new, Argument decode (AddRawArgument t new) i = Argument decode t i) /\
  (forall new,
     Argument decode (AddRawArgument t new) (len (tx_Arguments t))
     = Ok (match decode new with
           | inl v => ArgumentValue v
           | inr err => ArgumentDecodeFailed (len (tx_Arguments t)) err
           end)).
Proof.
  assert (forall (t0 : Transaction) (j : Z) arg, 0 <= j ->
            tx_Arguments t0 !! Z.to_nat j = Some arg ->
            Argument decode t0 j
            = Ok (match decode arg with
                  | inl v => ArgumentValue v
                  | inr err => ArgumentDecodeFailed j err
                  end)) as Hin.
  { intros t0 j arg Hj Harg. unfold Argument.
    pose proof (lookup_lt_Some _ _ _ Harg) as Hlt.
    destruct (Z.ltb_spec j 0); [lia|].
    destruct (Z.leb_spec (len (tx_Arguments t0)) j) as [Hle|_]; [unfold len in Hle; lia|].
    rewrite (index_lookup _ _ _ Hj Harg). cbn [bind]. destruct (decode arg); reflexivity. }
  split; [|split; [|split; [|split; [|split]]]].
  - intros Hi. unfold Argument. destruct (Z.ltb_spec i 0); [reflexivity|lia].
  - intros Hle H0. unfold Argument. destruct (Z.ltb_spec i 0); [lia|].
    destruct (Z.leb_spec (len (tx_Arguments t)) i); [reflexivity|lia].
  - intros arg. apply Hin.
  - unfold Argument. destruct (Z.ltb_spec i 0) as [|H0]; [exact I|].
    destruct (Z.leb_spec (len (tx_Arguments t)) i) as [|Hlt]; [exact I|].
    destruct (index_outcome (tx_Arguments t) i) as [(_ & x & _ & ->)|(Hn & _)].
    + cbn [bind]. destruct (decode x); exact I.
    + exfalso. apply Hn. split; assumption.
  - intros arg H0 Harg new. rewrite (Hin t i arg H0 Harg).
    apply Hin; [exact H0|]. cbn [AddRawArgument set_Arguments tx_Arguments].
    apply lookup_app_l_Some. exact Harg.
  - intros new. apply Hin; [apply len_nonneg|].
    cbn [AddRawArgument set_Arguments tx_Arguments]. unfold len.
    rewrite Nat2Z.id. apply list_lookup_middle. reflexivity.
Qed.

Lemma Argument_bounds_witness :
  Argument (fun b : list byte => @inl (list byte) unit b) tx_scenario 0
  = Ok (ArgumentValue sampleArgument) /\
  Argument (fun b : list byte => @inl (list byte) unit b) tx_scenario 1
  = Ok (ArgumentMissing 1) /\
  Argument (fun b : list byte => @inl (list byte) unit b) tx_scenario (-1)
  = Ok ArgumentIndexNegative.
Proof.
  split; [|split].
  - apply (proj1 (proj2 (proj2
             (Argument_bounds (fun b : list byte => @inl (list byte) unit b) tx_scenario 0))));
      [lia|vm_compute; reflexivity].
  - apply (proj1 (proj2
             (Argument_bounds (fun b : list byte => @inl (list byte) unit b) tx_scenario 1)));
      [vm_compute; discriminate|lia].
  - apply (proj1
             (Argument_bounds (fun b : list byte => @inl (list byte) unit b) tx_scenario (-1))).
    lia.
Defined.

(** ** The canonical form of a signature *)

Lemma to_uint_to_int (x : Z) : uint64_range x -> to_uint (to_int x) = x.
Proof.
  unfold uint64_range, to_uint, to_int, two64, two63. intros H.
  destruct (Z.ltb_spec x (2 ^ 63)).
  - apply Z.mod_small. lia.
  - replace (x - 2 ^ 64) with (x + (-1) * 2 ^ 64) by lia.
    rewrite Z.mod_add by lia. apply Z.mod_small. lia.
Qed.

(** The canonical form of a signature and the signature rebuilt from it.
    For a signature of the Go types the round trip gives back the signer
    index (a -1 included), the key index and the bytes, with the zero
    address in place of the address; for a canonical form of the Go types
    the round trip the other way is the identity. *)
Theorem signature_canonicalForm_round_trip :
  (forall s, int_range (sig_SignerIndex s) -> int_range (sig_KeyIndex s) ->
     transactionSignatureFromCanonicalForm (TransactionSignature_canonicalForm s)
     = mkTransactionSignature EmptyAddress (sig_SignerIndex s) (sig_KeyIndex s)
         (sig_Signature s)) /\
  (forall v, wf_signatureCanonicalForm v ->
     TransactionSignature_canonicalForm (transactionSignatureFromCanonicalForm v) = v).
Proof.
  split.
  - intros s Hi Hk.
    unfold transactionSignatureFromCanonicalForm, TransactionSignature_canonicalForm.
    cbn [scf_SignerIndex scf_KeyIndex scf_Signature].
    rewrite !to_int_to_uint by assumption. reflexivity.
  - intros [i k g] (Hi & Hk).
    unfold transactionSignatureFromCanonicalForm, TransactionSignature_canonicalForm.
    cbn [scf_SignerIndex scf_KeyIndex scf_Signature sig_SignerIndex sig_KeyIndex
         sig_Signature] in *.
    rewrite !to_uint_to_int by assumption. reflexivity.
Qed.

Lemma signature_canonicalForm_round_trip_witness :
  transactionSignatureFromCanonicalForm
    (TransactionSignature_canonicalForm (mkTransactionSignature addressB (-1) 0 [Byte.x09]))
  = mkTransactionSignature EmptyAddress (-1) 0 [Byte.x09].
Proof.
  apply (proj1 signature_canonicalForm_round_trip
           (mkTransactionSignature addressB (-1) 0 [Byte.x09]));
    (vm_compute; split; [discriminate|reflexivity]).
Defined.

(** ** The order of the signatures *)

(** [compareSignatures] is a strict weak order, as sorting requires: no
    signature is less than itself, the relation is asymmetric and
    transitive, and two signatures are unordered exactly when they agree on
    signer index and key index, whatever their addresses and bytes. *)
Theorem compareSignatures_strict_weak_order (a b c : TransactionSignature) :
  compareSignatures a a = false /\
  (compareSignatures a b = true -> compareSignatures b a = false) /\
  (compareSignatures a b = true -> compareSignatures b c = true ->
     compareSignatures a c = true) /\
  (compareSignatures a b = false /\ compareSignatures b a = false <->
   sig_SignerIndex a = sig_SignerIndex b /\ sig_KeyIndex a = sig_KeyIndex b).
Proof.
  unfold compareSignatures.
  repeat match goal with
         | |- context [?x =? ?y] => destruct (Z.eqb_spec x y)
         end;
    rewrite ?Z.ltb_lt, ?Z.ltb_ge; repeat split; try lia; try congruence;
    intros; lia.
Qed.

Lemma compareSignatures_strict_weak_order_witness :
  compareSignatures (mkTransactionSignature addressA 0 1 [])
    (mkTransactionSignature addressB 1 0 []) = true.
Proof.
  destruct (compareSignatures_strict_weak_order
              (mkTransactionSignature addressA 0 0 [])
              (mkTransactionSignature addressA 0 1 [])
              (mkTransactionSignature addressB 1 0 [])) as (_ & _ & H & _).
  apply H; reflexivity.
Defined.

(** ** Test identifiers *)

Lemma newIdentifier_mod (c1 c2 : Z) :
  c1 mod 256 = c2 mod 256 -> newIdentifier c1 = newIdentifier c2.
Proof.
  intros H. unfold newIdentifier, to_uint8. change (2 ^ 8) with 256. rewrite H.
  reflexivity.
Qed.

Lemma wrap_mod_256 (x : Z) : to_int (to_uint x) mod 256 = x mod 256.
Proof.
  unfold to_int, to_uint, two64, two63.
  assert ((x mod 2 ^ 64) mod 256 = x mod 256) as H.
  { rewrite (Z.div_mod x (2 ^ 64)) at 2 by lia.
    replace (2 ^ 64 * (x / 2 ^ 64) + x mod 2 ^ 64)
      with (x mod 2 ^ 64 + (2 ^ 56 * (x / 2 ^ 64)) * 256) by lia.
    rewrite Z.mod_add by lia. reflexivity. }
  destruct (x mod 2 ^ 64 <? 2 ^ 63); [exact H|].
  replace (x mod 2 ^ 64 - 2 ^ 64) with (x mod 2 ^ 64 + (- 2 ^ 56) * 256) by lia.
  rewrite Z.mod_add by lia. exact H.
Qed.

Lemma Identifiers_New_n_lookup (n : nat) :
  forall (count : Z) (i : nat) (id : Identifier),
    Identifiers_New_n n count !! i = Some id ->
    id = newIdentifier (count + 1 + Z.of_nat i).
Proof.
  induction n as [|n IH]; intros count i id H; [discriminate H|].
  cbn [Identifiers_New_n Identifiers_New] in H. rewrite lookup_cons in H.
  destruct i as [|i].
  - injection H as <-. apply newIdentifier_mod.
    rewrite wrap_mod_256. f_equal. lia.
  - apply IH in H as ->. apply newIdentifier_mod.
    rewrite <- Z.add_assoc.
    rewrite (Z.add_mod (to_int (to_uint (count + 1))) (1 + Z.of_nat i)) by lia.
    rewrite wrap_mod_256, <- Z.add_mod by lia. f_equal. lia.
Qed.

Lemma length_Identifiers_New_n (n : nat) (count : Z) :
  length (Identifiers_New_n n count) = n.
Proof.
  revert count. induction n as [|n IH]; intros count; [reflexivity|].
  cbn [Identifiers_New_n Identifiers_New length]. rewrite IH. reflexivity.
Qed.

(** The test identifiers: [newIdentifier] gives 32 bytes, and the same
    identifier for two counts exactly when the counts agree modulo 256; so
    of the identifiers a generator hands out in a row, whatever its counter,
    two are equal exactly when their positions differ by a multiple of
    256. *)
Theorem newIdentifier_spec (c1 c2 : Z) :
  length (newIdentifier c1) = IdentifierLength /\
  (newIdentifier c1 = newIdentifier c2 <-> c1 mod 256 = c2 mod 256) /\
  (forall n count, length (Identifiers_New_n n count) = n) /\
  (forall n count i j id1 id2,
     Identifiers_New_n n count !! i = Some id1 ->
     Identifiers_New_n n count !! j = Some id2 ->
     (id1 = id2 <-> Z.of_nat i mod 256 = Z.of_nat j mod 256)).
Proof.
  assert (forall a b, newIdentifier a = newIdentifier b <-> a mod 256 = b mod 256) as Hiff.
  { intros a b. split; [|apply newIdentifier_mod].
    unfold newIdentifier, to_uint8, IdentifierLength. change (2 ^ 8) with 256.
    cbn [repeat]. intros H. injection H as H.
    apply (f_equal b2z) in H. rewrite !b2z_z2b in H; [exact H| |];
      apply Z.mod_pos_bound; lia. }
  split; [apply repeat_length|]. split; [apply Hiff|].
  split; [intros; apply length_Identifiers_New_n|].
  intros n count i j id1 id2 H1 H2.
  apply Identifiers_New_n_lookup in H1 as ->. apply Identifiers_New_n_lookup in H2 as ->.
  rewrite Hiff. split; intros H.
  - assert ((count + 1 + Z.of_nat i - (count + 1)) mod 256
            = (count + 1 + Z.of_nat j - (count + 1)) mod 256) as H'.
    { rewrite (Zminus_mod (count + 1 + Z.of_nat i)), H, <- Zminus_mod. reflexivity. }
    replace (count + 1 + Z.of_nat i - (count + 1)) with (Z.of_nat i) in H' by lia.
    replace (count + 1 + Z.of_nat j - (count + 1)) with (Z.of_nat j) in H' by lia.
    exact H'.
  - rewrite (Z.add_mod (count + 1)), H, <- Z.add_mod by lia. reflexivity.
Qed.

Lemma newIdentifier_spec_witness :
  newIdentifier 2 = newIdentifier 258 /\
  length (newIdentifier 2) = IdentifierLength.
Proof.
  destruct (newIdentifier_spec 2 258) as (Hlen & Hiff & _).
  split; [apply Hiff; reflexivity|exact Hlen].
Defined.

(** ** Signing does not change what was signed *)




(** ** Bytes behind a message *)

Lemma decodeTransaction_payload_trailing (p : payloadCanonicalForm) (junk : list byte) :
  wf_payloadCanonicalForm p ->
  len (encode_payloadCanonicalForm p) < two64 ->
  decodeTransaction_traced (encode_payloadCanonicalForm p ++ junk)
  = Ok (mkTransactionCanonicalForm p [] [], PayloadOnly).
Proof.
  intros Hwf Hlen. unfold decodeTransaction_traced, rlp.NewStream.
  pose proof (decode_payload_ok p Hwf Hlen junk [] I) as Hdec.
  rewrite Hdec. clear Hdec.
  unfold encode_payloadCanonicalForm in *.
  match type of Hlen with len (rlp.writeList ?c) < _ => set (content := c) in * end.
  pose proof (len_le_writeList content) as Hle.
  rewrite Kind_writeList by (cbn; auto; lia). cbn [bind rlp.kind].
  rewrite List_ok by (cbn; auto; lia). cbn [bind].
  unfold content at 1. rewrite <- !app_assoc.
  destruct (Kind_writeBytes (pcf_Script p)
              (rlp.encodeByteSlices (pcf_Arguments p) ++
               rlp.writeBytes (pcf_ReferenceBlockID p) ++
               rlp.writeUint64 (pcf_GasLimit p) ++
               rlp.writeBytes (pcf_ProposalKeyAddress p) ++
               rlp.writeUint64 (pcf_ProposalKeyIndex p) ++
               rlp.writeUint64 (pcf_ProposalKeySequenceNumber p) ++
               rlp.writeBytes (pcf_Payer p) ++
               rlp.encodeByteSlices (pcf_Authorizers p) ++ junk)
              (rlp.mkListpos 0 (len content)
                 :: adv (len (rlp.puthead 192 247 (len content))) []))
    as (t & s' & HK & Hkind).
  { pose proof (len_le_writeBytes (pcf_Script p)).
    assert (len (rlp.writeBytes (pcf_Script p)) <= len content); [|lia].
    unfold content. rewrite len_app. unfold len. lia. }
  { cbn [fits rlp.pos rlp.size]. unfold content. rewrite len_app. unfold len. lia. }
  rewrite HK. cbn [bind]. destruct (rlp.kind t); try reflexivity. congruence.
Qed.

Lemma decodeTransaction_envelope_trailing (e : envelopeCanonicalForm) (junk : list byte) :
  wf_payloadCanonicalForm (ecf_Payload e) ->
  Forall wf_signatureCanonicalForm (ecf_PayloadSignatures e) ->
  len (encode_envelopeCanonicalForm e) < two64 ->
  decodeTransaction_traced (encode_envelopeCanonicalForm e ++ junk)
  = Ok (mkTransactionCanonicalForm (ecf_Payload e) (ecf_PayloadSignatures e) [],
        EnvelopeAtEOL).
Proof.
  intros Hwf Hsigs Hlen. destruct e as [p sigs]. cbn [ecf_Payload ecf_PayloadSignatures] in *.
  unfold decodeTransaction_traced, rlp.NewStream, encode_envelopeCanonicalForm in *.
  cbn [ecf_Payload ecf_PayloadSignatures] in *.
  set (e1 := encode_payloadCanonicalForm p) in *.
  set (e2 := encode_signatures sigs) in *.
  pose proof (len_le_writeList (e1 ++ e2)) as Hle.
  assert (len (e1 ++ e2) = len e1 + len e2) as HL by (rewrite len_app; lia).
  rewrite Kind_writeList by (cbn; auto; lia). cbn [bind rlp.kind].
  rewrite List_ok by (cbn; auto; lia). cbn [bind].
  rewrite <- !app_assoc.
  unfold e1 at 1. unfold encode_payloadCanonicalForm at 1.
  match goal with
  | |- context [rlp.Kind_ (rlp.mkStream (rlp.writeList ?c ++ ?rest) ?stk)] =>
      pose proof (len_le_writeList c) as Hp;
      fold (encode_payloadCanonicalForm p) in Hp; fold e1 in Hp;
      rewrite (Kind_writeList c rest stk)
  end.
  2:{ side. }
  2:{ fold (encode_payloadCanonicalForm p). fold e1. side. }
  cbn [bind rlp.kind]. fold (encode_payloadCanonicalForm p). fold e1.
  rewrite (decode_payload_ok p Hwf ltac:(side)) by side.
  cbn [bind adv rlp.pos rlp.size].
  rewrite (decode_signatures_ok sigs Hsigs ltac:(fold e2; side)) by side.
  cbn [bind adv rlp.pos rlp.size].
  rewrite Kind_EOL_eq by side. reflexivity.
Qed.

Lemma decodeTransaction_full_trailing (f : transactionCanonicalForm) (junk : list byte) :
  wf_payloadCanonicalForm (tcf_Payload f) ->
  Forall wf_signatureCanonicalForm (tcf_PayloadSignatures f) ->
  Forall wf_signatureCanonicalForm (tcf_EnvelopeSignatures f) ->
  len (encode_transactionCanonicalForm f) < two64 ->
  decodeTransaction_traced (encode_transactionCanonicalForm f ++ junk) = Ok (f, FullForm).
Proof.
  intros Hwf Hsigs Hesigs Hlen. destruct f as [p sigs esigs].
  cbn [tcf_Payload tcf_PayloadSignatures tcf_EnvelopeSignatures] in *.
  unfold decodeTransaction_traced, rlp.NewStream, encode_transactionCanonicalForm in *.
  cbn [tcf_Payload tcf_PayloadSignatures tcf_EnvelopeSignatures] in *.
  set (e1 := encode_payloadCanonicalForm p) in *.
  set (e2 := encode_signatures sigs) in *.
  set (e3 := encode_signatures esigs) in *.
  pose proof (len_le_writeList (e1 ++ e2 ++ e3)) as Hle.
  assert (len (e1 ++ e2 ++ e3) = len e1 + len e2 + len e3) as HL
    by (rewrite !len_app; lia).
  rewrite Kind_writeList by (cbn; auto; lia). cbn [bind rlp.kind].
  rewrite List_ok by (cbn; auto; lia). cbn [bind].
  rewrite <- !app_assoc.
  unfold e1 at 1. unfold encode_payloadCanonicalForm at 1.
  match goal with
  | |- context [rlp.Kind_ (rlp.mkStream (rlp.writeList ?c ++ ?rest) ?stk)] =>
      pose proof (len_le_writeList c) as Hp;
      fold (encode_payloadCanonicalForm p) in Hp; fold e1 in Hp;
      rewrite (Kind_writeList c rest stk)
  end.
  2:{ side. }
  2:{ fold (encode_payloadCanonicalForm p). fold e1. side. }
  cbn [bind rlp.kind]. fold (encode_payloadCanonicalForm p). fold e1.
  rewrite (decode_payload_ok p Hwf ltac:(side)) by side.
  cbn [bind adv rlp.pos rlp.size].
  rewrite (decode_signatures_ok sigs Hsigs ltac:(fold e2; side)) by side.
  cbn [bind adv rlp.pos rlp.size].
  match goal with
  | |- context [rlp.Kind_ (rlp.mkStream (e3 ++ ?rest) ?stk)] =>
      assert (exists t s', rlp.Kind_ (rlp.mkStream (e3 ++ rest) stk) = Ok (t, s'))
        as (t & s' & HK)
  end.
  { subst e1 e2 e3. unfold encode_signatures in *.
    match goal with
    | |- context [rlp.writeList ?c ++ junk] => pose proof (len_le_writeList c)
    end.
    eexists _, _. apply Kind_writeList; [|cbn [fits rlp.pos rlp.size]];
      unfold len in *; lia. }
  rewrite HK.
  rewrite (decode_signatures_ok esigs Hesigs ltac:(fold e3; side)) by side.
  reflexivity.
Qed.

Lemma DecodeTransaction_same_form (b1 b2 : list byte) :
  decodeTransaction b1 = decodeTransaction b2 ->
  DecodeTransaction b1 = DecodeTransaction b2.
Proof. unfold DecodeTransaction. intros ->. reflexivity. Qed.

(** [DecodeTransaction] does not look behind the message: with any bytes
    appended to the bytes of [PayloadMessage], [EnvelopeMessage] or [Encode]
    of a transaction of the Go types, it leaves through the same return
    statement and gives the result it gives for the message alone. *)
Theorem DecodeTransaction_ignores_trailing_bytes (t t' : Transaction)
  (b junk : list byte) :
  WellTyped t ->
  PayloadMessage t = Ok (b, t') \/ EnvelopeMessage t = Ok (b, t') \/ Encode t = Ok (b, t') ->
  len b < two64 ->
  decodeTransaction_traced (b ++ junk) = decodeTransaction_traced b /\
  DecodeTransaction (b ++ junk) = DecodeTransaction b.
Proof.
  intros Hw H Hlen.
  assert (decodeTransaction_traced (b ++ junk) = decodeTransaction_traced b) as E.
  { destruct H as [H|[H|H]].
    - apply PayloadMessage_inv in H as (_ & -> & _).
      pose proof (wf_payloadFormOf _ (WellTyped_stripped _ Hw)) as Hwf.
      rewrite (decodeTransaction_payload_trailing _ junk Hwf Hlen).
      rewrite (decodeTransaction_payload _ Hwf Hlen). reflexivity.
    - apply EnvelopeMessage_inv in H as (_ & -> & _).
      pose proof (wf_payloadFormOf _ (WellTyped_stripped _ Hw)) as Hwf.
      rewrite (decodeTransaction_envelope_trailing
                 (mkEnvelopeCanonicalForm _ _) junk Hwf (wf_signaturesList _) Hlen).
      rewrite (decodeTransaction_envelope
                 (mkEnvelopeCanonicalForm _ _) Hwf (wf_signaturesList _) Hlen).
      reflexivity.
    - apply Encode_inv in H as (_ & -> & _).
      pose proof (wf_payloadFormOf _ (WellTyped_stripped _ Hw)) as Hwf.
      rewrite (decodeTransaction_full_trailing
                 (mkTransactionCanonicalForm _ _ _) junk Hwf
                 (wf_signaturesList _) (wf_signaturesList _) Hlen).
      rewrite (decodeTransaction_full
                 (mkTransactionCanonicalForm _ _ _) Hwf
                 (wf_signaturesList _) (wf_signaturesList _) Hlen).
      reflexivity. }
  split; [exact E|]. apply DecodeTransaction_same_form.
  unfold decodeTransaction. rewrite E. reflexivity.
Qed.

Lemma DecodeTransaction_ignores_trailing_bytes_witness :
  DecodeTransaction (msg_scenario_signed ++ [Byte.xff; Byte.x00])
  = DecodeTransaction msg_scenario_signed.
Proof.
  apply (DecodeTransaction_ignores_trailing_bytes tx_scenario_signed
           (strippedTransaction tx_scenario_signed)).
  - concrete.
  - right. right. vm_compute. reflexivity.
  - vm_compute. reflexivity.
Defined.
